(** * Binomial asset pricing: European, American and up-and-out barrier trees

    A shallow embedding of the six lattice pricers of the repository

      - [binomial_tree_slow], [binomial_tree_fast]   (European call),
      - [american_slow_tree], [american_fast_tree]   (American option),
      - [barrier_tree_slow],  [barrier_tree_fast]    (up-and-out barrier),

    together with the properties of the valuation engine.

    Numbers.  Python floats and numpy [float64] values are idealised as
    real numbers: [np.exp] is [exp], [x ** n] with an integer exponent is
    [x ^ n], Python's [max] and [np.maximum] are [Rmax].  Rounding, [nan]
    and [inf] are outside this model, so results are meaningful on inputs
    where every division of the source has a non-zero divisor: [u <> d]
    for the risk-neutral probability, and [d <> 0] for the repeated
    multiplication [S[j-1]*u/d] of [binomial_tree_slow].  The step count
    [N] is a natural number.  The only exception the model raises is the
    [ZeroDivisionError] of [dt = T/N] (Python numbers) at [N = 0]; the
    [OverflowError] of Python's [float ** int] in the node-wise loops has
    no counterpart on real numbers, and statements that a node-wise pricer
    returns carry the hypothesis [powers_in_range] that excludes it.

    Where a statement relates the prices two pricers return, each pricer
    is taken over the node prices it computes itself ([node_price],
    [fast_price], [iterated_price]): one real number, and differently
    rounded doubles.  Where two pricers are compared on the doubles they
    return, the module [Binary64] runs them.

    Arrays.  A numpy array is a [list R]; [C[j]] is [get C j], the in-place
    store [C[j] = v] is [set C j v], slices are [slice], whole-array
    arithmetic is [map]/[zip_with]. *)

From Stdlib Require Import String Reals Lra Lia List Arith Bool.
From Stdlib Require Floats.
Import ListNotations.
Open Scope R_scope.

(** ** Results and exceptions *)

Inductive exn : Set := ZeroDivisionError.

Inductive result (A : Type) : Type :=
| Ok (a : A)
| Raise (e : exn).
Arguments Ok {A} a.
Arguments Raise {A} e.

Definition bind {A B} (m : result A) (k : A -> result B) : result B :=
  match m with
  | Ok a => k a
  | Raise e => Raise e
  end.

Notation "x <- m ;; k" := (bind m (fun x => k))
  (at level 61, m at next level, right associativity).

(** [T/N] on Python numbers: raises on a zero divisor. *)
Definition py_div (T : R) (N : nat) : result R :=
  match N with
  | O => Raise ZeroDivisionError
  | S _ => Ok (T / INR N)
  end.

(** ** Arrays *)

Definition array := list R.

(** [a[j]] *)
Definition get (a : array) (j : nat) : R := nth j a 0.

(** [a[j] = v], in place.  Python raises [IndexError] out of range; the
    pricers never index out of range (see [length_set] and the loop
    lemmas), and the model leaves the array unchanged there. *)
Fixpoint set (a : array) (j : nat) (v : R) : array :=
  match a, j with
  | [], _ => []
  | _ :: t, O => v :: t
  | x :: t, S j' => x :: set t j' v
  end.

(** [np.zeros(n)] *)
Definition zeros (n : nat) : array := repeat 0 n.

(** [a[lo:hi]] *)
Definition slice (a : array) (lo hi : nat) : array :=
  firstn (hi - lo) (skipn lo a).

(** [a[:n] = rhs] *)
Definition assign_prefix (a : array) (n : nat) (rhs : array) : array :=
  rhs ++ skipn n a.

(** [a[:-1]] *)
Definition drop_last (a : array) : array := removelast a.

(** Element-wise binary operation on arrays of one shape. *)
Definition zip_with {A B C} (f : A -> B -> C) (a : list A) (b : list B)
  : list C :=
  map (fun p => f (fst p) (snd p)) (combine a b).

(** [c * a], [a + b], [k - a], [a - k] on whole arrays *)
Definition scale (c : R) (a : array) : array := map (Rmult c) a.
Definition vadd (a b : array) : array := zip_with Rplus a b.
Definition rsub (k : R) (a : array) : array := map (fun s => k - s) a.
Definition subr (a : array) (k : R) : array := map (fun s => s - k) a.

(** [np.maximum(a, b)] on arrays, and with a scalar on either side *)
Definition maximum (a b : array) : array := zip_with Rmax a b.
Definition maximum_sl (k : R) (a : array) : array := map (Rmax k) a.
Definition maximum_sr (a : array) (k : R) : array :=
  map (fun x => Rmax x k) a.

(** [a[s >= h] = 0]: boolean-mask store *)
Definition mask_zero (a s : array) (h : R) : array :=
  zip_with (fun c x => if Rge_dec x h then 0 else c) a s.

(** ** Index ranges and loops *)

(** [range(lo, hi)] *)
Definition range (lo hi : nat) : list nat := seq lo (hi - lo).

(** [np.arange(0, n, 1)] *)
Definition arange_incr (n : nat) : list nat := seq 0 n.

(** [np.arange(m-1, lo-1, -1)], that is [m-1, m-2, ..., lo] *)
Definition arange_decr (m lo : nat) : list nat := rev (seq lo (m - lo)).

(** [for i in l: s = body i s] *)
Definition for_each {A} (l : list nat) (body : nat -> A -> A) (s : A) : A :=
  fold_left (fun s i => body i s) l s.

(** ** Lattice and pricers, for fixed calibration constants *)

Section Lattice.

Variables (K S0 u d : R).
Variables (q disc : R).

(** Price of node [(i,j)] as the loop pricers write it. *)
Definition node_price (i j : nat) : R := S0 * u ^ j * d ^ (i - j).

(** [S0 * d**(np.arange(i,-1,-1)) * u**(np.arange(0,i+1,1))] *)
Definition layer_prices (i : nat) : array :=
  zip_with Rmult
    (scale S0 (map (pow d) (arange_decr (i + 1) 0)))
    (map (pow u) (arange_incr (i + 1))).

(** Discounted expectation read from the cells [j] and [j+1] of [C]. *)
Definition hold (C : array) (j : nat) : R :=
  disc * (q * get C (j + 1) + (1 - q) * get C j).

(** *** European call, node by node ([binomial_tree_slow]) *)

Definition binomial_slow_prices (N : nat) : array :=
  let S := zeros (N + 1) in
  let S := set S 0 (S0 * d ^ N) in
  for_each (range 1 (N + 1))
    (fun j S => set S j (get S (j - 1) * u / d)) S.

Definition binomial_slow_payoff (N : nat) (S : array) : array :=
  for_each (range 0 (N + 1))
    (fun j C => set C j (Rmax 0 (get S j - K))) (zeros (N + 1)).

Definition binomial_slow_layer (i : nat) (C : array) : array :=
  for_each (range 0 i) (fun j C => set C j (hold C j)) C.

Definition binomial_slow_loop (N : nat) : array :=
  for_each (arange_decr (N + 1) 1) binomial_slow_layer
    (binomial_slow_payoff N (binomial_slow_prices N)).

(** The array after the first [k] iterations of the outer loop. *)
Definition binomial_slow_run (N k : nat) : array :=
  for_each (firstn k (arange_decr (N + 1) 1)) binomial_slow_layer
    (binomial_slow_payoff N (binomial_slow_prices N)).

(** *** European call, layer by layer ([binomial_tree_fast]) *)

Definition binomial_fast_payoff (N : nat) : array :=
  let C := layer_prices N in
  maximum (subr C K) (zeros (N + 1)).

Definition binomial_fast_layer (i : nat) (C : array) : array :=
  scale disc (vadd (scale q (slice C 1 (i + 1)))
                   (scale (1 - q) (slice C 0 i))).

Definition binomial_fast_loop (N : nat) : array :=
  for_each (arange_decr (N + 1) 1) binomial_fast_layer
    (binomial_fast_payoff N).

Definition binomial_fast_run (N k : nat) : array :=
  for_each (firstn k (arange_decr (N + 1) 1)) binomial_fast_layer
    (binomial_fast_payoff N).

(** *** American option and barrier option: dispatch on [opttype] *)

Variable opttype : string.

(** *** American, node by node ([american_slow_tree]) *)

Definition american_slow_prices (N : nat) : array :=
  for_each (range 0 (N + 1))
    (fun j S => set S j (S0 * u ^ j * d ^ (N - j))) (zeros (N + 1)).

Definition american_slow_payoff (N : nat) (S : array) : array :=
  for_each (range 0 (N + 1))
    (fun j C =>
       if (opttype =? "P")%string
       then set C j (Rmax 0 (K - get S j))
       else set C j (Rmax 0 (get S j - K)))
    (zeros (N + 1)).

Definition american_slow_node (i j : nat) (C : array) : array :=
  let S := S0 * u ^ j * d ^ (i - j) in
  let C := set C j (hold C j) in
  if (opttype =? "P")%string
  then set C j (Rmax (get C j) (K - S))
  else set C j (Rmax (get C j) (S - K)).

Definition american_slow_layer (i : nat) (C : array) : array :=
  for_each (range 0 (i + 1)) (american_slow_node i) C.

Definition american_slow_loop (N : nat) : array :=
  for_each (arange_decr N 0) american_slow_layer
    (american_slow_payoff N (american_slow_prices N)).

Definition american_slow_run (N k : nat) : array :=
  for_each (firstn k (arange_decr N 0)) american_slow_layer
    (american_slow_payoff N (american_slow_prices N)).

(** *** American, layer by layer ([american_fast_tree]) *)

Definition american_fast_payoff (N : nat) : array :=
  let S := layer_prices N in
  if (opttype =? "P")%string
  then maximum_sl 0 (rsub K S)
  else maximum_sl 0 (subr S K).

Definition american_fast_layer (i : nat) (C : array) : array :=
  let S := layer_prices i in
  let C := assign_prefix C (i + 1)
             (scale disc (vadd (scale q (slice C 1 (i + 2)))
                               (scale (1 - q) (slice C 0 (i + 1))))) in
  let C := drop_last C in
  if (opttype =? "P")%string
  then maximum C (rsub K S)
  else maximum C (subr S K).

Definition american_fast_loop (N : nat) : array :=
  for_each (arange_decr N 0) american_fast_layer
    (american_fast_payoff N).

Definition american_fast_run (N k : nat) : array :=
  for_each (firstn k (arange_decr N 0)) american_fast_layer
    (american_fast_payoff N).

(** *** Up-and-out barrier, node by node ([barrier_tree_slow]) *)

Variable H : R.

Definition barrier_slow_prices (N : nat) : array :=
  for_each (range 0 (N + 1))
    (fun j S => set S j (S0 * u ^ j * d ^ (N - j))) (zeros (N + 1)).

Definition barrier_slow_payoff (N : nat) (S : array) : array :=
  for_each (range 0 (N + 1))
    (fun j C =>
       if (opttype =? "C")%string
       then set C j (Rmax 0 (get S j - K))
       else set C j (Rmax 0 (K - get S j)))
    (zeros (N + 1)).

Definition barrier_slow_knock (N : nat) (C : array) : array :=
  for_each (range 0 (N + 1))
    (fun j C =>
       let S := S0 * u ^ j * d ^ (N - j) in
       if Rge_dec S H then set C j 0 else C)
    C.

Definition barrier_slow_node (i j : nat) (C : array) : array :=
  let S := S0 * u ^ j * d ^ (i - j) in
  if Rge_dec S H then set C j 0 else set C j (hold C j).

Definition barrier_slow_layer (i : nat) (C : array) : array :=
  for_each (range 0 (i + 1)) (barrier_slow_node i) C.

Definition barrier_slow_loop (N : nat) : array :=
  for_each (arange_decr N 0) barrier_slow_layer
    (barrier_slow_knock N
       (barrier_slow_payoff N (barrier_slow_prices N))).

Definition barrier_slow_run (N k : nat) : array :=
  for_each (firstn k (arange_decr N 0)) barrier_slow_layer
    (barrier_slow_knock N
       (barrier_slow_payoff N (barrier_slow_prices N))).

(** *** Up-and-out barrier, layer by layer ([barrier_tree_fast]) *)

Definition barrier_fast_payoff (N : nat) : array :=
  let S := layer_prices N in
  let C := if (opttype =? "C")%string
           then maximum_sr (subr S K) 0
           else maximum_sr (rsub K S) 0 in
  mask_zero C S H.

Definition barrier_fast_layer (i : nat) (C : array) : array :=
  let S := layer_prices i in
  let C := assign_prefix C (i + 1)
             (scale disc (vadd (scale q (slice C 1 (i + 2)))
                               (scale (1 - q) (slice C 0 (i + 1))))) in
  let C := drop_last C in
  mask_zero C S H.

Definition barrier_fast_loop (N : nat) : array :=
  for_each (arange_decr N 0) barrier_fast_layer
    (barrier_fast_payoff N).

Definition barrier_fast_run (N k : nat) : array :=
  for_each (firstn k (arange_decr N 0)) barrier_fast_layer
    (barrier_fast_payoff N).

End Lattice.

(** ** The pricers *)

(** Risk-neutral probability and discount factor, as every pricer
    computes them from [dt]. *)
Definition risk_neutral (r dt u d : R) : R := (exp (r * dt) - d) / (u - d).
Definition discount (r dt : R) : R := exp (- r * dt).

Definition binomial_tree_slow (K T S0 r : R) (N : nat) (u d : R)
    (opttype : string) : result R :=
  dt <- py_div T N ;;
  let q := risk_neutral r dt u d in
  let disc := discount r dt in
  Ok (get (binomial_slow_loop K S0 u d q disc N) 0).

Definition binomial_tree_fast (K T S0 r : R) (N : nat) (u d : R)
    (opttype : string) : result R :=
  dt <- py_div T N ;;
  let q := risk_neutral r dt u d in
  let disc := discount r dt in
  Ok (get (binomial_fast_loop K S0 u d q disc N) 0).

Definition american_slow_tree (K T S0 r : R) (N : nat) (u d : R)
    (opttype : string) : result R :=
  dt <- py_div T N ;;
  let q := risk_neutral r dt u d in
  let disc := discount r dt in
  Ok (get (american_slow_loop K S0 u d q disc opttype N) 0).

Definition american_fast_tree (K T S0 r : R) (N : nat) (u d : R)
    (opttype : string) : result R :=
  dt <- py_div T N ;;
  let q := risk_neutral r dt u d in
  let disc := discount r dt in
  Ok (get (american_fast_loop K S0 u d q disc opttype N) 0).

Definition barrier_tree_slow (K T S0 H r : R) (N : nat) (u d : R)
    (opttype : string) : result R :=
  dt <- py_div T N ;;
  let q := risk_neutral r dt u d in
  let disc := discount r dt in
  Ok (get (barrier_slow_loop K S0 u d q disc opttype H N) 0).

Definition barrier_tree_fast (K T S0 H r : R) (N : nat) (u d : R)
    (opttype : string) : result R :=
  dt <- py_div T N ;;
  let q := risk_neutral r dt u d in
  let disc := discount r dt in
  Ok (get (barrier_fast_loop K S0 u d q disc opttype H N) 0).


(** ** The recorded backward loops of the barrier pricers

    The backward loops of the two barrier pricers once more, this time
    recording the operations they execute on intermediate nodes: the
    barrier test [S >= H] of a node, and the evaluation of its discounted
    continuation [disc*(q*C[j+1] + (1-q)*C[j])].  Erasing the record gives
    back the loops of the pricers ([barrier_slow_ops_erase],
    [barrier_fast_ops_erase]). *)

Inductive op : Set :=
| BarrierTest (i j : nat)
| Continuation (i j : nat).

Section Operations.

Variables (K S0 u d q disc : R).
Variable opttype : string.
Variable H : R.

(** Node-wise: the test comes first, and the continuation is evaluated
    in the [else] branch only. *)
Definition barrier_slow_node_ops (i j : nat) (st : array * list op)
  : array * list op :=
  let (C, ops) := st in
  let S := S0 * u ^ j * d ^ (i - j) in
  let ops := ops ++ [BarrierTest i j] in
  if Rge_dec S H then (set C j 0, ops)
  else (set C j (hold q disc C j), ops ++ [Continuation i j]).

Definition barrier_slow_layer_ops (i : nat) (st : array * list op)
  : array * list op :=
  for_each (range 0 (i + 1)) (barrier_slow_node_ops i) st.

Definition barrier_slow_ops (N : nat) : array * list op :=
  for_each (arange_decr N 0) barrier_slow_layer_ops
    (barrier_slow_knock S0 u d H N
       (barrier_slow_payoff K opttype N (barrier_slow_prices S0 u d N)), []).

(** Layer-wise: the continuation of the whole layer is evaluated by the
    slice expression, then the mask tests the whole layer. *)
Definition barrier_fast_layer_ops (i : nat) (st : array * list op)
  : array * list op :=
  let (C, ops) := st in
  let S := layer_prices S0 u d i in
  let C := assign_prefix C (i + 1)
             (scale disc (vadd (scale q (slice C 1 (i + 2)))
                               (scale (1 - q) (slice C 0 (i + 1))))) in
  let ops := ops ++ map (Continuation i) (range 0 (i + 1)) in
  let C := drop_last C in
  let ops := ops ++ map (BarrierTest i) (range 0 (i + 1)) in
  (mask_zero C S H, ops).

Definition barrier_fast_ops (N : nat) : array * list op :=
  for_each (arange_decr N 0) barrier_fast_layer_ops
    (barrier_fast_payoff K S0 u d opttype H N, []).

(** Operations of one node and of one layer. *)
Definition slow_node_trace (i j : nat) : list op :=
  if Rge_dec (node_price S0 u d i j) H then [BarrierTest i j]
  else [BarrierTest i j; Continuation i j].

Definition slow_layer_trace (i : nat) : list op :=
  flat_map (slow_node_trace i) (range 0 (i + 1)).

Definition fast_layer_trace (i : nat) : list op :=
  map (Continuation i) (range 0 (i + 1)) ++ map (BarrierTest i) (range 0 (i + 1)).

End Operations.

(** [a] is executed before [b] in the record [l]. *)
Definition precedes (a b : op) (l : list op) : Prop :=
  exists l1 l2 l3, l = l1 ++ a :: l2 ++ b :: l3.


(** ** Specification vocabulary *)

Section NodeRules.

Variables (K S0 u d q disc : R).
Variable opttype : string.
Variable H : R.

Local Abbreviation cont := (hold q disc).
Local Abbreviation price := (node_price S0 u d).

(** Value the American pricers give node [(i,j)] from the layer above. *)
Definition american_value (i : nat) (C : array) (j : nat) : R :=
  if (opttype =? "P")%string
  then Rmax (cont C j) (K - price i j)
  else Rmax (cont C j) (price i j - K).

(** Value the barrier pricers give node [(i,j)] from the layer above. *)
Definition barrier_value (i : nat) (C : array) (j : nat) : R :=
  if Rge_dec (price i j) H then 0 else cont C j.

End NodeRules.

(** Reference lattice: the value of node [j] of layer [N - k], defined by
    recursion on the number [k] of backward steps: terminal payoff at
    [k = 0], and at each step a node rule applied to the two successors of
    the node. *)

Section ReferenceLattice.

Variable term : nat -> R.
Variable node : nat -> nat -> R -> R -> R.
Variable N : nat.

Fixpoint lattice (k j : nat) : R :=
  match k with
  | O => term j
  | S k' => node (N - 1 - k') j (lattice k' j) (lattice k' (j + 1))
  end.

End ReferenceLattice.

Section Variants.

Variables (K S0 u d q disc : R).
Variable opttype : string.
Variable H : R.

Local Abbreviation price := (node_price S0 u d).

(** Discounted expectation of the two successor values [c0] (down) and
    [c1] (up). *)
Definition expectation (c0 c1 : R) : R := disc * (q * c1 + (1 - q) * c0).

Definition call_payoff (S : R) : R := Rmax 0 (S - K).
Definition put_payoff (S : R) : R := Rmax 0 (K - S).

(** European call *)
Definition binomial_term (N j : nat) : R := call_payoff (price N j).
Definition binomial_node (i j : nat) (c0 c1 : R) : R := expectation c0 c1.
Definition binomial_lattice (N : nat) : nat -> nat -> R :=
  lattice (binomial_term N) binomial_node N.

(** American: ['P'] is a put, everything else a call *)
Definition american_term (N j : nat) : R :=
  if (opttype =? "P")%string
  then put_payoff (price N j) else call_payoff (price N j).
Definition american_node (i j : nat) (c0 c1 : R) : R :=
  if (opttype =? "P")%string
  then Rmax (expectation c0 c1) (K - price i j)
  else Rmax (expectation c0 c1) (price i j - K).
Definition american_lattice (N : nat) : nat -> nat -> R :=
  lattice (american_term N) american_node N.

(** Up-and-out barrier: ['C'] is a call, everything else a put *)
Definition barrier_term (N j : nat) : R :=
  if Rge_dec (price N j) H then 0
  else if (opttype =? "C")%string
       then call_payoff (price N j) else put_payoff (price N j).
Definition barrier_node (i j : nat) (c0 c1 : R) : R :=
  if Rge_dec (price i j) H then 0 else expectation c0 c1.
Definition barrier_lattice (N : nat) : nat -> nat -> R :=
  lattice (barrier_term N) barrier_node N.

End Variants.

(** A call returns a price when it returns [Ok]. *)
Definition returns (p : result R) : Prop := exists v, p = Ok v.

(** Order on results: both calls return, and the first price is at most
    the second. *)
Definition result_le (a b : result R) : Prop :=
  match a, b with
  | Ok x, Ok y => x <= y
  | _, _ => False
  end.

(** The payoff the option kind selects, as the terminal layer of the
    American pricers computes it: [max(0, K-S)] for the put ['P'],
    [max(0, S-K)] for a call. *)
Definition exercise (K : R) (opttype : string) (S : R) : R :=
  if (opttype =? "P")%string then put_payoff K S else call_payoff K S.

(** What the backward loops compare the continuation with: the intrinsic
    value itself, not its positive part. *)
Definition intrinsic (K : R) (opttype : string) (S : R) : R :=
  if (opttype =? "P")%string then K - S else S - K.

(** The cells [0..i] of a node-wise buffer: its layer-[i] values. *)
Definition live (i : nat) (C : array) : array := firstn (i + 1) C.

(** A layer-[i] array: exactly [i+1] entries, none negative. *)
Definition layer_ok (i : nat) (C : array) : Prop :=
  length C = (i + 1)%nat /\ Forall (fun c => 0 <= c) C.


(** ** Node prices and lattices, as each pricer computes them

    The pricers write the price of node [(i,j)] in three ways: the
    node-wise American and barrier loops as [S0 * u**j * d**(i-j)]
    ([node_price]), the layer-wise pricers as [S0 * d**(i-j) * u**j]
    ([fast_price]), and [binomial_tree_slow], at maturity, by the repeated
    multiplication [S[j] = S[j-1]*u/d] from [S[0] = S0 * d**N]
    ([iterated_price]).  The three are the same real number (the last one
    for [d <> 0]) and three different sequences of roundings. *)

Definition fast_price (S0 u d : R) (i j : nat) : R :=
  S0 * d ^ (i - j) * u ^ j.

Fixpoint iterated_price (S0 u d : R) (N j : nat) : R :=
  match j with
  | O => S0 * d ^ N
  | S j' => iterated_price S0 u d N j' * u / d
  end.

(** The backward recursion of each variant over given node prices. *)

Section OnPrices.

Variables (K q disc : R).
Variable opttype : string.
Variable H : R.
Variable price : nat -> nat -> R.

Definition european_on (N : nat) : nat -> nat -> R :=
  lattice (fun j => call_payoff K (price N j)) (binomial_node q disc) N.

Definition american_on (N : nat) : nat -> nat -> R :=
  lattice (fun j => exercise K opttype (price N j))
    (fun i j c0 c1 =>
       Rmax (expectation q disc c0 c1) (intrinsic K opttype (price i j)))
    N.

Definition barrier_on (N : nat) : nat -> nat -> R :=
  lattice
    (fun j => if Rge_dec (price N j) H then 0
              else if (opttype =? "C")%string
                   then call_payoff K (price N j)
                   else put_payoff K (price N j))
    (fun i j c0 c1 =>
       if Rge_dec (price i j) H then 0 else expectation q disc c0 c1)
    N.

(** The American call and the up-and-out put, written without any option
    kind. *)
Definition american_call_on (N : nat) : nat -> nat -> R :=
  lattice (fun j => Rmax 0 (price N j - K))
    (fun i j c0 c1 => Rmax (expectation q disc c0 c1) (price i j - K))
    N.

Definition barrier_put_on (N : nat) : nat -> nat -> R :=
  lattice
    (fun j => if Rge_dec (price N j) H then 0 else Rmax 0 (K - price N j))
    (fun i j c0 c1 =>
       if Rge_dec (price i j) H then 0 else expectation q disc c0 c1)
    N.

End OnPrices.

(** Python's [x ** n] on floats raises [OverflowError] when the power
    leaves the range of a double, which real numbers cannot show.  The
    node-wise pricers compute [u ** n] and [d ** n], [n <= N], this way; a
    power below [2^1023] in magnitude is a finite double. *)
Definition powers_in_range (u d : R) (N : nat) : Prop :=
  forall n, (n <= N)%nat ->
            Rabs (u ^ n) < 2 ^ 1023 /\ Rabs (d ^ n) < 2 ^ 1023.


(** ** The timing wrapper and the benchmark loops

    [timing(f)] reads the clock, calls [f], reads the clock again and
    prints one line with the name of [f], its arguments and the elapsed
    time, then returns the result of [f].  The clock is an arbitrary
    sequence of readings; a printed line is kept as a record of the three
    values the format string receives. *)

Record line (A : Type) : Type := Line {
  line_func : string;
  line_args : A;
  line_took : R
}.
Arguments Line {A} _ _ _.
Arguments line_func {A} _.
Arguments line_args {A} _.
Arguments line_took {A} _.

Record world (A : Type) : Type := World {
  now : nat -> R;
  reads : nat;
  printed : list (line A)
}.
Arguments World {A} _ _ _.
Arguments now {A} _ _.
Arguments reads {A} _.
Arguments printed {A} _.

(** [time()] *)
Definition read_clock {A} (w : world A) : R * world A :=
  (now w (reads w), World (now w) (S (reads w)) (printed w)).

(** [print(...)] *)
Definition print_line {A} (l : line A) (w : world A) : world A :=
  World (now w) (reads w) (printed w ++ [l]).

(** [timing(f)(args)]: an exception of [f] leaves [wrap] before the second
    clock reading and the print. *)
Definition timing {A B} (name : string) (f : A -> result B) (args : A)
    (w : world A) : result B * world A :=
  let (ts, w) := read_clock w in
  match f args with
  | Raise e => (Raise e, w)
  | Ok result =>
      let (te, w) := read_clock w in
      let w := print_line (Line name args (te - ts)) w in
      (Ok result, w)
  end.

(** Positional arguments and the keyword argument [opttype] of a call. *)
Definition vanilla_args : Type := (R * R * R * R * nat * R * R) * string.
Definition barrier_args : Type := (R * R * R * R * R * nat * R * R) * string.

(** The decorated pricers, as the notebooks bind their names. *)
Definition timed_binomial_tree_slow :=
  timing "binomial_tree_slow"
    (fun a : vanilla_args =>
       let '((K, T, S0, r, N, u, d), opttype) := a in
       binomial_tree_slow K T S0 r N u d opttype).

Definition timed_binomial_tree_fast :=
  timing "binomial_tree_fast"
    (fun a : vanilla_args =>
       let '((K, T, S0, r, N, u, d), opttype) := a in
       binomial_tree_fast K T S0 r N u d opttype).

Definition timed_american_slow_tree :=
  timing "american_slow_tree"
    (fun a : vanilla_args =>
       let '((K, T, S0, r, N, u, d), opttype) := a in
       american_slow_tree K T S0 r N u d opttype).

Definition timed_american_fast_tree :=
  timing "american_fast_tree"
    (fun a : vanilla_args =>
       let '((K, T, S0, r, N, u, d), opttype) := a in
       american_fast_tree K T S0 r N u d opttype).

Definition timed_barrier_tree_slow :=
  timing "barrier_tree_slow"
    (fun a : barrier_args =>
       let '((K, T, S0, H, r, N, u, d), opttype) := a in
       barrier_tree_slow K T S0 H r N u d opttype).

Definition timed_barrier_tree_fast :=
  timing "barrier_tree_fast"
    (fun a : barrier_args =>
       let '((K, T, S0, H, r, N, u, d), opttype) := a in
       barrier_tree_fast K T S0 H r N u d opttype).

(** Two calls in sequence whose values are discarded; an exception of the
    first skips the second. *)
Definition call_both {A} (first second : world A -> result R * world A)
    (w : world A) : result unit * world A :=
  match first w with
  | (Raise e, w) => (Raise e, w)
  | (Ok _, w) =>
      match second w with
      | (Raise e, w) => (Raise e, w)
      | (Ok _, w) => (Ok tt, w)
      end
  end.

(** [for N in Ns: body(N)]; an exception leaves the loop. *)
Fixpoint sweep {A} (body : nat -> world A -> result unit * world A)
    (Ns : list nat) (w : world A) : result unit * world A :=
  match Ns with
  | [] => (Ok tt, w)
  | N :: rest =>
      match body N w with
      | (Raise e, w) => (Raise e, w)
      | (Ok _, w) => sweep body rest w
      end
  end.

(** The comparison loops of the three notebooks, over the list of step
    counts; the other parameters are the globals of the notebook. *)
Definition binomial_sweep (K T S0 r u d : R) (Ns : list nat) :=
  sweep (fun N =>
           call_both
             (timed_binomial_tree_slow ((K, T, S0, r, N, u, d), "C"%string))
             (timed_binomial_tree_fast ((K, T, S0, r, N, u, d), "C"%string)))
        Ns.

Definition american_sweep (K T S0 r u d : R) (Ns : list nat) :=
  sweep (fun N =>
           call_both
             (timed_american_fast_tree ((K, T, S0, r, N, u, d), "P"%string))
             (timed_american_slow_tree ((K, T, S0, r, N, u, d), "P"%string)))
        Ns.

Definition barrier_sweep (K T S0 H r u d : R) (Ns : list nat) :=
  sweep (fun N =>
           call_both
             (timed_barrier_tree_slow ((K, T, S0, H, r, N, u, d), "C"%string))
             (timed_barrier_tree_fast ((K, T, S0, H, r, N, u, d), "C"%string)))
        Ns.

(** The step counts the notebooks sweep over. *)
Definition notebook_steps : list nat := [3; 50; 100; 1000; 5000]%nat.

(** The lines a loop over [Ns] prints when every call returns, from the
    clock position [c]: two per step count, each timed between two
    consecutive readings. *)
Fixpoint sweep_lines {A} (name1 name2 : string) (args : nat -> A)
    (clock : nat -> R) (c : nat) (Ns : list nat) : list (line A) :=
  match Ns with
  | [] => []
  | N :: rest =>
      Line name1 (args N) (clock (c + 1)%nat - clock c)
      :: Line name2 (args N) (clock (c + 3)%nat - clock (c + 2)%nat)
      :: sweep_lines name1 name2 args clock (c + 4) rest
  end.


(** ** The pricers on bounds-checked arrays

    The six pricers once more, with the checks numpy performs: an index
    outside the array raises [IndexError], and the operands of an
    element-wise operation, the two sides of a slice store and an array
    with its boolean mask must have one shape.  [None] stands for a failed
    check; requiring equal shapes is stricter than numpy, which also
    accepts an operand of length one. *)

Definition and_then {A B} (m : option A) (k : A -> option B) : option B :=
  match m with
  | Some a => k a
  | None => None
  end.

Notation "x <~ m ;; k" := (and_then m (fun x => k))
  (at level 61, m at next level, right associativity).

Definition get_chk (a : array) (j : nat) : option R := nth_error a j.

Definition set_chk (a : array) (j : nat) (v : R) : option array :=
  if (j <? length a)%nat then Some (set a j v) else None.

Definition same_shape {A B} (a : list A) (b : list B) : bool :=
  (length a =? length b)%nat.

Definition zip_chk {A B C} (f : A -> B -> C) (a : list A) (b : list B)
  : option (list C) :=
  if same_shape a b then Some (zip_with f a b) else None.

Definition assign_prefix_chk (a : array) (n : nat) (rhs : array)
  : option array :=
  if same_shape (firstn n a) rhs then Some (assign_prefix a n rhs) else None.

Definition mask_zero_chk (a s : array) (h : R) : option array :=
  if same_shape a s then Some (mask_zero a s h) else None.

Definition for_each_chk {A} (l : list nat) (body : nat -> A -> option A)
    (s : A) : option A :=
  fold_left (fun s i => x <~ s ;; body i x) l (Some s).

Section Checked.

Variables (K S0 u d : R).
Variables (q disc : R).

Definition layer_prices_chk (i : nat) : option array :=
  zip_chk Rmult
    (scale S0 (map (pow d) (arange_decr (i + 1) 0)))
    (map (pow u) (arange_incr (i + 1))).

(** [disc * (q * C[1:n+1] + (1-q) * C[0:n])] *)
Definition shift_combine_chk (C : array) (n : nat) : option array :=
  s <~ zip_chk Rplus (scale q (slice C 1 (n + 1)))
                     (scale (1 - q) (slice C 0 n)) ;;
  Some (scale disc s).

(** [C[j] = disc * (q*C[j+1] + (1-q)*C[j])] *)
Definition hold_store_chk (C : array) (j : nat) : option array :=
  c1 <~ get_chk C (j + 1) ;;
  c0 <~ get_chk C j ;;
  set_chk C j (disc * (q * c1 + (1 - q) * c0)).

Definition binomial_slow_prices_chk (N : nat) : option array :=
  S <~ set_chk (zeros (N + 1)) 0 (S0 * d ^ N) ;;
  for_each_chk (range 1 (N + 1))
    (fun j S => p <~ get_chk S (j - 1) ;; set_chk S j (p * u / d)) S.

Definition binomial_slow_payoff_chk (N : nat) (S : array) : option array :=
  for_each_chk (range 0 (N + 1))
    (fun j C => s <~ get_chk S j ;; set_chk C j (Rmax 0 (s - K)))
    (zeros (N + 1)).

Definition binomial_slow_layer_chk (i : nat) (C : array) : option array :=
  for_each_chk (range 0 i) (fun j C => hold_store_chk C j) C.

Definition binomial_slow_price_chk (N : nat) : option R :=
  S <~ binomial_slow_prices_chk N ;;
  C <~ binomial_slow_payoff_chk N S ;;
  C <~ for_each_chk (arange_decr (N + 1) 1) binomial_slow_layer_chk C ;;
  get_chk C 0.

Definition binomial_fast_payoff_chk (N : nat) : option array :=
  C <~ layer_prices_chk N ;;
  zip_chk Rmax (subr C K) (zeros (N + 1)).

Definition binomial_fast_layer_chk (i : nat) (C : array) : option array :=
  shift_combine_chk C i.

Definition binomial_fast_price_chk (N : nat) : option R :=
  C <~ binomial_fast_payoff_chk N ;;
  C <~ for_each_chk (arange_decr (N + 1) 1) binomial_fast_layer_chk C ;;
  get_chk C 0.

Variable opttype : string.

Definition american_slow_prices_chk (N : nat) : option array :=
  for_each_chk (range 0 (N + 1))
    (fun j S => set_chk S j (S0 * u ^ j * d ^ (N - j))) (zeros (N + 1)).

Definition american_slow_payoff_chk (N : nat) (S : array) : option array :=
  for_each_chk (range 0 (N + 1))
    (fun j C =>
       s <~ get_chk S j ;;
       if (opttype =? "P")%string
       then set_chk C j (Rmax 0 (K - s))
       else set_chk C j (Rmax 0 (s - K)))
    (zeros (N + 1)).

Definition american_slow_node_chk (i j : nat) (C : array) : option array :=
  let S := S0 * u ^ j * d ^ (i - j) in
  C <~ hold_store_chk C j ;;
  c <~ get_chk C j ;;
  if (opttype =? "P")%string
  then set_chk C j (Rmax c (K - S))
  else set_chk C j (Rmax c (S - K)).

Definition american_slow_layer_chk (i : nat) (C : array) : option array :=
  for_each_chk (range 0 (i + 1)) (american_slow_node_chk i) C.

Definition american_slow_price_chk (N : nat) : option R :=
  S <~ american_slow_prices_chk N ;;
  C <~ american_slow_payoff_chk N S ;;
  C <~ for_each_chk (arange_decr N 0) american_slow_layer_chk C ;;
  get_chk C 0.

Definition american_fast_payoff_chk (N : nat) : option array :=
  S <~ layer_prices_chk N ;;
  if (opttype =? "P")%string
  then Some (maximum_sl 0 (rsub K S))
  else Some (maximum_sl 0 (subr S K)).

Definition american_fast_layer_chk (i : nat) (C : array) : option array :=
  S <~ layer_prices_chk i ;;
  rhs <~ shift_combine_chk C (i + 1) ;;
  C <~ assign_prefix_chk C (i + 1) rhs ;;
  let C := drop_last C in
  if (opttype =? "P")%string
  then zip_chk Rmax C (rsub K S)
  else zip_chk Rmax C (subr S K).

Definition american_fast_price_chk (N : nat) : option R :=
  C <~ american_fast_payoff_chk N ;;
  C <~ for_each_chk (arange_decr N 0) american_fast_layer_chk C ;;
  get_chk C 0.

Variable H : R.

Definition barrier_slow_payoff_chk (N : nat) (S : array) : option array :=
  for_each_chk (range 0 (N + 1))
    (fun j C =>
       s <~ get_chk S j ;;
       if (opttype =? "C")%string
       then set_chk C j (Rmax 0 (s - K))
       else set_chk C j (Rmax 0 (K - s)))
    (zeros (N + 1)).

Definition barrier_slow_knock_chk (N : nat) (C : array) : option array :=
  for_each_chk (range 0 (N + 1))
    (fun j C =>
       let S := S0 * u ^ j * d ^ (N - j) in
       if Rge_dec S H then set_chk C j 0 else Some C)
    C.

Definition barrier_slow_node_chk (i j : nat) (C : array) : option array :=
  let S := S0 * u ^ j * d ^ (i - j) in
  if Rge_dec S H then set_chk C j 0 else hold_store_chk C j.

Definition barrier_slow_layer_chk (i : nat) (C : array) : option array :=
  for_each_chk (range 0 (i + 1)) (barrier_slow_node_chk i) C.

Definition barrier_slow_price_chk (N : nat) : option R :=
  S <~ american_slow_prices_chk N ;;
  C <~ barrier_slow_payoff_chk N S ;;
  C <~ barrier_slow_knock_chk N C ;;
  C <~ for_each_chk (arange_decr N 0) barrier_slow_layer_chk C ;;
  get_chk C 0.

Definition barrier_fast_payoff_chk (N : nat) : option array :=
  S <~ layer_prices_chk N ;;
  let C := if (opttype =? "C")%string
           then maximum_sr (subr S K) 0
           else maximum_sr (rsub K S) 0 in
  mask_zero_chk C S H.

Definition barrier_fast_layer_chk (i : nat) (C : array) : option array :=
  S <~ layer_prices_chk i ;;
  rhs <~ shift_combine_chk C (i + 1) ;;
  C <~ assign_prefix_chk C (i + 1) rhs ;;
  let C := drop_last C in
  mask_zero_chk C S H.

Definition barrier_fast_price_chk (N : nat) : option R :=
  C <~ barrier_fast_payoff_chk N ;;
  C <~ for_each_chk (arange_decr N 0) barrier_fast_layer_chk C ;;
  get_chk C 0.

End Checked.

(** ** Four pricers on doubles

    [binomial_tree_slow], [binomial_tree_fast], [american_slow_tree] and
    [barrier_tree_slow] once more, on IEEE 754 binary64 numbers with the
    machine's [+], [-], [*], [/] and comparisons, so that two pricers can
    be compared on the numbers they return.  The library calls of the
    source are taken where their value is beyond doubt: [np.exp] at zero,
    where it is exactly [1.0], and [x ** n] for the exponents 0 and 1,
    where it is exactly [1.0] and [x].  That covers the trees of one step
    at a zero rate; outside this fragment a run is [None]. *)

Module Binary64.

Import PrimFloat.
Local Open Scope float_scope.

(** [np.exp(x)], at zero *)
Definition np_exp (x : float) : option float :=
  if x =? 0 then Some 1 else None.

(** [x ** n], for the exponents 0 and 1 *)
Definition py_pow (x : float) (n : nat) : option float :=
  match n with
  | O => Some 1
  | S O => Some x
  | _ => None
  end.

(** The integer [n] as a double: exact below [2^53]. *)
Fixpoint of_nat (n : nat) : float :=
  match n with
  | O => 0
  | S n' => of_nat n' + 1
  end.

(** [T/N] on Python numbers *)
Definition py_div (T : float) (N : nat) : result float :=
  match N with
  | O => Raise ZeroDivisionError
  | S _ => Ok (T / of_nat N)
  end.

(** Python's [max(a, b)]: [b] when [b > a], else [a]. *)
Definition py_max (a b : float) : float := if a <? b then b else a.

(** [np.maximum(a, b)] on two numbers: a [nan] operand gives [nan]. *)
Definition np_maximum (a b : float) : float :=
  if (is_nan a || is_nan b)%bool then nan
  else if a <? b then b else a.

Definition array := list float.

Definition get (a : array) (j : nat) : float := nth j a 0.

Fixpoint set (a : array) (j : nat) (v : float) : array :=
  match a, j with
  | [], _ => []
  | _ :: t, O => v :: t
  | x :: t, S j' => x :: set t j' v
  end.

Definition zeros (n : nat) : array := repeat 0 n.

Definition slice (a : array) (lo hi : nat) : array :=
  firstn (hi - lo) (skipn lo a).

(** [x ** l] for an array [l] of exponents *)
Fixpoint powers (x : float) (l : list nat) : option array :=
  match l with
  | [] => Some []
  | n :: rest =>
      p <~ py_pow x n ;;
      ps <~ powers x rest ;;
      Some (p :: ps)
  end.

Section Lattice.

Variables (K S0 u d : float).
Variables (q disc : float).

Definition hold (C : array) (j : nat) : float :=
  disc * (q * get C (j + 1) + (1 - q) * get C j).

(** [binomial_tree_slow] *)

Definition binomial_slow_prices (N : nat) : option array :=
  dN <~ py_pow d N ;;
  let S := set (zeros (N + 1)) 0 (S0 * dN) in
  Some (for_each (range 1 (N + 1))
          (fun j S => set S j (get S (j - 1) * u / d)) S).

Definition binomial_slow_payoff (N : nat) (S : array) : array :=
  for_each (range 0 (N + 1))
    (fun j C => set C j (py_max 0 (get S j - K))) (zeros (N + 1)).

Definition binomial_slow_layer (i : nat) (C : array) : array :=
  for_each (range 0 i) (fun j C => set C j (hold C j)) C.

Definition binomial_slow_loop (N : nat) : option array :=
  S <~ binomial_slow_prices N ;;
  Some (for_each (arange_decr (N + 1) 1) binomial_slow_layer
          (binomial_slow_payoff N S)).

(** [binomial_tree_fast] *)

Definition layer_prices (i : nat) : option array :=
  ds <~ powers d (arange_decr (i + 1) 0) ;;
  us <~ powers u (arange_incr (i + 1)) ;;
  Some (zip_with mul (map (mul S0) ds) us).

Definition binomial_fast_payoff (N : nat) : option array :=
  C <~ layer_prices N ;;
  Some (zip_with np_maximum (map (fun s => s - K) C) (zeros (N + 1))).

Definition binomial_fast_layer (i : nat) (C : array) : array :=
  map (mul disc)
    (zip_with add (map (mul q) (slice C 1 (i + 1)))
                  (map (mul (1 - q)) (slice C 0 i))).

Definition binomial_fast_loop (N : nat) : option array :=
  C <~ binomial_fast_payoff N ;;
  Some (for_each (arange_decr (N + 1) 1) binomial_fast_layer C).

Variable opttype : string.

(** [american_slow_tree] *)

Definition node_price (i j : nat) : option float :=
  uj <~ py_pow u j ;;
  dk <~ py_pow d (i - j) ;;
  Some (S0 * uj * dk).

Definition american_slow_prices (N : nat) : option array :=
  for_each_chk (range 0 (N + 1))
    (fun j S => s <~ node_price N j ;; Some (set S j s)) (zeros (N + 1)).

Definition american_slow_payoff (N : nat) (S : array) : array :=
  for_each (range 0 (N + 1))
    (fun j C =>
       if (opttype =? "P")%string
       then set C j (py_max 0 (K - get S j))
       else set C j (py_max 0 (get S j - K)))
    (zeros (N + 1)).

Definition american_slow_node (i j : nat) (C : array) : option array :=
  S <~ node_price i j ;;
  let C := set C j (hold C j) in
  if (opttype =? "P")%string
  then Some (set C j (py_max (get C j) (K - S)))
  else Some (set C j (py_max (get C j) (S - K))).

Definition american_slow_layer (i : nat) (C : array) : option array :=
  for_each_chk (range 0 (i + 1)) (american_slow_node i) C.

Definition american_slow_loop (N : nat) : option array :=
  S <~ american_slow_prices N ;;
  for_each_chk (arange_decr N 0) american_slow_layer
    (american_slow_payoff N S).

(** [barrier_tree_slow] *)

Variable H : float.

Definition barrier_slow_prices (N : nat) : option array :=
  for_each_chk (range 0 (N + 1))
    (fun j S => s <~ node_price N j ;; Some (set S j s)) (zeros (N + 1)).

Definition barrier_slow_payoff (N : nat) (S : array) : array :=
  for_each (range 0 (N + 1))
    (fun j C =>
       if (opttype =? "C")%string
       then set C j (py_max 0 (get S j - K))
       else set C j (py_max 0 (K - get S j)))
    (zeros (N + 1)).

Definition barrier_slow_knock (N : nat) (C : array) : option array :=
  for_each_chk (range 0 (N + 1))
    (fun j C =>
       S <~ node_price N j ;;
       if H <=? S then Some (set C j 0) else Some C)
    C.

Definition barrier_slow_node (i j : nat) (C : array) : option array :=
  S <~ node_price i j ;;
  if H <=? S then Some (set C j 0) else Some (set C j (hold C j)).

Definition barrier_slow_layer (i : nat) (C : array) : option array :=
  for_each_chk (range 0 (i + 1)) (barrier_slow_node i) C.

Definition barrier_slow_loop (N : nat) : option array :=
  S <~ barrier_slow_prices N ;;
  C <~ barrier_slow_knock N (barrier_slow_payoff N S) ;;
  for_each_chk (arange_decr N 0) barrier_slow_layer C.

End Lattice.

(** A run of a pricer: [None] outside the fragment, else what the call
    returns or raises. *)
Definition run (T r : float) (N : nat) (u d : float)
    (loop : float -> float -> option array) : option (result float) :=
  match py_div T N with
  | Raise e => Some (Raise e)
  | Ok dt =>
      e <~ np_exp (r * dt) ;;
      let q := (e - d) / (u - d) in
      disc <~ np_exp (- r * dt) ;;
      C <~ loop q disc ;;
      Some (Ok (get C 0))
  end.

Definition binomial_tree_slow (K T S0 r : float) (N : nat) (u d : float)
    (opttype : string) : option (result float) :=
  run T r N u d (fun q disc => binomial_slow_loop K S0 u d q disc N).

Definition binomial_tree_fast (K T S0 r : float) (N : nat) (u d : float)
    (opttype : string) : option (result float) :=
  run T r N u d (fun q disc => binomial_fast_loop K S0 u d q disc N).

Definition american_slow_tree (K T S0 r : float) (N : nat) (u d : float)
    (opttype : string) : option (result float) :=
  run T r N u d (fun q disc => american_slow_loop K S0 u d q disc opttype N).

Definition barrier_tree_slow (K T S0 H r : float) (N : nat) (u d : float)
    (opttype : string) : option (result float) :=
  run T r N u d
    (fun q disc => barrier_slow_loop K S0 u d q disc opttype H N).

(** Relative agreement of two prices, as a test on doubles. *)
Definition agree_within (eps a b : float) : bool :=
  abs (a - b) <=? eps * abs b.

End Binary64.

(** * Properties *)

(** ** Arrays: reads after writes, lengths *)

Lemma length_set (a : array) (j : nat) (v : R) :
  length (set a j v) = length a.
Proof.
  revert j; induction a as [|x a IH]; intros [|j]; simpl; auto.
Qed.

Lemma get_set_eq (a : array) (j : nat) (v : R) :
  (j < length a)%nat -> get (set a j v) j = v.
Proof.
  unfold get; revert j; induction a as [|x a IH]; intros [|j] Hj;
    simpl in *; try lia; auto.
  apply IH; lia.
Qed.

Lemma get_set_neq (a : array) (j k : nat) (v : R) :
  k <> j -> get (set a j v) k = get a k.
Proof.
  unfold get; revert j k; induction a as [|x a IH]; intros [|j] [|k] Hk;
    simpl; auto; try lia.
Qed.

Lemma set_set (a : array) (j : nat) (v w : R) :
  set (set a j v) j w = set a j w.
Proof.
  revert j; induction a as [|x a IH]; intros [|j]; simpl; auto.
  now rewrite IH.
Qed.

Lemma set_get (a : array) (j : nat) : set a j (get a j) = a.
Proof.
  unfold get; revert j; induction a as [|x a IH]; intros [|j]; simpl; auto.
  now rewrite IH.
Qed.

Lemma length_zeros (n : nat) : length (zeros n) = n.
Proof. apply repeat_length. Qed.

Lemma get_zeros (n k : nat) : get (zeros n) k = 0.
Proof. apply nth_repeat. Qed.

Lemma get_overflow (a : array) (k : nat) :
  (length a <= k)%nat -> get a k = 0.
Proof. intros; now apply nth_overflow. Qed.

Lemma get_map (f : R -> R) (a : array) (k : nat) :
  (k < length a)%nat -> get (map f a) k = f (get a k).
Proof.
  intros Hk; unfold get.
  rewrite (nth_indep (map f a) 0 (f 0)) by now rewrite length_map.
  apply map_nth.
Qed.

Lemma length_zip_with {A B C} (f : A -> B -> C) (a : list A) (b : list B) :
  length (zip_with f a b) = Nat.min (length a) (length b).
Proof. unfold zip_with; now rewrite length_map, length_combine. Qed.

Lemma nth_zip_with {A B C} (f : A -> B -> C) (a : list A) (b : list B)
    (k : nat) (da : A) (db : B) (dc : C) :
  (k < length a)%nat -> (k < length b)%nat ->
  nth k (zip_with f a b) dc = f (nth k a da) (nth k b db).
Proof.
  revert b k; induction a as [|x a IH]; intros [|y b] [|k] Ha Hb;
    simpl in *; try lia; auto.
  apply IH; lia.
Qed.

Lemma get_zip_with (f : R -> R -> R) (a b : array) (k : nat) :
  (k < length a)%nat -> (k < length b)%nat ->
  get (zip_with f a b) k = f (get a k) (get b k).
Proof. intros; now apply nth_zip_with. Qed.

Lemma length_slice (a : array) (lo hi : nat) :
  (hi <= length a)%nat -> length (slice a lo hi) = (hi - lo)%nat.
Proof.
  intros Hh; unfold slice.
  rewrite length_firstn, length_skipn; lia.
Qed.

Lemma get_slice (a : array) (lo hi k : nat) :
  (k < hi - lo)%nat -> get (slice a lo hi) k = get a (lo + k).
Proof.
  intros Hk; unfold get, slice.
  rewrite nth_firstn.
  destruct (Nat.ltb_spec k (hi - lo)); try lia.
  apply nth_skipn.
Qed.

Lemma drop_last_firstn (a : array) :
  drop_last a = firstn (length a - 1) a.
Proof.
  unfold drop_last; rewrite removelast_firstn_len.
  now rewrite Nat.sub_1_r.
Qed.

Lemma length_drop_last (a : array) :
  length (drop_last a) = (length a - 1)%nat.
Proof. rewrite drop_last_firstn, length_firstn; lia. Qed.

Lemma get_drop_last (a : array) (k : nat) :
  (k < length a - 1)%nat -> get (drop_last a) k = get a k.
Proof.
  intros Hk; unfold get; rewrite drop_last_firstn, nth_firstn.
  now destruct (Nat.ltb_spec k (length a - 1)); try lia.
Qed.

Lemma length_assign_prefix (a rhs : array) (n : nat) :
  length rhs = n -> (n <= length a)%nat ->
  length (assign_prefix a n rhs) = length a.
Proof.
  intros Hr Hn; unfold assign_prefix.
  rewrite length_app, length_skipn; lia.
Qed.

Lemma get_assign_prefix_lt (a rhs : array) (n k : nat) :
  (k < length rhs)%nat -> get (assign_prefix a n rhs) k = get rhs k.
Proof. intros Hk; unfold get, assign_prefix; now apply app_nth1. Qed.

(** ** Loops *)

Lemma for_each_app {A} (l1 l2 : list nat) (body : nat -> A -> A) (s : A) :
  for_each (l1 ++ l2) body s = for_each l2 body (for_each l1 body s).
Proof. apply fold_left_app. Qed.

Lemma for_each_snoc {A} (l : list nat) (i : nat) (body : nat -> A -> A)
    (s : A) :
  for_each (l ++ [i]) body s = body i (for_each l body s).
Proof. now rewrite for_each_app. Qed.

(** An ascending in-place sweep [for j in range(0, n): C[j] = f(j, C)] whose
    right-hand side reads only the cells [j] and [j+1]: every cell below [n]
    receives the value computed from the array as it was before the sweep. *)
Lemma sweep_spec (body : nat -> array -> array) (f : nat -> array -> R)
    (n : nat) (C : array) :
  (forall j C, (j < length C)%nat -> body j C = set C j (f j C)) ->
  (forall j C1 C2, get C1 j = get C2 j -> get C1 (j + 1) = get C2 (j + 1) ->
                   f j C1 = f j C2) ->
  (n <= length C)%nat ->
  length (for_each (range 0 n) body C) = length C /\
  forall k, get (for_each (range 0 n) body C) k =
            if (k <? n)%nat then f k C else get C k.
Proof.
  intros Hbody Hloc; unfold range; rewrite Nat.sub_0_r.
  induction n as [|n IH]; intros Hn.
  - simpl; split; auto.
  - destruct IH as [IHlen IHget]; [lia|].
    rewrite seq_S, for_each_snoc; simpl.
    set (C' := for_each (seq 0 n) body C) in *.
    rewrite Hbody by lia.
    split; [now rewrite length_set|].
    intros k.
    destruct (Nat.eq_dec k n) as [->|Hk].
    + rewrite get_set_eq by lia.
      destruct (Nat.ltb_spec n (S n)); try lia.
      apply Hloc; rewrite IHget.
      * now destruct (Nat.ltb_spec n n); try lia.
      * now destruct (Nat.ltb_spec (n + 1) n); try lia.
    + rewrite get_set_neq by auto.
      rewrite IHget.
      destruct (Nat.ltb_spec k n), (Nat.ltb_spec k (S n)); auto; lia.
Qed.

(** The descending index list of the outer loops, one element at a time. *)
Lemma firstn_arange_decr_S (m lo k : nat) :
  (lo + k < m)%nat ->
  firstn (S k) (arange_decr m lo) =
  firstn k (arange_decr m lo) ++ [(m - 1 - k)%nat].
Proof.
  intros Hk; unfold arange_decr.
  rewrite !firstn_rev, length_seq, !skipn_seq.
  replace (m - lo - (m - lo - S k))%nat with (S k) by lia.
  replace (m - lo - (m - lo - k))%nat with k by lia.
  replace (lo + (m - lo - S k))%nat with (m - 1 - k)%nat by lia.
  replace (lo + (m - lo - k))%nat with (S (m - 1 - k)) by lia.
  simpl; reflexivity.
Qed.

Lemma firstn_arange_decr_all (m lo : nat) :
  firstn (m - lo) (arange_decr m lo) = arange_decr m lo.
Proof.
  apply firstn_all2; unfold arange_decr.
  rewrite length_rev, length_seq; lia.
Qed.

(** ** Node prices *)

Section Prices.

Variables (S0 u d : R).

Lemma length_layer_prices (i : nat) :
  length (layer_prices S0 u d i) = (i + 1)%nat.
Proof.
  unfold layer_prices, scale, arange_decr, arange_incr.
  rewrite length_zip_with, !length_map, length_rev, !length_seq; lia.
Qed.

(** The whole-array expression yields [S0 * d^(i-j) * u^j] in cell [j]. *)
Lemma get_layer_prices (i j : nat) :
  (j <= i)%nat -> get (layer_prices S0 u d i) j = S0 * d ^ (i - j) * u ^ j.
Proof.
  intros Hj; unfold layer_prices, scale, arange_decr, arange_incr.
  rewrite Nat.sub_0_r.
  rewrite get_zip_with
    by (rewrite ?length_map, ?length_rev, length_seq; lia).
  rewrite get_map by (rewrite length_map, length_rev, length_seq; lia).
  unfold get.
  rewrite (nth_indep (map (pow d) _) 0 (d ^ 0))
    by (rewrite length_map, length_rev, length_seq; lia).
  rewrite (nth_indep (map (pow u) _) 0 (u ^ 0))
    by (rewrite length_map, length_seq; lia).
  rewrite !map_nth.
  rewrite rev_nth by (rewrite length_seq; lia).
  rewrite length_seq, !seq_nth by lia.
  replace (0 + (i + 1 - S j))%nat with (i - j)%nat by lia.
  reflexivity.
Qed.

Lemma layer_prices_node (i j : nat) :
  (j <= i)%nat -> get (layer_prices S0 u d i) j = node_price S0 u d i j.
Proof. intros Hj; rewrite get_layer_prices by auto; unfold node_price; ring. Qed.

(** The filling loop of the American and barrier node-wise pricers. *)
Lemma american_slow_prices_spec (N : nat) :
  length (american_slow_prices S0 u d N) = (N + 1)%nat /\
  forall j, (j <= N)%nat ->
            get (american_slow_prices S0 u d N) j = node_price S0 u d N j.
Proof.
  unfold american_slow_prices.
  destruct (sweep_spec
              (fun j S => set S j (S0 * u ^ j * d ^ (N - j)))
              (fun j _ => S0 * u ^ j * d ^ (N - j))
              (N + 1) (zeros (N + 1))) as [Hl Hg]; auto.
  - rewrite length_zeros; lia.
  - rewrite length_zeros in Hl; split; auto.
    intros j Hj; rewrite Hg.
    now destruct (Nat.ltb_spec j (N + 1)); try lia.
Qed.

Lemma barrier_slow_prices_eq (N : nat) :
  barrier_slow_prices S0 u d N = american_slow_prices S0 u d N.
Proof. reflexivity. Qed.

(** The European node-wise pricer fills the terminal layer by repeated
    multiplication, [S[j] = S[j-1]*u/d] from [S[0] = S0*d^N]. *)
Lemma binomial_slow_prices_iter (N n : nat) :
  (n <= N)%nat ->
  let S := for_each (seq 1 n)
             (fun j S => set S j (get S (j - 1) * u / d))
             (set (zeros (N + 1)) 0 (S0 * d ^ N)) in
  length S = (N + 1)%nat /\
  forall j, (j <= n)%nat -> get S j = S0 * d ^ N * (u / d) ^ j.
Proof.
  induction n as [|n IH]; intros Hn; cbv zeta.
  - simpl; split; [now rewrite length_set, length_zeros|].
    intros j Hj; replace j with 0%nat by lia.
    rewrite get_set_eq by (rewrite length_zeros; lia).
    simpl; ring.
  - destruct IH as [IHl IHg]; [lia|].
    cbv zeta in IHl, IHg.
    rewrite seq_S, for_each_snoc.
    set (S' := for_each (seq 1 n) _ _) in *.
    replace (1 + n)%nat with (S n) by lia.
    split; [now rewrite length_set|].
    intros j Hj.
    destruct (Nat.eq_dec j (S n)) as [->|Hne].
    + rewrite get_set_eq by lia.
      replace (S n - 1)%nat with n by lia.
      rewrite IHg by lia.
      simpl; unfold Rdiv; ring.
    + rewrite get_set_neq by auto.
      apply IHg; lia.
Qed.

Lemma pow_ratio_cancel (j : nat) :
  d <> 0 -> (u / d) ^ j * d ^ j = u ^ j.
Proof.
  intros Hd; induction j as [|j IH]; simpl; [ring|].
  rewrite <- IH; field; auto.
Qed.

Lemma binomial_slow_prices_spec (N : nat) :
  d <> 0 ->
  length (binomial_slow_prices S0 u d N) = (N + 1)%nat /\
  forall j, (j <= N)%nat ->
            get (binomial_slow_prices S0 u d N) j = node_price S0 u d N j.
Proof.
  intros Hd; unfold binomial_slow_prices, range.
  replace (N + 1 - 1)%nat with N by lia.
  destruct (binomial_slow_prices_iter N N (le_n N)) as [Hl Hg].
  split; auto.
  intros j Hj; rewrite Hg by auto; unfold node_price.
  replace N with ((N - j) + j)%nat at 1 by lia.
  rewrite pow_add, <- (pow_ratio_cancel j Hd); ring.
Qed.

End Prices.

(** ** One layer of backward induction, cell by cell *)

Section Layers.

Variables (K S0 u d q disc : R).
Variable opttype : string.
Variable H : R.

Local Abbreviation cont := (hold q disc).
Local Abbreviation price := (node_price S0 u d).

Lemma hold_local (C1 C2 : array) (j : nat) :
  get C1 j = get C2 j -> get C1 (j + 1) = get C2 (j + 1) ->
  cont C1 j = cont C2 j.
Proof. unfold hold; now intros -> ->. Qed.

Lemma american_value_local (i : nat) (C1 C2 : array) (j : nat) :
  get C1 j = get C2 j -> get C1 (j + 1) = get C2 (j + 1) ->
  american_value K S0 u d q disc opttype i C1 j = american_value K S0 u d q disc opttype i C2 j.
Proof.
  intros H0 H1; unfold american_value.
  now rewrite (hold_local C1 C2 j H0 H1).
Qed.

Lemma barrier_value_local (i : nat) (C1 C2 : array) (j : nat) :
  get C1 j = get C2 j -> get C1 (j + 1) = get C2 (j + 1) ->
  barrier_value S0 u d q disc H i C1 j = barrier_value S0 u d q disc H i C2 j.
Proof.
  intros H0 H1; unfold barrier_value.
  now rewrite (hold_local C1 C2 j H0 H1).
Qed.

(** The slice-shift-combine expression of the layer-wise pricers. *)
Lemma shift_combine_spec (C : array) (n : nat) :
  (n + 1 <= length C)%nat ->
  let C' := scale disc (vadd (scale q (slice C 1 (n + 1)))
                             (scale (1 - q) (slice C 0 n))) in
  length C' = n /\ forall k, (k < n)%nat -> get C' k = cont C k.
Proof.
  intros Hn; cbv zeta.
  assert (L1 : length (slice C 1 (n + 1)) = n)
    by (rewrite length_slice; lia).
  assert (L0 : length (slice C 0 n) = n) by (rewrite length_slice; lia).
  split.
  - unfold scale, vadd; rewrite length_map, length_zip_with, !length_map; lia.
  - intros k Hk; unfold scale at 1, vadd.
    rewrite get_map
      by (rewrite length_zip_with; unfold scale; rewrite !length_map; lia).
    rewrite get_zip_with by (unfold scale; rewrite length_map; lia).
    unfold scale; rewrite !get_map by lia.
    rewrite !get_slice by lia.
    unfold hold; simpl.
    now replace (k + 1)%nat with (S k) by lia.
Qed.

(** *** European *)

Lemma binomial_slow_layer_spec (i : nat) (C : array) :
  (i <= length C)%nat ->
  length (binomial_slow_layer q disc i C) = length C /\
  forall k, get (binomial_slow_layer q disc i C) k =
            if (k <? i)%nat then cont C k else get C k.
Proof.
  intros Hi; unfold binomial_slow_layer.
  apply (sweep_spec (fun j C => set C j (cont C j)) (fun j C => cont C j));
    auto.
  intros; now apply hold_local.
Qed.

Lemma binomial_fast_layer_spec (i : nat) (C : array) :
  (i + 1 <= length C)%nat ->
  length (binomial_fast_layer q disc i C) = i /\
  forall k, (k < i)%nat -> get (binomial_fast_layer q disc i C) k = cont C k.
Proof. apply shift_combine_spec. Qed.

(** *** American *)

Lemma american_slow_node_eq (i j : nat) (C : array) :
  (j < length C)%nat ->
  american_slow_node K S0 u d q disc opttype i j C =
  set C j (american_value K S0 u d q disc opttype i C j).
Proof.
  intros Hj; unfold american_slow_node, american_value, node_price.
  cbv zeta.
  rewrite get_set_eq by auto.
  destruct (opttype =? "P")%string; now rewrite set_set.
Qed.

Lemma american_slow_layer_spec (i : nat) (C : array) :
  (i + 1 <= length C)%nat ->
  length (american_slow_layer K S0 u d q disc opttype i C) = length C /\
  forall k, get (american_slow_layer K S0 u d q disc opttype i C) k =
            if (k <? i + 1)%nat then american_value K S0 u d q disc opttype i C k else get C k.
Proof.
  intros Hi; unfold american_slow_layer.
  apply (sweep_spec _ (fun j C => american_value K S0 u d q disc opttype i C j)); auto.
  - intros; now apply american_slow_node_eq.
  - intros; now apply american_value_local.
Qed.

Lemma american_fast_layer_spec (i : nat) (C : array) :
  length C = (i + 2)%nat ->
  length (american_fast_layer K S0 u d q disc opttype i C) = (i + 1)%nat /\
  forall k, (k < i + 1)%nat ->
            get (american_fast_layer K S0 u d q disc opttype i C) k =
            american_value K S0 u d q disc opttype i C k.
Proof.
  intros HC; unfold american_fast_layer; cbv zeta.
  replace (i + 2)%nat with (i + 1 + 1)%nat in * by lia.
  destruct (shift_combine_spec C (i + 1)) as [Ll Lg]; [lia|].
  cbv zeta in Ll, Lg.
  set (rhs := scale disc _) in *.
  assert (La : length (drop_last (assign_prefix C (i + 1) rhs)) = (i + 1)%nat).
  { rewrite length_drop_last, length_assign_prefix; lia. }
  assert (Ga : forall k, (k < i + 1)%nat ->
               get (drop_last (assign_prefix C (i + 1) rhs)) k = cont C k).
  { intros k Hk.
    rewrite get_drop_last by (rewrite length_assign_prefix; lia).
    rewrite get_assign_prefix_lt by lia.
    now apply Lg. }
  pose proof (length_layer_prices S0 u d i) as LS.
  unfold american_value.
  destruct (opttype =? "P")%string; unfold maximum, rsub, subr.
  - split; [rewrite length_zip_with, length_map; lia|].
    intros k Hk.
    rewrite get_zip_with, get_map, Ga, layer_prices_node
      by (rewrite ?length_map; lia).
    reflexivity.
  - split; [rewrite length_zip_with, length_map; lia|].
    intros k Hk.
    rewrite get_zip_with, get_map, Ga, layer_prices_node
      by (rewrite ?length_map; lia).
    reflexivity.
Qed.

(** *** Barrier *)

Lemma barrier_slow_node_eq (i j : nat) (C : array) :
  barrier_slow_node S0 u d q disc H i j C = set C j (barrier_value S0 u d q disc H i C j).
Proof.
  unfold barrier_slow_node, barrier_value, node_price; cbv zeta.
  now destruct (Rge_dec _ H).
Qed.

Lemma barrier_slow_layer_spec (i : nat) (C : array) :
  (i + 1 <= length C)%nat ->
  length (barrier_slow_layer S0 u d q disc H i C) = length C /\
  forall k, get (barrier_slow_layer S0 u d q disc H i C) k =
            if (k <? i + 1)%nat then barrier_value S0 u d q disc H i C k else get C k.
Proof.
  intros Hi; unfold barrier_slow_layer.
  apply (sweep_spec _ (fun j C => barrier_value S0 u d q disc H i C j)); auto.
  - intros; now apply barrier_slow_node_eq.
  - intros; now apply barrier_value_local.
Qed.

Lemma get_mask_zero (C S : array) (k : nat) :
  (k < length C)%nat -> (k < length S)%nat ->
  get (mask_zero C S H) k = if Rge_dec (get S k) H then 0 else get C k.
Proof. intros; unfold mask_zero; now rewrite get_zip_with. Qed.

Lemma barrier_fast_layer_spec (i : nat) (C : array) :
  length C = (i + 2)%nat ->
  length (barrier_fast_layer S0 u d q disc H i C) = (i + 1)%nat /\
  forall k, (k < i + 1)%nat ->
            get (barrier_fast_layer S0 u d q disc H i C) k =
            barrier_value S0 u d q disc H i C k.
Proof.
  intros HC; unfold barrier_fast_layer; cbv zeta.
  replace (i + 2)%nat with (i + 1 + 1)%nat in * by lia.
  destruct (shift_combine_spec C (i + 1)) as [Ll Lg]; [lia|].
  cbv zeta in Ll, Lg.
  set (rhs := scale disc _) in *.
  assert (La : length (drop_last (assign_prefix C (i + 1) rhs)) = (i + 1)%nat).
  { rewrite length_drop_last, length_assign_prefix; lia. }
  pose proof (length_layer_prices S0 u d i) as LS.
  split; [unfold mask_zero; rewrite length_zip_with; lia|].
  intros k Hk.
  rewrite get_mask_zero, layer_prices_node by lia.
  unfold barrier_value.
  destruct (Rge_dec _ H); auto.
  rewrite get_drop_last by (rewrite length_assign_prefix; lia).
  rewrite get_assign_prefix_lt by lia.
  now apply Lg.
Qed.

End Layers.

(** ** Loops that compute a reference lattice *)

Section Reference.

Variable term : nat -> R.
Variable node : nat -> nat -> R -> R -> R.
Variable N : nat.

(** A loop over [arange_decr m lo] (with [m - lo = N] iterations) whose
    body computes the node rule on the live cells, on arrays of length
    [len k] before iteration [k], computes the reference lattice. *)
Lemma run_refines (layer : nat -> array -> array) (m lo : nat)
    (len : nat -> nat) (init : array) :
  (m - lo)%nat = N ->
  (forall k, (k <= N)%nat -> (N - k + 1 <= len k)%nat) ->
  length init = len 0%nat ->
  (forall j, (j <= N)%nat -> get init j = term j) ->
  (forall k C, (k < N)%nat -> length C = len k ->
     length (layer (m - 1 - k)%nat C) = len (S k) /\
     forall j, (j <= N - 1 - k)%nat ->
       get (layer (m - 1 - k)%nat C) j =
       node (N - 1 - k) j (get C j) (get C (j + 1))) ->
  forall k, (k <= N)%nat ->
    length (for_each (firstn k (arange_decr m lo)) layer init) = len k /\
    forall j, (j <= N - k)%nat ->
      get (for_each (firstn k (arange_decr m lo)) layer init) j = lattice term node N k j.
Proof.
  intros Hm Hlen Hinit Hterm Hstep.
  induction k as [|k IH]; intros Hk.
  - simpl; split; auto.
    intros j Hj; apply Hterm; lia.
  - destruct IH as [IHl IHg]; [lia|].
    rewrite firstn_arange_decr_S, for_each_snoc by lia.
    destruct (Hstep k _ Hk IHl) as [Sl Sg].
    split; auto.
    intros j Hj; rewrite Sg by lia.
    simpl; now rewrite !IHg by lia.
Qed.

End Reference.

Section Lattices.

Variables (K S0 u d q disc : R).
Variable opttype : string.
Variable H : R.

Local Abbreviation price := (node_price S0 u d).

(** *** Terminal layers *)

Lemma american_slow_payoff_spec (N : nat) (S : array) :
  length (american_slow_payoff K opttype N S) = (N + 1)%nat /\
  forall j, (j <= N)%nat ->
    get (american_slow_payoff K opttype N S) j =
    if (opttype =? "P")%string
    then put_payoff K (get S j) else call_payoff K (get S j).
Proof.
  unfold american_slow_payoff.
  destruct (sweep_spec
    (fun j C => if (opttype =? "P")%string
                then set C j (Rmax 0 (K - get S j))
                else set C j (Rmax 0 (get S j - K)))
    (fun j _ => if (opttype =? "P")%string
                then put_payoff K (get S j) else call_payoff K (get S j))
    (N + 1) (zeros (N + 1))) as [Hl Hg]; auto.
  - intros; now destruct (opttype =? "P")%string.
  - rewrite length_zeros; lia.
  - rewrite length_zeros in Hl; split; auto.
    intros j Hj; rewrite Hg.
    now destruct (Nat.ltb_spec j (N + 1)); try lia.
Qed.

Lemma american_slow_init (N : nat) :
  length (american_slow_payoff K opttype N (american_slow_prices S0 u d N))
  = (N + 1)%nat /\
  forall j, (j <= N)%nat ->
    get (american_slow_payoff K opttype N (american_slow_prices S0 u d N)) j
    = american_term K S0 u d opttype N j.
Proof.
  destruct (american_slow_payoff_spec N (american_slow_prices S0 u d N))
    as [Hl Hg].
  split; auto.
  intros j Hj; rewrite Hg by auto; unfold american_term.
  now rewrite (proj2 (american_slow_prices_spec S0 u d N)) by auto.
Qed.

Lemma american_fast_init (N : nat) :
  length (american_fast_payoff K S0 u d opttype N) = (N + 1)%nat /\
  forall j, (j <= N)%nat ->
    get (american_fast_payoff K S0 u d opttype N) j = american_term K S0 u d opttype N j.
Proof.
  pose proof (length_layer_prices S0 u d N) as LS.
  unfold american_fast_payoff, american_term; cbv zeta.
  destruct (opttype =? "P")%string;
    unfold maximum_sl, rsub, subr; (split; [now rewrite !length_map|]);
    intros j Hj;
    rewrite !get_map, layer_prices_node by (rewrite ?length_map; lia);
    reflexivity.
Qed.

Lemma barrier_slow_init (N : nat) :
  let C := barrier_slow_knock S0 u d H N
             (barrier_slow_payoff K opttype N (barrier_slow_prices S0 u d N))
  in
  length C = (N + 1)%nat /\
  forall j, (j <= N)%nat -> get C j = barrier_term K S0 u d opttype H N j.
Proof.
  cbv zeta.
  set (S := barrier_slow_prices S0 u d N).
  assert (HP : length (barrier_slow_payoff K opttype N S) = (N + 1)%nat /\
               forall j, (j <= N)%nat ->
                 get (barrier_slow_payoff K opttype N S) j =
                 if (opttype =? "C")%string
                 then call_payoff K (get S j) else put_payoff K (get S j)).
  { unfold barrier_slow_payoff.
    destruct (sweep_spec
      (fun j C => if (opttype =? "C")%string
                  then set C j (Rmax 0 (get S j - K))
                  else set C j (Rmax 0 (K - get S j)))
      (fun j _ => if (opttype =? "C")%string
                  then call_payoff K (get S j) else put_payoff K (get S j))
      (N + 1) (zeros (N + 1))) as [Hl Hg]; auto.
    - intros; now destruct (opttype =? "C")%string.
    - rewrite length_zeros; lia.
    - rewrite length_zeros in Hl; split; auto.
      intros j Hj; rewrite Hg.
      now destruct (Nat.ltb_spec j (N + 1)); try lia. }
  destruct HP as [Pl Pg].
  set (C0 := barrier_slow_payoff K opttype N S) in *.
  unfold barrier_slow_knock.
  destruct (sweep_spec
    (fun j C => let S := S0 * u ^ j * d ^ (N - j) in
                if Rge_dec S H then set C j 0 else C)
    (fun j C => if Rge_dec (price N j) H then 0 else get C j)
    (N + 1) C0) as [Hl Hg]; auto.
  - intros j C _; cbv zeta; unfold node_price.
    destruct (Rge_dec _ H); auto. now rewrite set_get.
  - intros j C1 C2 E _; now rewrite E.
  - lia.
  - split; [etransitivity; [exact Hl | exact Pl]|].
    intros j Hj; rewrite Hg.
    destruct (Nat.ltb_spec j (N + 1)); try lia.
    unfold barrier_term; destruct (Rge_dec _ H); auto.
    rewrite Pg by auto; unfold S.
    rewrite barrier_slow_prices_eq.
    now rewrite (proj2 (american_slow_prices_spec S0 u d N)) by auto.
Qed.

Lemma barrier_fast_init (N : nat) :
  length (barrier_fast_payoff K S0 u d opttype H N) = (N + 1)%nat /\
  forall j, (j <= N)%nat ->
    get (barrier_fast_payoff K S0 u d opttype H N) j = barrier_term K S0 u d opttype H N j.
Proof.
  pose proof (length_layer_prices S0 u d N) as LS.
  unfold barrier_fast_payoff, barrier_term; cbv zeta.
  destruct (opttype =? "C")%string.
  all: split;
    [unfold mask_zero, maximum_sr, subr, rsub;
     rewrite length_zip_with, !length_map; lia|].
  all: intros j Hj;
    rewrite get_mask_zero, layer_prices_node
      by (unfold maximum_sr, subr, rsub; rewrite ?length_map; lia).
  all: destruct (Rge_dec _ H); auto.
  all: unfold maximum_sr, subr, rsub, call_payoff, put_payoff;
    rewrite !get_map, layer_prices_node by (rewrite ?length_map; lia);
    apply Rmax_comm.
Qed.

Lemma binomial_slow_init (N : nat) :
  d <> 0 ->
  length (binomial_slow_payoff K N (binomial_slow_prices S0 u d N))
  = (N + 1)%nat /\
  forall j, (j <= N)%nat ->
    get (binomial_slow_payoff K N (binomial_slow_prices S0 u d N)) j
    = binomial_term K S0 u d N j.
Proof.
  intros Hd.
  set (S := binomial_slow_prices S0 u d N).
  unfold binomial_slow_payoff.
  destruct (sweep_spec
    (fun j C => set C j (Rmax 0 (get S j - K)))
    (fun j _ => call_payoff K (get S j))
    (N + 1) (zeros (N + 1))) as [Hl Hg]; auto.
  - rewrite length_zeros; lia.
  - rewrite length_zeros in Hl; split; auto.
    intros j Hj; rewrite Hg.
    destruct (Nat.ltb_spec j (N + 1)); try lia.
    unfold binomial_term, S.
    now rewrite (proj2 (binomial_slow_prices_spec S0 u d N Hd)) by auto.
Qed.

Lemma binomial_fast_init (N : nat) :
  length (binomial_fast_payoff K S0 u d N) = (N + 1)%nat /\
  forall j, (j <= N)%nat ->
    get (binomial_fast_payoff K S0 u d N) j = binomial_term K S0 u d N j.
Proof.
  pose proof (length_layer_prices S0 u d N) as LS.
  unfold binomial_fast_payoff, binomial_term, maximum, subr; cbv zeta.
  split; [rewrite length_zip_with, length_map, length_zeros; lia|].
  intros j Hj.
  rewrite get_zip_with, get_map, get_zeros, layer_prices_node
    by (rewrite ?length_map, ?length_zeros; lia).
  apply Rmax_comm.
Qed.

End Lattices.

(** ** The loops compute the reference lattice *)

Section Runs.

Variables (K S0 u d q disc : R).
Variable opttype : string.
Variable H : R.

Lemma binomial_slow_run_spec (N k : nat) :
  d <> 0 -> (k <= N)%nat ->
  length (binomial_slow_run K S0 u d q disc N k) = (N + 1)%nat /\
  forall j, (j <= N - k)%nat ->
    get (binomial_slow_run K S0 u d q disc N k) j =
    binomial_lattice K S0 u d q disc N k j.
Proof.
  intros Hd; unfold binomial_slow_run, binomial_lattice.
  destruct (binomial_slow_init K S0 u d N Hd) as [Il Ig].
  apply (run_refines _ _ N _ (N + 1) 1 (fun _ => (N + 1)%nat)); auto; try lia.
  intros k' C Hk HC.
  replace (N + 1 - 1 - k')%nat with (N - k')%nat by lia.
  destruct (binomial_slow_layer_spec q disc (N - k') C) as [Sl Sg]; [lia|].
  split; [lia|].
  intros j Hj; rewrite Sg.
  now destruct (Nat.ltb_spec j (N - k')); try lia.
Qed.

Lemma binomial_fast_run_spec (N k : nat) :
  (k <= N)%nat ->
  length (binomial_fast_run K S0 u d q disc N k) = (N + 1 - k)%nat /\
  forall j, (j <= N - k)%nat ->
    get (binomial_fast_run K S0 u d q disc N k) j =
    binomial_lattice K S0 u d q disc N k j.
Proof.
  unfold binomial_fast_run, binomial_lattice.
  destruct (binomial_fast_init K S0 u d N) as [Il Ig].
  apply (run_refines _ _ N _ (N + 1) 1 (fun k => (N + 1 - k)%nat));
    auto; try lia.
  intros k' C Hk HC.
  replace (N + 1 - 1 - k')%nat with (N - k')%nat by lia.
  destruct (binomial_fast_layer_spec q disc (N - k') C) as [Sl Sg]; [lia|].
  split; [lia|].
  intros j Hj; now rewrite Sg by lia.
Qed.

Lemma american_slow_run_spec (N k : nat) :
  (k <= N)%nat ->
  length (american_slow_run K S0 u d q disc opttype N k) = (N + 1)%nat /\
  forall j, (j <= N - k)%nat ->
    get (american_slow_run K S0 u d q disc opttype N k) j =
    american_lattice K S0 u d q disc opttype N k j.
Proof.
  unfold american_slow_run, american_lattice.
  destruct (american_slow_init K S0 u d opttype N) as [Il Ig].
  apply (run_refines _ _ N _ N 0 (fun _ => (N + 1)%nat)); auto; try lia.
  intros k' C Hk HC.
  destruct (american_slow_layer_spec K S0 u d q disc opttype (N - 1 - k') C)
    as [Sl Sg]; [lia|].
  split; [lia|].
  intros j Hj; rewrite Sg.
  now destruct (Nat.ltb_spec j (N - 1 - k' + 1)); try lia.
Qed.

Lemma american_fast_run_spec (N k : nat) :
  (k <= N)%nat ->
  length (american_fast_run K S0 u d q disc opttype N k) = (N + 1 - k)%nat /\
  forall j, (j <= N - k)%nat ->
    get (american_fast_run K S0 u d q disc opttype N k) j =
    american_lattice K S0 u d q disc opttype N k j.
Proof.
  unfold american_fast_run, american_lattice.
  destruct (american_fast_init K S0 u d opttype N) as [Il Ig].
  apply (run_refines _ _ N _ N 0 (fun k => (N + 1 - k)%nat)); auto; try lia.
  intros k' C Hk HC.
  destruct (american_fast_layer_spec K S0 u d q disc opttype (N - 1 - k') C)
    as [Sl Sg]; [lia|].
  split; [lia|].
  intros j Hj; now rewrite Sg by lia.
Qed.

Lemma barrier_slow_run_spec (N k : nat) :
  (k <= N)%nat ->
  length (barrier_slow_run K S0 u d q disc opttype H N k) = (N + 1)%nat /\
  forall j, (j <= N - k)%nat ->
    get (barrier_slow_run K S0 u d q disc opttype H N k) j =
    barrier_lattice K S0 u d q disc opttype H N k j.
Proof.
  unfold barrier_slow_run, barrier_lattice.
  destruct (barrier_slow_init K S0 u d opttype H N) as [Il Ig].
  apply (run_refines _ _ N _ N 0 (fun _ => (N + 1)%nat)); auto; try lia.
  intros k' C Hk HC.
  destruct (barrier_slow_layer_spec S0 u d q disc H (N - 1 - k') C)
    as [Sl Sg]; [lia|].
  split; [lia|].
  intros j Hj; rewrite Sg.
  now destruct (Nat.ltb_spec j (N - 1 - k' + 1)); try lia.
Qed.

Lemma barrier_fast_run_spec (N k : nat) :
  (k <= N)%nat ->
  length (barrier_fast_run K S0 u d q disc opttype H N k) = (N + 1 - k)%nat /\
  forall j, (j <= N - k)%nat ->
    get (barrier_fast_run K S0 u d q disc opttype H N k) j =
    barrier_lattice K S0 u d q disc opttype H N k j.
Proof.
  unfold barrier_fast_run, barrier_lattice.
  destruct (barrier_fast_init K S0 u d opttype H N) as [Il Ig].
  apply (run_refines _ _ N _ N 0 (fun k => (N + 1 - k)%nat)); auto; try lia.
  intros k' C Hk HC.
  destruct (barrier_fast_layer_spec S0 u d q disc H (N - 1 - k') C)
    as [Sl Sg]; [lia|].
  split; [lia|].
  intros j Hj; now rewrite Sg by lia.
Qed.

(** The whole loop is the run of all [N] iterations. *)

Lemma binomial_slow_loop_run (N : nat) :
  binomial_slow_loop K S0 u d q disc N = binomial_slow_run K S0 u d q disc N N.
Proof.
  unfold binomial_slow_loop, binomial_slow_run.
  rewrite <- (firstn_arange_decr_all (N + 1) 1) at 1.
  now replace (N + 1 - 1)%nat with N by lia.
Qed.

Lemma binomial_fast_loop_run (N : nat) :
  binomial_fast_loop K S0 u d q disc N = binomial_fast_run K S0 u d q disc N N.
Proof.
  unfold binomial_fast_loop, binomial_fast_run.
  rewrite <- (firstn_arange_decr_all (N + 1) 1) at 1.
  now replace (N + 1 - 1)%nat with N by lia.
Qed.

Lemma american_slow_loop_run (N : nat) :
  american_slow_loop K S0 u d q disc opttype N =
  american_slow_run K S0 u d q disc opttype N N.
Proof.
  unfold american_slow_loop, american_slow_run.
  rewrite <- (firstn_arange_decr_all N 0) at 1.
  now rewrite Nat.sub_0_r.
Qed.

Lemma american_fast_loop_run (N : nat) :
  american_fast_loop K S0 u d q disc opttype N =
  american_fast_run K S0 u d q disc opttype N N.
Proof.
  unfold american_fast_loop, american_fast_run.
  rewrite <- (firstn_arange_decr_all N 0) at 1.
  now rewrite Nat.sub_0_r.
Qed.

Lemma barrier_slow_loop_run (N : nat) :
  barrier_slow_loop K S0 u d q disc opttype H N =
  barrier_slow_run K S0 u d q disc opttype H N N.
Proof.
  unfold barrier_slow_loop, barrier_slow_run.
  rewrite <- (firstn_arange_decr_all N 0) at 1.
  now rewrite Nat.sub_0_r.
Qed.

Lemma barrier_fast_loop_run (N : nat) :
  barrier_fast_loop K S0 u d q disc opttype H N =
  barrier_fast_run K S0 u d q disc opttype H N N.
Proof.
  unfold barrier_fast_loop, barrier_fast_run.
  rewrite <- (firstn_arange_decr_all N 0) at 1.
  now rewrite Nat.sub_0_r.
Qed.

End Runs.

(** ** Root prices *)

Lemma py_div_pos (T : R) (N : nat) :
  (1 <= N)%nat -> py_div T N = Ok (T / INR N).
Proof. destruct N; [lia|reflexivity]. Qed.

Lemma binomial_tree_slow_lattice K T S0 r N u d opttype :
  (1 <= N)%nat -> d <> 0 ->
  binomial_tree_slow K T S0 r N u d opttype =
  Ok (binomial_lattice K S0 u d (risk_neutral r (T / INR N) u d)
        (discount r (T / INR N)) N N 0).
Proof.
  intros HN Hd; unfold binomial_tree_slow.
  rewrite py_div_pos by auto; simpl.
  rewrite binomial_slow_loop_run.
  now rewrite (proj2 (binomial_slow_run_spec _ _ _ _ _ _ N N Hd (le_n N))) by lia.
Qed.

Lemma binomial_tree_fast_lattice K T S0 r N u d opttype :
  (1 <= N)%nat ->
  binomial_tree_fast K T S0 r N u d opttype =
  Ok (binomial_lattice K S0 u d (risk_neutral r (T / INR N) u d)
        (discount r (T / INR N)) N N 0).
Proof.
  intros HN; unfold binomial_tree_fast.
  rewrite py_div_pos by auto; simpl.
  rewrite binomial_fast_loop_run.
  now rewrite (proj2 (binomial_fast_run_spec _ _ _ _ _ _ N N (le_n N))) by lia.
Qed.

Lemma american_slow_tree_lattice K T S0 r N u d opttype :
  (1 <= N)%nat ->
  american_slow_tree K T S0 r N u d opttype =
  Ok (american_lattice K S0 u d (risk_neutral r (T / INR N) u d)
        (discount r (T / INR N)) opttype N N 0).
Proof.
  intros HN; unfold american_slow_tree.
  rewrite py_div_pos by auto; simpl.
  rewrite american_slow_loop_run.
  now rewrite (proj2 (american_slow_run_spec _ _ _ _ _ _ _ N N (le_n N))) by lia.
Qed.

Lemma american_fast_tree_lattice K T S0 r N u d opttype :
  (1 <= N)%nat ->
  american_fast_tree K T S0 r N u d opttype =
  Ok (american_lattice K S0 u d (risk_neutral r (T / INR N) u d)
        (discount r (T / INR N)) opttype N N 0).
Proof.
  intros HN; unfold american_fast_tree.
  rewrite py_div_pos by auto; simpl.
  rewrite american_fast_loop_run.
  now rewrite (proj2 (american_fast_run_spec _ _ _ _ _ _ _ N N (le_n N))) by lia.
Qed.

Lemma barrier_tree_slow_lattice K T S0 H r N u d opttype :
  (1 <= N)%nat ->
  barrier_tree_slow K T S0 H r N u d opttype =
  Ok (barrier_lattice K S0 u d (risk_neutral r (T / INR N) u d)
        (discount r (T / INR N)) opttype H N N 0).
Proof.
  intros HN; unfold barrier_tree_slow.
  rewrite py_div_pos by auto; simpl.
  rewrite barrier_slow_loop_run.
  now rewrite (proj2 (barrier_slow_run_spec _ _ _ _ _ _ _ _ N N (le_n N))) by lia.
Qed.

Lemma barrier_tree_fast_lattice K T S0 H r N u d opttype :
  (1 <= N)%nat ->
  barrier_tree_fast K T S0 H r N u d opttype =
  Ok (barrier_lattice K S0 u d (risk_neutral r (T / INR N) u d)
        (discount r (T / INR N)) opttype H N N 0).
Proof.
  intros HN; unfold barrier_tree_fast.
  rewrite py_div_pos by auto; simpl.
  rewrite barrier_fast_loop_run.
  now rewrite (proj2 (barrier_fast_run_spec _ _ _ _ _ _ _ _ N N (le_n N))) by lia.
Qed.

(** ** Powers within the range of a double *)

(** Factors bounded by [x >= 1] with [x^m <= 2] keep every power up to
    [m * 1022] below [2^1023]. *)
Lemma powers_in_range_intro (u d x : R) (m N : nat) :
  Rabs u <= x -> Rabs d <= x -> 1 <= x -> x ^ m <= 2 ->
  (N <= m * 1022)%nat ->
  powers_in_range u d N.
Proof.
  intros Hu Hd Hx Hm HN n Hn.
  assert (B : x ^ n < 2 ^ 1023).
  { apply Rle_lt_trans with (x ^ (m * 1022)).
    - apply Rle_pow; auto; lia.
    - rewrite pow_mult.
      apply Rle_lt_trans with (2 ^ 1022).
      + apply pow_incr; split; auto.
        apply pow_le; lra.
      + apply Rlt_pow; [lra|lia]. }
  split; rewrite <- RPow_abs.
  - eapply Rle_lt_trans; [|exact B].
    apply pow_incr; split; [apply Rabs_pos|exact Hu].
  - eapply Rle_lt_trans; [|exact B].
    apply pow_incr; split; [apply Rabs_pos|exact Hd].
Qed.

(** The factors [u = 2], [d = 1/2] of the examples, and the factors
    [u = 1.1], [d = 1/u] of the notebooks up to their 5000 steps. *)
Lemma powers_in_range_example (N : nat) :
  (N <= 1022)%nat -> powers_in_range 2 (1 / 2) N.
Proof.
  intros HN; apply (powers_in_range_intro 2 (1 / 2) 2 1 N); try lra; try lia.
  - rewrite Rabs_pos_eq; lra.
  - rewrite Rabs_pos_eq; lra.
Qed.

Lemma powers_in_range_notebook (N : nat) :
  (N <= 5000)%nat -> powers_in_range (11 / 10) (10 / 11) N.
Proof.
  intros HN; apply (powers_in_range_intro (11 / 10) (10 / 11) (11 / 10) 5 N);
    try lra; try lia.
  - rewrite Rabs_pos_eq; lra.
  - rewrite Rabs_pos_eq; lra.
Qed.

(** ** Calibration constants at a zero rate *)

Lemma risk_neutral_r0 (dt u d : R) :
  risk_neutral 0 dt u d = (1 - d) / (u - d).
Proof. unfold risk_neutral; now rewrite Rmult_0_l, exp_0. Qed.

Lemma discount_r0 (dt : R) : discount 0 dt = 1.
Proof. unfold discount; now rewrite Ropp_0, Rmult_0_l, exp_0. Qed.

Lemma discount_pos (r dt : R) : 0 < discount r dt.
Proof. apply exp_pos. Qed.

(** Evaluation of a closed real expression built from [Rmax] and the
    barrier test. *)
Ltac no_test t :=
  lazymatch t with
  | context [Rle_dec] => fail
  | context [Rge_dec] => fail
  | _ => idtac
  end.

Ltac eval_real :=
  unfold Rmax;
  repeat (match goal with
          | |- context [Rle_dec ?a ?b] =>
              no_test a; no_test b; destruct (Rle_dec a b)
          | |- context [Rge_dec ?a ?b] =>
              no_test a; no_test b; destruct (Rge_dec a b)
          end;
          try (exfalso; lra); cbn [nth set]);
  try lra; try (f_equal; lra).

(** ** Zero steps *)

(** At [N = 0] the claimed result would be the terminal payoff at the spot;
    the pricer stops at [dt = T/N]. *)
Lemma zero_steps_counterexample :
  binomial_tree_slow 100 1 110 0 0 2 (1 / 2) "C" <> Ok (Rmax (110 - 100) 0) /\
  binomial_tree_fast 100 1 110 0 0 2 (1 / 2) "C" <> Ok (Rmax (110 - 100) 0).
Proof. split; discriminate. Qed.

(** C6, amended.  With [N = 0] every pricer raises [ZeroDivisionError]
    while computing [dt = T/N]: no terminal payoff is evaluated, no
    backward induction occurs and no price is returned. *)
Theorem zero_steps_raise (K T S0 H r u d : R) (opttype : string) :
  binomial_tree_slow K T S0 r 0 u d opttype = Raise ZeroDivisionError /\
  binomial_tree_fast K T S0 r 0 u d opttype = Raise ZeroDivisionError /\
  american_slow_tree K T S0 r 0 u d opttype = Raise ZeroDivisionError /\
  american_fast_tree K T S0 r 0 u d opttype = Raise ZeroDivisionError /\
  barrier_tree_slow K T S0 H r 0 u d opttype = Raise ZeroDivisionError /\
  barrier_tree_fast K T S0 H r 0 u d opttype = Raise ZeroDivisionError.
Proof. repeat split. Qed.

(** ** Sign and order of lattice values *)

Lemma lattice_rel (P : R -> R -> Prop)
    (term1 term2 : nat -> R) (node1 node2 : nat -> nat -> R -> R -> R)
    (N : nat) :
  (forall j, P (term1 j) (term2 j)) ->
  (forall i j a b a' b', P a a' -> P b b' ->
                         P (node1 i j a b) (node2 i j a' b')) ->
  forall k j, P (lattice term1 node1 N k j) (lattice term2 node2 N k j).
Proof.
  intros Ht Hn; induction k as [|k IH]; intros j; simpl; auto.
Qed.

Lemma lattice_rel_bounded (P : R -> R -> Prop)
    (term1 term2 : nat -> R) (node1 node2 : nat -> nat -> R -> R -> R)
    (N : nat) :
  (forall j, (j <= N)%nat -> P (term1 j) (term2 j)) ->
  (forall i j a b a' b', (j <= i)%nat -> (i < N)%nat -> P a a' -> P b b' ->
                         P (node1 i j a b) (node2 i j a' b')) ->
  forall k j, (k <= N)%nat -> (j <= N - k)%nat ->
    P (lattice term1 node1 N k j) (lattice term2 node2 N k j).
Proof.
  intros Ht Hn; induction k as [|k IH]; intros j Hk Hj; simpl.
  - apply Ht; lia.
  - apply Hn; try lia; apply IH; lia.
Qed.

Section Order.

Variables (K S0 u d q disc : R).
Variable opttype : string.
Variable H : R.
Hypothesis Hq0 : 0 <= q.
Hypothesis Hq1 : q <= 1.
Hypothesis Hdisc : 0 <= disc.

Lemma expectation_nonneg (c0 c1 : R) :
  0 <= c0 -> 0 <= c1 -> 0 <= expectation q disc c0 c1.
Proof.
  intros H0 H1; unfold expectation.
  apply Rmult_le_pos; auto.
  apply Rplus_le_le_0_compat; apply Rmult_le_pos; auto; lra.
Qed.

Lemma expectation_mono (c0 c1 c0' c1' : R) :
  c0 <= c0' -> c1 <= c1' ->
  expectation q disc c0 c1 <= expectation q disc c0' c1'.
Proof.
  intros H0 H1; unfold expectation.
  apply Rmult_le_compat_l; auto.
  apply Rplus_le_compat; apply Rmult_le_compat_l; auto; lra.
Qed.

Lemma call_payoff_nonneg (S : R) : 0 <= call_payoff K S.
Proof. apply Rmax_l. Qed.

Lemma put_payoff_nonneg (S : R) : 0 <= put_payoff K S.
Proof. apply Rmax_l. Qed.

Lemma american_term_nonneg (N j : nat) : 0 <= american_term K S0 u d opttype N j.
Proof.
  unfold american_term; destruct (opttype =? "P")%string;
    auto using call_payoff_nonneg, put_payoff_nonneg.
Qed.

Lemma american_node_nonneg (i j : nat) (c0 c1 : R) :
  0 <= c0 -> 0 <= c1 ->
  0 <= american_node K S0 u d q disc opttype i j c0 c1.
Proof.
  intros H0 H1; unfold american_node.
  destruct (opttype =? "P")%string;
    (eapply Rle_trans; [apply (expectation_nonneg c0 c1 H0 H1)|apply Rmax_l]).
Qed.

Lemma barrier_term_nonneg (N j : nat) :
  0 <= barrier_term K S0 u d opttype H N j.
Proof.
  unfold barrier_term; destruct (Rge_dec _ H); [lra|].
  destruct (opttype =? "C")%string;
    auto using call_payoff_nonneg, put_payoff_nonneg.
Qed.

Lemma barrier_node_nonneg (i j : nat) (c0 c1 : R) :
  0 <= c0 -> 0 <= c1 -> 0 <= barrier_node S0 u d q disc H i j c0 c1.
Proof.
  intros H0 H1; unfold barrier_node; destruct (Rge_dec _ H); [lra|].
  now apply expectation_nonneg.
Qed.

(** Any lattice with non-negative terminal values under the plain
    discounted expectation stays non-negative. *)
Lemma expectation_lattice_nonneg (term : nat -> R) (N k j : nat) :
  (forall j, 0 <= term j) ->
  0 <= lattice term (binomial_node q disc) N k j.
Proof.
  intros Ht.
  apply (lattice_rel (fun a _ => 0 <= a) term term
           (binomial_node q disc) (binomial_node q disc) N); auto.
  intros; now apply expectation_nonneg.
Qed.

Lemma binomial_lattice_nonneg (N k j : nat) :
  0 <= binomial_lattice K S0 u d q disc N k j.
Proof.
  unfold binomial_lattice.
  apply (lattice_rel (fun a _ => 0 <= a) _ (binomial_term K S0 u d N) _
           (binomial_node q disc) N).
  - intros; apply call_payoff_nonneg.
  - intros; now apply expectation_nonneg.
Qed.

Lemma american_lattice_nonneg (N k j : nat) :
  0 <= american_lattice K S0 u d q disc opttype N k j.
Proof.
  unfold american_lattice.
  apply (lattice_rel (fun a _ => 0 <= a) _ (american_term K S0 u d opttype N)
           _ (american_node K S0 u d q disc opttype) N).
  - intros; apply american_term_nonneg.
  - intros; now apply american_node_nonneg.
Qed.

Lemma barrier_lattice_nonneg (N k j : nat) :
  0 <= barrier_lattice K S0 u d q disc opttype H N k j.
Proof.
  unfold barrier_lattice.
  apply (lattice_rel (fun a _ => 0 <= a) _ (barrier_term K S0 u d opttype H N)
           _ (barrier_node S0 u d q disc H) N).
  - intros; apply barrier_term_nonneg.
  - intros; now apply barrier_node_nonneg.
Qed.

(** Early exercise can only add value to the call. *)
Lemma american_call_ge_binomial (N k j : nat) :
  (opttype =? "P")%string = false ->
  binomial_lattice K S0 u d q disc N k j <=
  american_lattice K S0 u d q disc opttype N k j.
Proof.
  intros Hc; unfold binomial_lattice, american_lattice.
  apply (lattice_rel Rle).
  - intros j'; unfold binomial_term, american_term; rewrite Hc; lra.
  - intros i j' a b a' b' Ha Hb; unfold binomial_node, american_node.
    rewrite Hc.
    eapply Rle_trans; [apply (expectation_mono a b a' b' Ha Hb)|apply Rmax_l].
Qed.

(** Knock-out can only remove value from the call. *)
Lemma barrier_call_le_binomial (N k j : nat) :
  (opttype =? "C")%string = true ->
  barrier_lattice K S0 u d q disc opttype H N k j <=
  binomial_lattice K S0 u d q disc N k j.
Proof.
  intros Hc; unfold binomial_lattice, barrier_lattice.
  apply (lattice_rel (fun a b => 0 <= a <= b)).
  - intros j'; unfold binomial_term, barrier_term; rewrite Hc.
    pose proof (call_payoff_nonneg (node_price S0 u d N j')).
    destruct (Rge_dec _ H); lra.
  - intros i j' a b a' b' Ha Hb; unfold binomial_node, barrier_node.
    pose proof (expectation_mono a b a' b' (proj2 Ha) (proj2 Hb)).
    pose proof (expectation_nonneg a b (proj1 Ha) (proj1 Hb)).
    destruct (Rge_dec _ H); lra.
Qed.

End Order.

(** ** One iteration of each outer loop *)

Section Steps.

Variables (K S0 u d q disc : R).
Variable opttype : string.
Variable H : R.

Lemma binomial_slow_run_S (N k : nat) :
  (k < N)%nat ->
  binomial_slow_run K S0 u d q disc N (S k) =
  binomial_slow_layer q disc (N - k) (binomial_slow_run K S0 u d q disc N k).
Proof.
  intros Hk; unfold binomial_slow_run.
  rewrite firstn_arange_decr_S, for_each_snoc by lia.
  now replace (N + 1 - 1 - k)%nat with (N - k)%nat by lia.
Qed.

Lemma binomial_fast_run_S (N k : nat) :
  (k < N)%nat ->
  binomial_fast_run K S0 u d q disc N (S k) =
  binomial_fast_layer q disc (N - k) (binomial_fast_run K S0 u d q disc N k).
Proof.
  intros Hk; unfold binomial_fast_run.
  rewrite firstn_arange_decr_S, for_each_snoc by lia.
  now replace (N + 1 - 1 - k)%nat with (N - k)%nat by lia.
Qed.

Lemma american_slow_run_S (N k : nat) :
  (k < N)%nat ->
  american_slow_run K S0 u d q disc opttype N (S k) =
  american_slow_layer K S0 u d q disc opttype (N - 1 - k)
    (american_slow_run K S0 u d q disc opttype N k).
Proof.
  intros Hk; unfold american_slow_run.
  now rewrite firstn_arange_decr_S, for_each_snoc by lia.
Qed.

Lemma american_fast_run_S (N k : nat) :
  (k < N)%nat ->
  american_fast_run K S0 u d q disc opttype N (S k) =
  american_fast_layer K S0 u d q disc opttype (N - 1 - k)
    (american_fast_run K S0 u d q disc opttype N k).
Proof.
  intros Hk; unfold american_fast_run.
  now rewrite firstn_arange_decr_S, for_each_snoc by lia.
Qed.

Lemma barrier_slow_run_S (N k : nat) :
  (k < N)%nat ->
  barrier_slow_run K S0 u d q disc opttype H N (S k) =
  barrier_slow_layer S0 u d q disc H (N - 1 - k)
    (barrier_slow_run K S0 u d q disc opttype H N k).
Proof.
  intros Hk; unfold barrier_slow_run.
  now rewrite firstn_arange_decr_S, for_each_snoc by lia.
Qed.

Lemma barrier_fast_run_S (N k : nat) :
  (k < N)%nat ->
  barrier_fast_run K S0 u d q disc opttype H N (S k) =
  barrier_fast_layer S0 u d q disc H (N - 1 - k)
    (barrier_fast_run K S0 u d q disc opttype H N k).
Proof.
  intros Hk; unfold barrier_fast_run.
  now rewrite firstn_arange_decr_S, for_each_snoc by lia.
Qed.

(** Node values of the American loops, in terms of the array of the
    layer above. *)
Lemma american_slow_run_node (N i j : nat) :
  (j <= i)%nat -> (i < N)%nat ->
  get (american_slow_run K S0 u d q disc opttype N (N - i)) j =
  american_value K S0 u d q disc opttype i
    (american_slow_run K S0 u d q disc opttype N (N - i - 1)) j.
Proof.
  intros Hj Hi.
  replace (N - i)%nat with (S (N - i - 1)) at 1 by lia.
  rewrite american_slow_run_S by lia.
  replace (N - 1 - (N - i - 1))%nat with i by lia.
  destruct (american_slow_run_spec K S0 u d q disc opttype N (N - i - 1))
    as [Rl _]; [lia|].
  destruct (american_slow_layer_spec K S0 u d q disc opttype i
              (american_slow_run K S0 u d q disc opttype N (N - i - 1)))
    as [_ Sg]; [lia|].
  rewrite Sg.
  now destruct (Nat.ltb_spec j (i + 1)); try lia.
Qed.

Lemma american_fast_run_node (N i j : nat) :
  (j <= i)%nat -> (i < N)%nat ->
  get (american_fast_run K S0 u d q disc opttype N (N - i)) j =
  american_value K S0 u d q disc opttype i
    (american_fast_run K S0 u d q disc opttype N (N - i - 1)) j.
Proof.
  intros Hj Hi.
  replace (N - i)%nat with (S (N - i - 1)) at 1 by lia.
  rewrite american_fast_run_S by lia.
  replace (N - 1 - (N - i - 1))%nat with i by lia.
  destruct (american_fast_run_spec K S0 u d q disc opttype N (N - i - 1))
    as [Rl _]; [lia|].
  destruct (american_fast_layer_spec K S0 u d q disc opttype i
              (american_fast_run K S0 u d q disc opttype N (N - i - 1)))
    as [_ Sg]; [lia|].
  now rewrite Sg by lia.
Qed.

(** Node values of the barrier loops. *)
Lemma barrier_slow_run_node (N i j : nat) :
  (j <= i)%nat -> (i < N)%nat ->
  get (barrier_slow_run K S0 u d q disc opttype H N (N - i)) j =
  barrier_value S0 u d q disc H i
    (barrier_slow_run K S0 u d q disc opttype H N (N - i - 1)) j.
Proof.
  intros Hj Hi.
  replace (N - i)%nat with (S (N - i - 1)) at 1 by lia.
  rewrite barrier_slow_run_S by lia.
  replace (N - 1 - (N - i - 1))%nat with i by lia.
  destruct (barrier_slow_run_spec K S0 u d q disc opttype H N (N - i - 1))
    as [Rl _]; [lia|].
  destruct (barrier_slow_layer_spec S0 u d q disc H i
              (barrier_slow_run K S0 u d q disc opttype H N (N - i - 1)))
    as [_ Sg]; [lia|].
  rewrite Sg.
  now destruct (Nat.ltb_spec j (i + 1)); try lia.
Qed.

Lemma barrier_fast_run_node (N i j : nat) :
  (j <= i)%nat -> (i < N)%nat ->
  get (barrier_fast_run K S0 u d q disc opttype H N (N - i)) j =
  barrier_value S0 u d q disc H i
    (barrier_fast_run K S0 u d q disc opttype H N (N - i - 1)) j.
Proof.
  intros Hj Hi.
  replace (N - i)%nat with (S (N - i - 1)) at 1 by lia.
  rewrite barrier_fast_run_S by lia.
  replace (N - 1 - (N - i - 1))%nat with i by lia.
  destruct (barrier_fast_run_spec K S0 u d q disc opttype H N (N - i - 1))
    as [Rl _]; [lia|].
  destruct (barrier_fast_layer_spec S0 u d q disc H i
              (barrier_fast_run K S0 u d q disc opttype H N (N - i - 1)))
    as [_ Sg]; [lia|].
  now rewrite Sg by lia.
Qed.

End Steps.

(** ** Early exercise at intermediate nodes *)

Lemma american_value_intrinsic K S0 u d q disc opttype i C j :
  american_value K S0 u d q disc opttype i C j =
  Rmax (hold q disc C j) (intrinsic K opttype (node_price S0 u d i j)).
Proof.
  unfold american_value, intrinsic; now destruct (opttype =? "P")%string.
Qed.

Lemma Rmax_positive_part (h x : R) :
  0 <= h -> Rmax h x = Rmax h (Rmax 0 x).
Proof. intros Hh; eval_real. Qed.

Lemma intrinsic_exercise K opttype S h :
  0 <= h -> Rmax h (intrinsic K opttype S) = Rmax h (exercise K opttype S).
Proof.
  intros Hh; unfold intrinsic, exercise, put_payoff, call_payoff.
  destruct (opttype =? "P")%string; now apply Rmax_positive_part.
Qed.

(** For every calibration the loops store the maximum of the continuation
    and the intrinsic value [K - S] or [S - K] itself, as the source writes
    it: [max(C[j], K - S)], [np.maximum(C, K - S)]. *)
Lemma american_node_intrinsic (K S0 u d q disc : R) (opttype : string)
    (N i j : nat) :
  (j <= i)%nat -> (i < N)%nat ->
  get (american_slow_run K S0 u d q disc opttype N (N - i)) j =
    Rmax (hold q disc (american_slow_run K S0 u d q disc opttype N
                         (N - i - 1)) j)
         (intrinsic K opttype (S0 * u ^ j * d ^ (i - j))) /\
  get (american_fast_run K S0 u d q disc opttype N (N - i)) j =
    Rmax (hold q disc (american_fast_run K S0 u d q disc opttype N
                         (N - i - 1)) j)
         (intrinsic K opttype (get (layer_prices S0 u d i) j)).
Proof.
  intros Hj Hi; split.
  - rewrite american_slow_run_node by auto.
    exact (american_value_intrinsic K S0 u d q disc opttype i _ j).
  - rewrite american_fast_run_node, layer_prices_node by auto.
    apply american_value_intrinsic.
Qed.

(** C2.  Under the calibration precondition [0 < q < 1], at every
    intermediate node [(i,j)], [j <= i < N], both American pricers store
    [max(hold, exercise(S))]: [hold = disc*(q*C[j+1] + (1-q)*C[j])] is the
    discounted continuation read from the array of layer [i+1], [S] is the
    price of the node as the pricer computes it ([S0 * u**j * d**(i-j)] in
    the node-wise loop, cell [j] of [S0 * d**(i-j) * u**j] in the
    layer-wise one), and [exercise] is the payoff of the terminal layer,
    [max(K-S, 0)] for the put ['P'] and [max(S-K, 0)] otherwise. *)
Theorem american_exercise_rule (K T S0 r : R) (N : nat) (u d : R)
    (opttype : string) (i j : nat) :
  (j <= i)%nat -> (i < N)%nat ->
  let q := risk_neutral r (T / INR N) u d in
  let disc := discount r (T / INR N) in
  let slow := american_slow_run K S0 u d q disc opttype N in
  let fast := american_fast_run K S0 u d q disc opttype N in
  0 < q < 1 ->
  get (slow (N - i)%nat) j =
    Rmax (hold q disc (slow (N - i - 1)%nat) j)
         (exercise K opttype (S0 * u ^ j * d ^ (i - j))) /\
  get (fast (N - i)%nat) j =
    Rmax (hold q disc (fast (N - i - 1)%nat) j)
         (exercise K opttype (get (layer_prices S0 u d i) j)) /\
  get (layer_prices S0 u d i) j = S0 * d ^ (i - j) * u ^ j.
Proof.
  intros Hj Hi q disc slow fast [Hq0 Hq1].
  destruct (american_node_intrinsic K S0 u d q disc opttype N i j Hj Hi)
    as [Hs Hf].
  assert (Hd : 0 <= disc) by (left; apply discount_pos).
  assert (Hq0' : 0 <= q) by lra.
  assert (Hq1' : q <= 1) by lra.
  destruct (american_slow_run_spec K S0 u d q disc opttype N (N - i - 1))
    as [_ Gs]; [lia|].
  destruct (american_fast_run_spec K S0 u d q disc opttype N (N - i - 1))
    as [_ Gf]; [lia|].
  pose proof (fun j => american_lattice_nonneg K S0 u d q disc opttype
                         Hq0' Hq1' Hd N (N - i - 1) j) as Hpos.
  split; [|split].
  - unfold slow; rewrite Hs; apply intrinsic_exercise.
    unfold hold; rewrite !Gs by lia.
    apply (expectation_nonneg q disc Hq0' Hq1' Hd); apply Hpos.
  - unfold fast; rewrite Hf; apply intrinsic_exercise.
    unfold hold; rewrite !Gf by lia.
    apply (expectation_nonneg q disc Hq0' Hq1' Hd); apply Hpos.
  - now apply get_layer_prices.
Qed.

Lemma american_exercise_rule_witness :
  (0 <= 0)%nat /\ (0 < 1)%nat /\
  0 < risk_neutral 0 (1 / INR 1) 2 (1 / 2) < 1 /\
  let q := risk_neutral 0 (1 / INR 1) 2 (1 / 2) in
  let disc := discount 0 (1 / INR 1) in
  get (american_slow_run 100 100 2 (1 / 2) q disc "P" 1 (1 - 0)) 0 =
  Rmax (hold q disc (american_slow_run 100 100 2 (1 / 2) q disc "P" 1
                       (1 - 0 - 1)) 0)
       (exercise 100 "P" (100 * 2 ^ 0 * (1 / 2) ^ (0 - 0))).
Proof.
  assert (Hq : 0 < risk_neutral 0 (1 / INR 1) 2 (1 / 2) < 1)
    by (rewrite risk_neutral_r0; lra).
  split; [exact (le_n 0)|]. split; [exact (le_n 1)|]. split; [exact Hq|].
  exact (proj1 (american_exercise_rule 100 1 100 0 1 2 (1 / 2) "P" 0 0
                  (le_n 0) (le_n 1) Hq)).
Defined.

(** ** American against European, barrier against vanilla *)

Section RoundedComparisons.

Import PrimFloat.
Local Open Scope float_scope.
#[local] Set Warnings "-inexact-float".

(** On doubles, with [K = S0 = 100], [T = 1], [r = 0], [N = 1],
    [u = 1.2], [d = 1/u] (so [0 < q < 1]) and the call ['C'],
    [american_slow_tree] returns [9.0909090909090899], below the
    [9.090909090909097] of [binomial_tree_slow]: the two build the price of
    the upper node by different products. *)
Lemma american_european_counterexample :
  let u := 1.2 in
  let d := 1 / 1.2 in
  (0 <? (1 - d) / (u - d)) = true /\
  ((1 - d) / (u - d) <? 1) = true /\
  Binary64.american_slow_tree 100 1 100 0 1 u d "C" =
    Some (Ok 9.0909090909090899) /\
  Binary64.binomial_tree_slow 100 1 100 0 1 u d "C" =
    Some (Ok 9.090909090909097) /\
  (9.0909090909090899 <? 9.090909090909097) = true.
Proof. vm_compute; repeat split. Qed.

(** With the put ['P'] the vanilla pricer still prices the call: for a
    strike of 50 on a spot of 100 the American put is worth 0 and the
    vanilla pricer returns 50. *)
Remark american_put_against_vanilla :
  Binary64.american_slow_tree 50 1 100 0 1 2 0.5 "P" = Some (Ok 0) /\
  Binary64.binomial_tree_slow 50 1 100 0 1 2 0.5 "P" = Some (Ok 50).
Proof. vm_compute; repeat split. Qed.

(** On doubles, with [K = S0 = 100], [T = 1], [r = 0], [N = 1],
    [u = 1.1], [d = 1/u] (so [0 < q < 1]) and a barrier [H = 125] that no
    node reaches, [barrier_tree_slow] returns [4.7619047619047672], above
    the [4.761904761904761] of [binomial_tree_slow].  With [d = 0] and
    [u = 2] ([q = 1/2]) the repeated multiplication of
    [binomial_tree_slow] is [0*2/0], not a number, and the vanilla price is
    0 while the barrier price is 50. *)
Lemma barrier_vanilla_counterexample :
  let u := 1.1 in
  let d := 1 / 1.1 in
  (0 <? (1 - d) / (u - d)) = true /\
  ((1 - d) / (u - d) <? 1) = true /\
  Binary64.barrier_tree_slow 100 1 100 125 0 1 u d "C" =
    Some (Ok 4.7619047619047672) /\
  Binary64.binomial_tree_slow 100 1 100 0 1 u d "C" =
    Some (Ok 4.761904761904761) /\
  (4.761904761904761 <? 4.7619047619047672) = true /\
  Binary64.barrier_tree_slow 100 1 100 500 0 1 2 0 "C" = Some (Ok 50) /\
  Binary64.binomial_tree_slow 100 1 100 0 1 2 0 "C" = Some (Ok 0).
Proof. vm_compute; repeat split. Qed.

End RoundedComparisons.

(** C4, amended.  For every option kind other than ['P'] (the call),
    [N >= 1] and [0 < q < 1], early exercise never lowers the price over
    the same node prices: [american_fast_tree] returns at least what
    [binomial_tree_fast] returns (both build the prices by the expression
    [S0 * d**(i-j) * u**j]), and [american_slow_tree] returns at least the
    European value of the backward recursion over its own prices
    [S0 * u**j * d**(i-j)]. *)
Theorem american_ge_european (K T S0 r : R) (N : nat) (u d : R)
    (opttype : string) :
  (1 <= N)%nat ->
  0 < risk_neutral r (T / INR N) u d < 1 ->
  opttype <> "P"%string ->
  result_le (binomial_tree_fast K T S0 r N u d opttype)
            (american_fast_tree K T S0 r N u d opttype) /\
  (powers_in_range u d N ->
   result_le
     (Ok (european_on K (risk_neutral r (T / INR N) u d)
            (discount r (T / INR N)) (node_price S0 u d) N N 0))
     (american_slow_tree K T S0 r N u d opttype)).
Proof.
  intros HN [Hq0 Hq1] Hk.
  rewrite binomial_tree_fast_lattice, american_fast_tree_lattice,
    american_slow_tree_lattice by auto.
  assert (E : binomial_lattice K S0 u d (risk_neutral r (T / INR N) u d)
                (discount r (T / INR N)) N N 0 <=
              american_lattice K S0 u d (risk_neutral r (T / INR N) u d)
                (discount r (T / INR N)) opttype N N 0).
  { apply american_call_ge_binomial; try lra.
    - left; apply discount_pos.
    - now apply String.eqb_neq. }
  split; [exact E|intros _; exact E].
Qed.

Lemma american_ge_european_witness :
  (1 <= 1)%nat /\
  0 < risk_neutral 0 (1 / INR 1) 2 (1 / 2) < 1 /\
  ("C" <> "P")%string /\
  powers_in_range 2 (1 / 2) 1 /\
  result_le (binomial_tree_fast 100 1 100 0 1 2 (1 / 2) "C")
            (american_fast_tree 100 1 100 0 1 2 (1 / 2) "C") /\
  result_le
    (Ok (european_on 100 (risk_neutral 0 (1 / INR 1) 2 (1 / 2))
           (discount 0 (1 / INR 1)) (node_price 100 2 (1 / 2)) 1 1 0))
    (american_slow_tree 100 1 100 0 1 2 (1 / 2) "C").
Proof.
  assert (Hq : 0 < risk_neutral 0 (1 / INR 1) 2 (1 / 2) < 1)
    by (rewrite risk_neutral_r0; lra).
  assert (Hk : ("C" <> "P")%string) by discriminate.
  assert (Hr : powers_in_range 2 (1 / 2) 1)
    by (apply powers_in_range_example; lia).
  split; [exact (le_n 1)|]. split; [exact Hq|]. split; [exact Hk|].
  split; [exact Hr|].
  pose proof (american_ge_european 100 1 100 0 1 2 (1 / 2) "C"
                (le_n 1) Hq Hk) as [Hf Hs].
  split; [exact Hf|exact (Hs Hr)].
Defined.

(** C5, amended.  For the call ['C'], [N >= 1] and [0 < q < 1], knock-out
    never raises the price over the same node prices: [barrier_tree_fast]
    returns at most what [binomial_tree_fast] returns (both build the
    prices by the expression [S0 * d**(i-j) * u**j]), and
    [barrier_tree_slow] returns at most the European value of the backward
    recursion over its own prices [S0 * u**j * d**(i-j)]. *)
Theorem barrier_le_vanilla (K T S0 H r : R) (N : nat) (u d : R) :
  (1 <= N)%nat ->
  0 < risk_neutral r (T / INR N) u d < 1 ->
  result_le (barrier_tree_fast K T S0 H r N u d "C")
            (binomial_tree_fast K T S0 r N u d "C") /\
  (powers_in_range u d N ->
   result_le
     (barrier_tree_slow K T S0 H r N u d "C")
     (Ok (european_on K (risk_neutral r (T / INR N) u d)
            (discount r (T / INR N)) (node_price S0 u d) N N 0))).
Proof.
  intros HN [Hq0 Hq1].
  rewrite binomial_tree_fast_lattice, barrier_tree_fast_lattice,
    barrier_tree_slow_lattice by auto.
  assert (E : barrier_lattice K S0 u d (risk_neutral r (T / INR N) u d)
                (discount r (T / INR N)) "C" H N N 0 <=
              binomial_lattice K S0 u d (risk_neutral r (T / INR N) u d)
                (discount r (T / INR N)) N N 0).
  { apply barrier_call_le_binomial; try lra; auto.
    left; apply discount_pos. }
  split; [exact E|intros _; exact E].
Qed.

Lemma barrier_le_vanilla_witness :
  (1 <= 1)%nat /\
  0 < risk_neutral 0 (1 / INR 1) 2 (1 / 2) < 1 /\
  powers_in_range 2 (1 / 2) 1 /\
  result_le (barrier_tree_fast 100 1 100 150 0 1 2 (1 / 2) "C")
            (binomial_tree_fast 100 1 100 0 1 2 (1 / 2) "C") /\
  result_le
    (barrier_tree_slow 100 1 100 150 0 1 2 (1 / 2) "C")
    (Ok (european_on 100 (risk_neutral 0 (1 / INR 1) 2 (1 / 2))
           (discount 0 (1 / INR 1)) (node_price 100 2 (1 / 2)) 1 1 0)).
Proof.
  assert (Hq : 0 < risk_neutral 0 (1 / INR 1) 2 (1 / 2) < 1)
    by (rewrite risk_neutral_r0; lra).
  assert (Hr : powers_in_range 2 (1 / 2) 1)
    by (apply powers_in_range_example; lia).
  split; [exact (le_n 1)|]. split; [exact Hq|]. split; [exact Hr|].
  pose proof (barrier_le_vanilla 100 1 100 150 0 1 2 (1 / 2) (le_n 1) Hq)
    as [Hf Hs].
  split; [exact Hf|exact (Hs Hr)].
Defined.

(** ** The European pricers *)

Section European.

Variables (K S0 u d q disc : R).

Lemma binomial_slow_payoff_spec (N : nat) (S : array) :
  length (binomial_slow_payoff K N S) = (N + 1)%nat /\
  forall j, (j <= N)%nat ->
    get (binomial_slow_payoff K N S) j = Rmax 0 (get S j - K).
Proof.
  unfold binomial_slow_payoff.
  destruct (sweep_spec
    (fun j C => set C j (Rmax 0 (get S j - K)))
    (fun j _ => Rmax 0 (get S j - K))
    (N + 1) (zeros (N + 1))) as [Hl Hg]; auto.
  - rewrite length_zeros; lia.
  - rewrite length_zeros in Hl; split; auto.
    intros j Hj; rewrite Hg.
    now destruct (Nat.ltb_spec j (N + 1)); try lia.
Qed.

(** The node-wise European loop on its own terminal prices, whatever
    the down factor. *)
Lemma binomial_slow_run_gen (N k : nat) :
  (k <= N)%nat ->
  length (binomial_slow_run K S0 u d q disc N k) = (N + 1)%nat /\
  forall j, (j <= N - k)%nat ->
    get (binomial_slow_run K S0 u d q disc N k) j =
    lattice (fun j => Rmax 0 (get (binomial_slow_prices S0 u d N) j - K))
      (binomial_node q disc) N k j.
Proof.
  unfold binomial_slow_run.
  destruct (binomial_slow_payoff_spec N (binomial_slow_prices S0 u d N))
    as [Il Ig].
  apply (run_refines _ _ N _ (N + 1) 1 (fun _ => (N + 1)%nat)); auto; try lia.
  intros k' C Hk HC.
  replace (N + 1 - 1 - k')%nat with (N - k')%nat by lia.
  destruct (binomial_slow_layer_spec q disc (N - k') C) as [Sl Sg]; [lia|].
  split; [lia|].
  intros j Hj; rewrite Sg.
  now destruct (Nat.ltb_spec j (N - k')); try lia.
Qed.

(** Intermediate layers: the plain discounted expectation. *)
Lemma binomial_slow_run_node (N i j : nat) :
  (j <= i)%nat -> (i < N)%nat ->
  get (binomial_slow_run K S0 u d q disc N (N - i)) j =
  hold q disc (binomial_slow_run K S0 u d q disc N (N - i - 1)) j.
Proof.
  intros Hj Hi.
  replace (N - i)%nat with (S (N - i - 1)) at 1 by lia.
  rewrite binomial_slow_run_S by lia.
  replace (N - (N - i - 1))%nat with (i + 1)%nat by lia.
  destruct (binomial_slow_run_gen N (N - i - 1)) as [Rl _]; [lia|].
  destruct (binomial_slow_layer_spec q disc (i + 1)
              (binomial_slow_run K S0 u d q disc N (N - i - 1)))
    as [_ Sg]; [lia|].
  rewrite Sg.
  now destruct (Nat.ltb_spec j (i + 1)); try lia.
Qed.

Lemma binomial_fast_run_node (N i j : nat) :
  (j <= i)%nat -> (i < N)%nat ->
  get (binomial_fast_run K S0 u d q disc N (N - i)) j =
  hold q disc (binomial_fast_run K S0 u d q disc N (N - i - 1)) j.
Proof.
  intros Hj Hi.
  replace (N - i)%nat with (S (N - i - 1)) at 1 by lia.
  rewrite binomial_fast_run_S by lia.
  replace (N - (N - i - 1))%nat with (i + 1)%nat by lia.
  destruct (binomial_fast_run_spec K S0 u d q disc N (N - i - 1))
    as [Rl _]; [lia|].
  destruct (binomial_fast_layer_spec q disc (i + 1)
              (binomial_fast_run K S0 u d q disc N (N - i - 1)))
    as [_ Sg]; [lia|].
  now rewrite Sg by lia.
Qed.

End European.

(** Called with ['P'], [binomial_tree_slow] still fills the terminal layer
    with the call payoff: at the lowest terminal node of a one-step tree
    ([S = 50], strike 150) it stores 0 where the put payoff is 100, and it
    returns the call price [50/3]. *)
Lemma european_put_counterexample :
  let S := binomial_slow_prices 100 2 (1 / 2) 1 in
  get S 0 = 50 /\
  get (binomial_slow_payoff 150 1 S) 0 <> exercise 150 "P" (get S 0) /\
  binomial_tree_slow 150 1 100 0 1 2 (1 / 2) "P" = Ok (50 / 3).
Proof.
  cbv zeta.
  assert (HS : get (binomial_slow_prices 100 2 (1 / 2) 1) 0 = 50).
  { unfold binomial_slow_prices, get; simpl; lra. }
  split; [exact HS|]. split.
  - rewrite (proj2 (binomial_slow_payoff_spec 150 1 _)) by lia.
    rewrite HS; unfold exercise, put_payoff; simpl.
    intros E; revert E; eval_real.
  - rewrite binomial_tree_slow_lattice by (try lia; lra).
    rewrite risk_neutral_r0, discount_r0.
    unfold binomial_lattice, binomial_node, binomial_term, expectation,
      call_payoff, node_price; simpl.
    f_equal; eval_real.
Qed.

(** C8, amended.  The European pricers ignore the option kind: for every
    [opttype] each terminal node [j] of price [S] holds the call payoff
    [max(S-K, 0)], every intermediate node holds exactly the discounted
    expectation of its two successors, and the returned price is the one
    returned for ['C']. *)
Theorem european_call_only (K T S0 r : R) (N : nat) (u d : R)
    (opttype : string) :
  let q := risk_neutral r (T / INR N) u d in
  let disc := discount r (T / INR N) in
  let slow := binomial_slow_run K S0 u d q disc N in
  let fast := binomial_fast_run K S0 u d q disc N in
  (forall j, (j <= N)%nat ->
     get (slow 0%nat) j = Rmax (get (binomial_slow_prices S0 u d N) j - K) 0 /\
     get (fast 0%nat) j = Rmax (get (layer_prices S0 u d N) j - K) 0) /\
  (forall i j, (j <= i)%nat -> (i < N)%nat ->
     get (slow (N - i)%nat) j = hold q disc (slow (N - i - 1)%nat) j /\
     get (fast (N - i)%nat) j = hold q disc (fast (N - i - 1)%nat) j) /\
  binomial_tree_slow K T S0 r N u d opttype =
  binomial_tree_slow K T S0 r N u d "C" /\
  binomial_tree_fast K T S0 r N u d opttype =
  binomial_tree_fast K T S0 r N u d "C".
Proof.
  cbv zeta; split; [|split; [|split; reflexivity]].
  - intros j Hj; split.
    + unfold binomial_slow_run; simpl.
      rewrite (proj2 (binomial_slow_payoff_spec K N _)) by auto.
      apply Rmax_comm.
    + unfold binomial_fast_run; simpl.
      pose proof (length_layer_prices S0 u d N) as LS.
      unfold binomial_fast_payoff, maximum, subr.
      rewrite get_zip_with, get_map, get_zeros
        by (rewrite ?length_map, ?length_zeros; lia).
      reflexivity.
  - intros i j Hj Hi; split.
    + now apply binomial_slow_run_node.
    + now apply binomial_fast_run_node.
Qed.

Lemma european_call_only_witness :
  (0 <= 1)%nat /\ (0 <= 0)%nat /\ (0 < 1)%nat /\
  let q := risk_neutral 0 (1 / INR 1) 2 (1 / 2) in
  let disc := discount 0 (1 / INR 1) in
  get (binomial_slow_run 150 100 2 (1 / 2) q disc 1 0) 0 =
  Rmax (get (binomial_slow_prices 100 2 (1 / 2) 1) 0 - 150) 0 /\
  get (binomial_fast_run 150 100 2 (1 / 2) q disc 1 (1 - 0)) 0 =
  hold q disc (binomial_fast_run 150 100 2 (1 / 2) q disc 1 (1 - 0 - 1)) 0.
Proof.
  split; [exact (le_S 0 0 (le_n 0))|]. split; [exact (le_n 0)|].
  split; [exact (le_n 1)|].
  pose proof (european_call_only 150 1 100 0 1 2 (1 / 2) "P") as [Ht [Hi _]].
  split.
  - exact (proj1 (Ht 0%nat (le_S 0 0 (le_n 0)))).
  - exact (proj2 (Hi 0%nat 0%nat (le_n 0) (le_n 1))).
Defined.

(** ** Shape and sign of the contract-value array *)

Lemma layer_ok_intro (i : nat) (C : array) :
  length C = (i + 1)%nat -> (forall j, (j <= i)%nat -> 0 <= get C j) ->
  layer_ok i C.
Proof.
  intros Hl Hg; split; auto.
  apply Forall_nth; intros j x Hj.
  rewrite (nth_indep C x 0) by auto.
  apply Hg; lia.
Qed.

Lemma layer_ok_get (i : nat) (C : array) (j : nat) :
  layer_ok i C -> 0 <= get C j.
Proof.
  intros [Hl Hf].
  destruct (Nat.lt_ge_cases j (length C)) as [Hj|Hj].
  - unfold get; now apply (proj1 (Forall_nth _ C) Hf).
  - rewrite get_overflow by auto; lra.
Qed.

Lemma live_ok_intro (i : nat) (C : array) :
  (i + 1 <= length C)%nat -> (forall j, (j <= i)%nat -> 0 <= get C j) ->
  layer_ok i (live i C).
Proof.
  intros Hl Hg; apply layer_ok_intro.
  - unfold live; rewrite length_firstn; lia.
  - intros j Hj; unfold live, get; rewrite nth_firstn.
    destruct (Nat.ltb_spec j (i + 1)); try lia.
    now apply Hg.
Qed.

Lemma live_ok_get (i : nat) (C : array) (j : nat) :
  layer_ok i (live i C) -> (j <= i)%nat -> 0 <= get C j.
Proof.
  intros Hok Hj.
  pose proof (layer_ok_get i _ j Hok) as Hg.
  unfold live, get in Hg; rewrite nth_firstn in Hg.
  now destruct (Nat.ltb_spec j (i + 1)); try lia.
Qed.

Section Invariant.

Variables (K S0 u d q disc : R).
Variable opttype : string.
Variable H : R.
Hypothesis Hq : 0 < q < 1.
Hypothesis Hdisc : 0 < disc.

Lemma calibrated_q_nonneg : 0 <= q.
Proof. lra. Qed.

Lemma calibrated_q_le_1 : q <= 1.
Proof. lra. Qed.

Lemma calibrated_disc_nonneg : 0 <= disc.
Proof. lra. Qed.

Local Hint Resolve calibrated_q_nonneg calibrated_q_le_1
  calibrated_disc_nonneg : core.

Lemma hold_nonneg (C : array) (j : nat) :
  0 <= get C j -> 0 <= get C (j + 1) -> 0 <= hold q disc C j.
Proof. intros; apply expectation_nonneg; auto. Qed.

Lemma american_value_nonneg (i : nat) (C : array) (j : nat) :
  0 <= get C j -> 0 <= get C (j + 1) ->
  0 <= american_value K S0 u d q disc opttype i C j.
Proof.
  intros H0 H1; rewrite american_value_intrinsic.
  eapply Rle_trans; [apply (hold_nonneg C j H0 H1)|apply Rmax_l].
Qed.

Lemma barrier_value_nonneg (i : nat) (C : array) (j : nat) :
  0 <= get C j -> 0 <= get C (j + 1) ->
  0 <= barrier_value S0 u d q disc H i C j.
Proof.
  intros H0 H1; unfold barrier_value; destruct (Rge_dec _ H); [lra|].
  now apply hold_nonneg.
Qed.

(** *** One backward step preserves the invariant *)

Lemma binomial_fast_layer_ok (i : nat) (C : array) :
  layer_ok (i + 1) C -> layer_ok i (binomial_fast_layer q disc (i + 1) C).
Proof.
  intros Hok; pose proof (proj1 Hok) as Hl.
  destruct (binomial_fast_layer_spec q disc (i + 1) C) as [Sl Sg]; [lia|].
  apply layer_ok_intro; auto.
  intros j Hj; rewrite Sg by lia.
  apply hold_nonneg; eapply layer_ok_get; eauto.
Qed.

Lemma american_fast_layer_ok (i : nat) (C : array) :
  layer_ok (i + 1) C ->
  layer_ok i (american_fast_layer K S0 u d q disc opttype i C).
Proof.
  intros Hok; pose proof (proj1 Hok) as Hl.
  destruct (american_fast_layer_spec K S0 u d q disc opttype i C)
    as [Sl Sg]; [lia|].
  apply layer_ok_intro; auto.
  intros j Hj; rewrite Sg by lia.
  apply american_value_nonneg; eapply layer_ok_get; eauto.
Qed.

Lemma barrier_fast_layer_ok (i : nat) (C : array) :
  layer_ok (i + 1) C ->
  layer_ok i (barrier_fast_layer S0 u d q disc H i C).
Proof.
  intros Hok; pose proof (proj1 Hok) as Hl.
  destruct (barrier_fast_layer_spec S0 u d q disc H i C) as [Sl Sg]; [lia|].
  apply layer_ok_intro; auto.
  intros j Hj; rewrite Sg by lia.
  apply barrier_value_nonneg; eapply layer_ok_get; eauto.
Qed.

Lemma binomial_slow_layer_ok (i : nat) (C : array) :
  (i + 2 <= length C)%nat -> layer_ok (i + 1) (live (i + 1) C) ->
  layer_ok i (live i (binomial_slow_layer q disc (i + 1) C)).
Proof.
  intros Hl Hok.
  destruct (binomial_slow_layer_spec q disc (i + 1) C) as [Sl Sg]; [lia|].
  apply live_ok_intro; [lia|].
  intros j Hj; rewrite Sg.
  destruct (Nat.ltb_spec j (i + 1)); try lia.
  apply hold_nonneg; apply (live_ok_get (i + 1)); auto; lia.
Qed.

Lemma american_slow_layer_ok (i : nat) (C : array) :
  (i + 2 <= length C)%nat -> layer_ok (i + 1) (live (i + 1) C) ->
  layer_ok i (live i (american_slow_layer K S0 u d q disc opttype i C)).
Proof.
  intros Hl Hok.
  destruct (american_slow_layer_spec K S0 u d q disc opttype i C)
    as [Sl Sg]; [lia|].
  apply live_ok_intro; [lia|].
  intros j Hj; rewrite Sg.
  destruct (Nat.ltb_spec j (i + 1)); try lia.
  apply american_value_nonneg; apply (live_ok_get (i + 1)); auto; lia.
Qed.

Lemma barrier_slow_layer_ok (i : nat) (C : array) :
  (i + 2 <= length C)%nat -> layer_ok (i + 1) (live (i + 1) C) ->
  layer_ok i (live i (barrier_slow_layer S0 u d q disc H i C)).
Proof.
  intros Hl Hok.
  destruct (barrier_slow_layer_spec S0 u d q disc H i C) as [Sl Sg]; [lia|].
  apply live_ok_intro; [lia|].
  intros j Hj; rewrite Sg.
  destruct (Nat.ltb_spec j (i + 1)); try lia.
  apply barrier_value_nonneg; apply (live_ok_get (i + 1)); auto; lia.
Qed.

(** *** The invariant holds after every number of backward steps *)

Lemma binomial_fast_run_ok (N k : nat) :
  (k <= N)%nat -> layer_ok (N - k) (binomial_fast_run K S0 u d q disc N k).
Proof.
  intros Hk.
  destruct (binomial_fast_run_spec K S0 u d q disc N k Hk) as [Rl Rg].
  apply layer_ok_intro; [lia|].
  intros j Hj; rewrite Rg by auto.
  apply binomial_lattice_nonneg; auto.
Qed.

Lemma american_fast_run_ok (N k : nat) :
  (k <= N)%nat ->
  layer_ok (N - k) (american_fast_run K S0 u d q disc opttype N k).
Proof.
  intros Hk.
  destruct (american_fast_run_spec K S0 u d q disc opttype N k Hk)
    as [Rl Rg].
  apply layer_ok_intro; [lia|].
  intros j Hj; rewrite Rg by auto.
  apply american_lattice_nonneg; auto.
Qed.

Lemma barrier_fast_run_ok (N k : nat) :
  (k <= N)%nat ->
  layer_ok (N - k) (barrier_fast_run K S0 u d q disc opttype H N k).
Proof.
  intros Hk.
  destruct (barrier_fast_run_spec K S0 u d q disc opttype H N k Hk)
    as [Rl Rg].
  apply layer_ok_intro; [lia|].
  intros j Hj; rewrite Rg by auto.
  apply barrier_lattice_nonneg; auto.
Qed.

Lemma binomial_slow_run_ok (N k : nat) :
  (k <= N)%nat ->
  layer_ok (N - k) (live (N - k) (binomial_slow_run K S0 u d q disc N k)).
Proof.
  intros Hk.
  destruct (binomial_slow_run_gen K S0 u d q disc N k Hk) as [Rl Rg].
  apply live_ok_intro; [lia|].
  intros j Hj; rewrite Rg by auto.
  apply expectation_lattice_nonneg; auto.
  intros; apply Rmax_l.
Qed.

Lemma american_slow_run_ok (N k : nat) :
  (k <= N)%nat ->
  layer_ok (N - k)
    (live (N - k) (american_slow_run K S0 u d q disc opttype N k)).
Proof.
  intros Hk.
  destruct (american_slow_run_spec K S0 u d q disc opttype N k Hk)
    as [Rl Rg].
  apply live_ok_intro; [lia|].
  intros j Hj; rewrite Rg by auto.
  apply american_lattice_nonneg; auto.
Qed.

Lemma barrier_slow_run_ok (N k : nat) :
  (k <= N)%nat ->
  layer_ok (N - k)
    (live (N - k) (barrier_slow_run K S0 u d q disc opttype H N k)).
Proof.
  intros Hk.
  destruct (barrier_slow_run_spec K S0 u d q disc opttype H N k Hk)
    as [Rl Rg].
  apply live_ok_intro; [lia|].
  intros j Hj; rewrite Rg by auto.
  apply barrier_lattice_nonneg; auto.
Qed.

End Invariant.

(** C9.  Under the precondition [0 < q < 1] (the discount factor is an
    exponential, hence positive), after any number [k <= N] of backward
    steps the contract-value array of layer [i = N - k] has exactly [i+1]
    entries, none negative: the whole array in the layer-wise pricers, the
    cells [0..i] of the buffer in the node-wise ones.  Each backward step
    turns any such layer-[i+1] array into such a layer-[i] array. *)
Theorem layer_shape_sign (K T S0 H r : R) (N : nat) (u d : R)
    (opttype : string) (k : nat) :
  (k <= N)%nat ->
  0 < risk_neutral r (T / INR N) u d < 1 ->
  let q := risk_neutral r (T / INR N) u d in
  let disc := discount r (T / INR N) in
  let i := (N - k)%nat in
  (layer_ok i (binomial_fast_run K S0 u d q disc N k) /\
   layer_ok i (american_fast_run K S0 u d q disc opttype N k) /\
   layer_ok i (barrier_fast_run K S0 u d q disc opttype H N k) /\
   layer_ok i (live i (binomial_slow_run K S0 u d q disc N k)) /\
   layer_ok i (live i (american_slow_run K S0 u d q disc opttype N k)) /\
   layer_ok i (live i (barrier_slow_run K S0 u d q disc opttype H N k))) /\
  (forall C, layer_ok (i + 1) C ->
     layer_ok i (binomial_fast_layer q disc (i + 1) C) /\
     layer_ok i (american_fast_layer K S0 u d q disc opttype i C) /\
     layer_ok i (barrier_fast_layer S0 u d q disc H i C)) /\
  (forall C, (i + 2 <= length C)%nat -> layer_ok (i + 1) (live (i + 1) C) ->
     layer_ok i (live i (binomial_slow_layer q disc (i + 1) C)) /\
     layer_ok i (live i (american_slow_layer K S0 u d q disc opttype i C)) /\
     layer_ok i (live i (barrier_slow_layer S0 u d q disc H i C))).
Proof.
  intros Hk Hq q disc i.
  pose proof (discount_pos r (T / INR N)) as Hd.
  split; [|split].
  - split; [|split; [|split; [|split; [|split]]]].
    + apply binomial_fast_run_ok; auto.
    + apply american_fast_run_ok; auto.
    + apply barrier_fast_run_ok; auto.
    + apply binomial_slow_run_ok; auto.
    + apply american_slow_run_ok; auto.
    + apply barrier_slow_run_ok; auto.
  - intros C HC; split; [|split].
    + apply binomial_fast_layer_ok; auto.
    + apply american_fast_layer_ok; auto.
    + apply barrier_fast_layer_ok; auto.
  - intros C Hl HC; split; [|split].
    + apply binomial_slow_layer_ok; auto.
    + apply american_slow_layer_ok; auto.
    + apply barrier_slow_layer_ok; auto.
Qed.

Lemma layer_shape_sign_witness :
  (1 <= 1)%nat /\ 0 < risk_neutral 0 (1 / INR 1) 2 (1 / 2) < 1 /\
  let q := risk_neutral 0 (1 / INR 1) 2 (1 / 2) in
  let disc := discount 0 (1 / INR 1) in
  layer_ok (1 - 1) (american_fast_run 100 100 2 (1 / 2) q disc "P" 1 1) /\
  layer_ok (1 - 1) (barrier_fast_run 100 100 2 (1 / 2) q disc "C" 150 1 1).
Proof.
  assert (Hq : 0 < risk_neutral 0 (1 / INR 1) 2 (1 / 2) < 1)
    by (rewrite risk_neutral_r0; lra).
  split; [exact (le_n 1)|]. split; [exact Hq|].
  pose proof (layer_shape_sign 100 1 100 150 0 1 2 (1 / 2) "P" 1 (le_n 1) Hq)
    as [(_ & Ha & _) _].
  pose proof (layer_shape_sign 100 1 100 150 0 1 2 (1 / 2) "C" 1 (le_n 1) Hq)
    as [(_ & _ & Hb & _) _].
  split; [exact Ha | exact Hb].
Defined.

(** ** Knock-out at intermediate nodes: which operations are executed *)

(** A loop on a pair whose second component only grows by a trace that
    depends on the index, and whose first component ignores the second. *)
Lemma for_each_pair {A B} (l : list nat)
    (body : nat -> A * list B -> A * list B)
    (body1 : nat -> A -> A) (tr : nat -> list B) (a : A) (ops : list B) :
  (forall i a ops, body i (a, ops) = (body1 i a, ops ++ tr i)) ->
  for_each l body (a, ops) = (for_each l body1 a, ops ++ flat_map tr l).
Proof.
  intros Hb; revert a ops; induction l as [|i l IH]; intros a ops; simpl.
  - now rewrite app_nil_r.
  - unfold for_each in *; simpl.
    rewrite Hb, IH, app_assoc; reflexivity.
Qed.

Section OperationsFacts.

Variables (K S0 u d q disc : R).
Variable opttype : string.
Variable H : R.

Lemma barrier_slow_node_ops_eq (i j : nat) (C : array) (ops : list op) :
  barrier_slow_node_ops S0 u d q disc H i j (C, ops) =
  (barrier_slow_node S0 u d q disc H i j C,
   ops ++ slow_node_trace S0 u d H i j).
Proof.
  unfold barrier_slow_node_ops, barrier_slow_node, slow_node_trace, node_price.
  cbv zeta; destruct (Rge_dec _ H); auto.
  now rewrite <- app_assoc.
Qed.

Lemma barrier_slow_layer_ops_eq (i : nat) (C : array) (ops : list op) :
  barrier_slow_layer_ops S0 u d q disc H i (C, ops) =
  (barrier_slow_layer S0 u d q disc H i C,
   ops ++ slow_layer_trace S0 u d H i).
Proof.
  unfold barrier_slow_layer_ops, barrier_slow_layer, slow_layer_trace.
  apply for_each_pair; intros; apply barrier_slow_node_ops_eq.
Qed.

Lemma barrier_fast_layer_ops_eq (i : nat) (C : array) (ops : list op) :
  barrier_fast_layer_ops S0 u d q disc H i (C, ops) =
  (barrier_fast_layer S0 u d q disc H i C, ops ++ fast_layer_trace i).
Proof.
  unfold barrier_fast_layer_ops, barrier_fast_layer, fast_layer_trace.
  cbv zeta; now rewrite <- app_assoc.
Qed.

(** Erasure: the recorded loops compute the arrays of the pricers. *)
Lemma barrier_slow_ops_eq (N : nat) :
  barrier_slow_ops K S0 u d q disc opttype H N =
  (barrier_slow_loop K S0 u d q disc opttype H N,
   flat_map (slow_layer_trace S0 u d H) (arange_decr N 0)).
Proof.
  unfold barrier_slow_ops, barrier_slow_loop.
  rewrite (for_each_pair _ _ (barrier_slow_layer S0 u d q disc H)
             (slow_layer_trace S0 u d H)); auto.
  intros; apply barrier_slow_layer_ops_eq.
Qed.

Lemma barrier_fast_ops_eq (N : nat) :
  barrier_fast_ops K S0 u d q disc opttype H N =
  (barrier_fast_loop K S0 u d q disc opttype H N,
   flat_map fast_layer_trace (arange_decr N 0)).
Proof.
  unfold barrier_fast_ops, barrier_fast_loop.
  rewrite (for_each_pair _ _ (barrier_fast_layer S0 u d q disc H)
             fast_layer_trace); auto.
  intros; apply barrier_fast_layer_ops_eq.
Qed.

Lemma barrier_slow_ops_erase (N : nat) :
  fst (barrier_slow_ops K S0 u d q disc opttype H N) =
  barrier_slow_loop K S0 u d q disc opttype H N.
Proof. now rewrite barrier_slow_ops_eq. Qed.

Lemma barrier_fast_ops_erase (N : nat) :
  fst (barrier_fast_ops K S0 u d q disc opttype H N) =
  barrier_fast_loop K S0 u d q disc opttype H N.
Proof. now rewrite barrier_fast_ops_eq. Qed.

Lemma in_arange_decr (m lo i : nat) :
  In i (arange_decr m lo) <-> (lo <= i < m)%nat.
Proof.
  unfold arange_decr; rewrite <- in_rev, in_seq; lia.
Qed.

Lemma in_range (lo hi j : nat) :
  In j (range lo hi) <-> (lo <= j < hi)%nat.
Proof. unfold range; rewrite in_seq; lia. Qed.

(** Node-wise: the continuation of node [(i,j)] is evaluated exactly when
    the node is not knocked out. *)
Lemma slow_continuation_iff (N i j : nat) :
  In (Continuation i j)
     (snd (barrier_slow_ops K S0 u d q disc opttype H N)) <->
  (j <= i)%nat /\ (i < N)%nat /\ ~ node_price S0 u d i j >= H.
Proof.
  rewrite barrier_slow_ops_eq; simpl.
  rewrite in_flat_map; split.
  - intros (i' & Hi' & Hin).
    apply in_arange_decr in Hi'.
    unfold slow_layer_trace in Hin; apply in_flat_map in Hin.
    destruct Hin as (j' & Hj' & Hin).
    apply in_range in Hj'.
    unfold slow_node_trace in Hin.
    destruct (Rge_dec (node_price S0 u d i' j') H) as [Hge|Hlt]; simpl in Hin.
    + destruct Hin as [E|[]]; discriminate.
    + destruct Hin as [E|[E|[]]]; try discriminate.
      injection E as -> ->; repeat split; auto; lia.
  - intros (Hj & Hi & Hlt).
    exists i; split; [apply in_arange_decr; lia|].
    unfold slow_layer_trace; apply in_flat_map.
    exists j; split; [apply in_range; lia|].
    unfold slow_node_trace.
    destruct (Rge_dec (node_price S0 u d i j) H); [contradiction|].
    simpl; auto.
Qed.

(** Layer-wise: the continuation of every intermediate node is
    evaluated, knocked out or not. *)
Lemma fast_continuation_iff (N i j : nat) :
  In (Continuation i j)
     (snd (barrier_fast_ops K S0 u d q disc opttype H N)) <->
  (j <= i)%nat /\ (i < N)%nat.
Proof.
  rewrite barrier_fast_ops_eq; simpl.
  rewrite in_flat_map; split.
  - intros (i' & Hi' & Hin).
    apply in_arange_decr in Hi'.
    unfold fast_layer_trace in Hin; apply in_app_or in Hin.
    destruct Hin as [Hin|Hin]; apply in_map_iff in Hin;
      destruct Hin as (j' & E & Hj'); try discriminate.
    apply in_range in Hj'.
    injection E as -> ->; lia.
  - intros (Hj & Hi).
    exists i; split; [apply in_arange_decr; lia|].
    unfold fast_layer_trace; apply in_or_app; left.
    apply in_map; apply in_range; lia.
Qed.

End OperationsFacts.

Section Precedence.

Variables (K S0 u d q disc : R).
Variable opttype : string.
Variable H : R.

Lemma slow_test_precedes (N i j : nat) :
  (j <= i)%nat -> (i < N)%nat -> ~ node_price S0 u d i j >= H ->
  precedes (BarrierTest i j) (Continuation i j)
    (snd (barrier_slow_ops K S0 u d q disc opttype H N)).
Proof.
  intros Hj Hi Hlt.
  rewrite barrier_slow_ops_eq; simpl.
  destruct (in_split i (arange_decr N 0)) as (a1 & a2 & Ea);
    [apply in_arange_decr; lia|].
  destruct (in_split j (range 0 (i + 1))) as (b1 & b2 & Eb);
    [apply in_range; lia|].
  rewrite Ea, flat_map_app; simpl.
  unfold slow_layer_trace at 2; rewrite Eb, flat_map_app; simpl.
  unfold slow_node_trace at 2.
  destruct (Rge_dec (node_price S0 u d i j) H); [contradiction|].
  exists (flat_map (slow_layer_trace S0 u d H) a1 ++
          flat_map (slow_node_trace S0 u d H i) b1), [],
         (flat_map (slow_node_trace S0 u d H i) b2 ++
          flat_map (slow_layer_trace S0 u d H) a2).
  simpl; now rewrite <- !app_assoc.
Qed.

Lemma fast_continuation_precedes (N i j : nat) :
  (j <= i)%nat -> (i < N)%nat ->
  precedes (Continuation i j) (BarrierTest i j)
    (snd (barrier_fast_ops K S0 u d q disc opttype H N)).
Proof.
  intros Hj Hi.
  rewrite barrier_fast_ops_eq; simpl.
  destruct (in_split i (arange_decr N 0)) as (a1 & a2 & Ea);
    [apply in_arange_decr; lia|].
  destruct (in_split j (range 0 (i + 1))) as (b1 & b2 & Eb);
    [apply in_range; lia|].
  rewrite Ea, flat_map_app; simpl.
  unfold fast_layer_trace at 2; rewrite Eb, !map_app; simpl.
  exists (flat_map fast_layer_trace a1 ++ map (Continuation i) b1),
         (map (Continuation i) b2 ++ map (BarrierTest i) b1),
         (map (BarrierTest i) b2 ++ flat_map fast_layer_trace a2).
  now rewrite <- !app_assoc.
Qed.

End Precedence.

(** On a one-step tree whose root price 100 is above the barrier 50, the
    layer-wise pricer evaluates the continuation of the root before it
    tests the barrier, and only then overwrites the cell with 0. *)
Lemma barrier_skip_counterexample :
  let q := risk_neutral 0 (1 / INR 1) 2 (1 / 2) in
  let disc := discount 0 (1 / INR 1) in
  let run := barrier_fast_ops 100 100 2 (1 / 2) q disc "C" 50 1 in
  node_price 100 2 (1 / 2) 0 0 >= 50 /\
  barrier_tree_fast 100 1 100 50 0 1 2 (1 / 2) "C" = Ok (get (fst run) 0) /\
  In (Continuation 0 0) (snd run) /\
  precedes (Continuation 0 0) (BarrierTest 0 0) (snd run).
Proof.
  cbv zeta; split; [unfold node_price; simpl; lra|].
  split; [now rewrite barrier_fast_ops_erase|].
  split.
  - apply fast_continuation_iff; lia.
  - apply fast_continuation_precedes; lia.
Qed.

(** C3, amended.  At every intermediate node [(i,j)], [j <= i < N], of
    price [S], both barrier pricers store 0 if [S >= H] and otherwise
    exactly the discounted continuation of the layer above, with no early
    exercise.  The node-wise pricer tests the barrier first and evaluates
    the continuation only when the node is not knocked out.  The layer-wise
    pricer evaluates the continuation of every node of the layer and then
    overwrites the knocked-out cells with 0. *)
Theorem barrier_node_value (K T S0 H r : R) (N : nat) (u d : R)
    (opttype : string) (i j : nat) :
  (j <= i)%nat -> (i < N)%nat ->
  let q := risk_neutral r (T / INR N) u d in
  let disc := discount r (T / INR N) in
  let S := node_price S0 u d i j in
  let slow := barrier_slow_run K S0 u d q disc opttype H N in
  let fast := barrier_fast_run K S0 u d q disc opttype H N in
  let slow_ops := barrier_slow_ops K S0 u d q disc opttype H N in
  let fast_ops := barrier_fast_ops K S0 u d q disc opttype H N in
  (get (slow (N - i)%nat) j =
     (if Rge_dec S H then 0 else hold q disc (slow (N - i - 1)%nat) j) /\
   get (fast (N - i)%nat) j =
     (if Rge_dec S H then 0 else hold q disc (fast (N - i - 1)%nat) j)) /\
  (fst slow_ops = barrier_slow_loop K S0 u d q disc opttype H N /\
   fst fast_ops = barrier_fast_loop K S0 u d q disc opttype H N) /\
  ((S >= H -> ~ In (Continuation i j) (snd slow_ops)) /\
   (~ S >= H -> precedes (BarrierTest i j) (Continuation i j) (snd slow_ops))) /\
  precedes (Continuation i j) (BarrierTest i j) (snd fast_ops).
Proof.
  intros Hj Hi q disc S slow fast slow_ops fast_ops.
  split; [split|split; [split|split; [split|]]].
  - unfold slow; now rewrite barrier_slow_run_node by auto.
  - unfold fast; now rewrite barrier_fast_run_node by auto.
  - apply barrier_slow_ops_erase.
  - apply barrier_fast_ops_erase.
  - intros Hge Hin; apply slow_continuation_iff in Hin.
    destruct Hin as (_ & _ & Hn); now apply Hn.
  - intros Hlt; now apply slow_test_precedes.
  - now apply fast_continuation_precedes.
Qed.

Lemma barrier_node_value_witness :
  (0 <= 0)%nat /\ (0 < 1)%nat /\
  let q := risk_neutral 0 (1 / INR 1) 2 (1 / 2) in
  let disc := discount 0 (1 / INR 1) in
  node_price 100 2 (1 / 2) 0 0 >= 50 /\
  ~ In (Continuation 0 0)
       (snd (barrier_slow_ops 100 100 2 (1 / 2) q disc "C" 50 1)) /\
  precedes (Continuation 0 0) (BarrierTest 0 0)
       (snd (barrier_fast_ops 100 100 2 (1 / 2) q disc "C" 50 1)).
Proof.
  assert (Hge : node_price 100 2 (1 / 2) 0 0 >= 50)
    by (unfold node_price; simpl; lra).
  split; [exact (le_n 0)|]. split; [exact (le_n 1)|].
  pose proof (barrier_node_value 100 1 100 50 0 1 2 (1 / 2) "C" 0 0
                (le_n 0) (le_n 1)) as (_ & _ & [Hs _] & Hf).
  split; [exact Hge|]. split; [exact (Hs Hge) | exact Hf].
Defined.

(** ** The pricers on a two-step tree

    Spot 100, strike 100, zero rate, [u = 2], [d = 1/2], so [q = 1/3] and
    [disc = 1]; terminal prices 25, 100, 400.  The values are obtained by
    running the loops. *)

Ltac run_pricer :=
  cbv beta iota delta [binomial_tree_slow binomial_tree_fast
    american_slow_tree american_fast_tree barrier_tree_slow barrier_tree_fast
    bind py_div];
  rewrite risk_neutral_r0, discount_r0;
  cbv - [Rplus Rmult Rminus Rdiv Rinv Ropp Rmax Rge_dec Rle_dec IZR].

Example binomial_slow_two_steps :
  binomial_tree_slow 100 1 100 0 2 2 (1 / 2) "C" = Ok (100 / 3).
Proof.
  run_pricer. eval_real.
Qed.

Example binomial_fast_two_steps :
  binomial_tree_fast 100 1 100 0 2 2 (1 / 2) "C" = Ok (100 / 3).
Proof.
  run_pricer. eval_real.
Qed.

Example american_slow_two_steps :
  american_slow_tree 100 1 100 0 2 2 (1 / 2) "P" = Ok (100 / 3).
Proof.
  run_pricer. eval_real.
Qed.

Example american_fast_two_steps :
  american_fast_tree 100 1 100 0 2 2 (1 / 2) "P" = Ok (100 / 3).
Proof.
  run_pricer. eval_real.
Qed.

Example barrier_slow_two_steps :
  barrier_tree_slow 100 1 100 500 0 2 2 (1 / 2) "C" = Ok (100 / 3) /\
  barrier_tree_slow 100 1 100 150 0 2 2 (1 / 2) "C" = Ok 0.
Proof.
  split.
  - rewrite barrier_tree_slow_lattice by lia.
    rewrite risk_neutral_r0, discount_r0.
    cbv - [Rplus Rmult Rminus Rdiv Rinv Ropp Rmax Rge_dec Rle_dec IZR].
    eval_real.
  - rewrite barrier_tree_slow_lattice by lia.
    rewrite risk_neutral_r0, discount_r0.
    cbv - [Rplus Rmult Rminus Rdiv Rinv Ropp Rmax Rge_dec Rle_dec IZR].
    eval_real.
Qed.

(** The node-wise barrier loop run directly, on one step. *)
Example barrier_slow_one_step :
  barrier_tree_slow 100 1 100 500 0 1 2 (1 / 2) "C" = Ok (100 / 3) /\
  barrier_tree_slow 100 1 100 150 0 1 2 (1 / 2) "C" = Ok 0.
Proof.
  split; run_pricer; eval_real.
Qed.

Example barrier_fast_two_steps :
  barrier_tree_fast 100 1 100 500 0 2 2 (1 / 2) "C" = Ok (100 / 3) /\
  barrier_tree_fast 100 1 100 150 0 2 2 (1 / 2) "C" = Ok 0.
Proof.
  split; run_pricer; eval_real.
Qed.

(** ** Each pricer as the backward recursion over its own node prices *)

Lemma lattice_ext (term1 term2 : nat -> R)
    (node1 node2 : nat -> nat -> R -> R -> R) (N k j : nat) :
  (forall j, (j <= N)%nat -> term1 j = term2 j) ->
  (forall i j a b, (j <= i)%nat -> (i < N)%nat ->
                   node1 i j a b = node2 i j a b) ->
  (k <= N)%nat -> (j <= N - k)%nat ->
  lattice term1 node1 N k j = lattice term2 node2 N k j.
Proof.
  intros Ht Hn Hk Hj.
  apply (lattice_rel_bounded eq); auto.
  intros i j' a b a' b' H1 H2 -> ->; auto.
Qed.

(** The two products of powers are one real number. *)
Lemma node_price_fast (S0 u d : R) (i j : nat) :
  node_price S0 u d i j = fast_price S0 u d i j.
Proof. unfold node_price, fast_price; ring. Qed.

Lemma iterated_price_pow (S0 u d : R) (N j : nat) :
  iterated_price S0 u d N j = S0 * d ^ N * (u / d) ^ j.
Proof.
  induction j as [|j IH]; simpl; [ring|].
  rewrite IH; unfold Rdiv; ring.
Qed.

(** The terminal array of [binomial_tree_slow] holds the iterated
    prices. *)
Lemma get_binomial_slow_prices (S0 u d : R) (N j : nat) :
  (j <= N)%nat ->
  get (binomial_slow_prices S0 u d N) j = iterated_price S0 u d N j.
Proof.
  intros Hj; unfold binomial_slow_prices, range.
  replace (N + 1 - 1)%nat with N by lia.
  destruct (binomial_slow_prices_iter S0 u d N N (le_n N)) as [_ Hg].
  rewrite Hg by auto.
  symmetry; apply iterated_price_pow.
Qed.

(** The American call and the up-and-out put are what the dispatch on
    [opttype] falls back to. *)
Lemma american_on_call (K q disc : R) (opttype : string)
    (price : nat -> nat -> R) (N k j : nat) :
  opttype <> "P"%string ->
  american_on K q disc opttype price N k j =
  american_call_on K q disc price N k j.
Proof.
  intros Hne; apply String.eqb_neq in Hne.
  unfold american_on, american_call_on.
  apply (lattice_rel eq).
  - intros j'; unfold exercise, call_payoff; now rewrite Hne.
  - intros i j' a b a' b' -> ->; unfold intrinsic; now rewrite Hne.
Qed.

Lemma barrier_on_put (K q disc : R) (opttype : string) (H : R)
    (price : nat -> nat -> R) (N k j : nat) :
  opttype <> "C"%string ->
  barrier_on K q disc opttype H price N k j =
  barrier_put_on K q disc H price N k j.
Proof.
  intros Hne; apply String.eqb_neq in Hne.
  unfold barrier_on, barrier_put_on.
  apply (lattice_rel eq).
  - intros j'; unfold put_payoff; now rewrite Hne.
  - intros i j' a b a' b' -> ->; reflexivity.
Qed.

Section OwnPrices.

Variables (K T S0 H r : R).
Variable N : nat.
Variables (u d : R).
Variable opttype : string.
Hypothesis HN : (1 <= N)%nat.

Lemma binomial_tree_slow_on :
  binomial_tree_slow K T S0 r N u d opttype =
  Ok (european_on K (risk_neutral r (T / INR N) u d)
        (discount r (T / INR N)) (iterated_price S0 u d) N N 0).
Proof.
  unfold binomial_tree_slow.
  rewrite py_div_pos by auto; simpl.
  rewrite binomial_slow_loop_run.
  rewrite (proj2 (binomial_slow_run_gen K S0 u d _ _ N N (le_n N))) by lia.
  f_equal; unfold european_on.
  apply lattice_ext; try lia.
  - intros j Hj; now rewrite get_binomial_slow_prices.
  - reflexivity.
Qed.

Lemma binomial_tree_fast_on :
  binomial_tree_fast K T S0 r N u d opttype =
  Ok (european_on K (risk_neutral r (T / INR N) u d)
        (discount r (T / INR N)) (fast_price S0 u d) N N 0).
Proof.
  rewrite binomial_tree_fast_lattice by auto.
  f_equal; unfold binomial_lattice, european_on.
  apply lattice_ext; try lia.
  - intros j Hj; unfold binomial_term; now rewrite node_price_fast.
  - reflexivity.
Qed.

Lemma american_slow_tree_on :
  american_slow_tree K T S0 r N u d opttype =
  Ok (american_on K (risk_neutral r (T / INR N) u d)
        (discount r (T / INR N)) opttype (node_price S0 u d) N N 0).
Proof.
  rewrite american_slow_tree_lattice by auto.
  f_equal; unfold american_lattice, american_on.
  apply lattice_ext; try lia.
  - reflexivity.
  - intros i j a b _ _; unfold american_node, intrinsic.
    now destruct (opttype =? "P")%string.
Qed.

Lemma american_fast_tree_on :
  american_fast_tree K T S0 r N u d opttype =
  Ok (american_on K (risk_neutral r (T / INR N) u d)
        (discount r (T / INR N)) opttype (fast_price S0 u d) N N 0).
Proof.
  rewrite american_fast_tree_lattice by auto.
  f_equal; unfold american_lattice, american_on.
  apply lattice_ext; try lia.
  - intros j Hj; unfold american_term, exercise.
    now rewrite node_price_fast.
  - intros i j a b _ _; unfold american_node, intrinsic.
    rewrite node_price_fast.
    now destruct (opttype =? "P")%string.
Qed.

Lemma barrier_tree_slow_on :
  barrier_tree_slow K T S0 H r N u d opttype =
  Ok (barrier_on K (risk_neutral r (T / INR N) u d)
        (discount r (T / INR N)) opttype H (node_price S0 u d) N N 0).
Proof. now rewrite barrier_tree_slow_lattice by auto. Qed.

Lemma barrier_tree_fast_on :
  barrier_tree_fast K T S0 H r N u d opttype =
  Ok (barrier_on K (risk_neutral r (T / INR N) u d)
        (discount r (T / INR N)) opttype H (fast_price S0 u d) N N 0).
Proof.
  rewrite barrier_tree_fast_lattice by auto.
  f_equal; unfold barrier_lattice, barrier_on.
  apply lattice_ext; try lia.
  - intros j Hj; unfold barrier_term; now rewrite node_price_fast.
  - intros i j a b _ _; unfold barrier_node; now rewrite node_price_fast.
Qed.

End OwnPrices.

(** ** The two execution strategies *)

Section RoundedStrategies.

Import PrimFloat.
Local Open Scope float_scope.
#[local] Set Warnings "-inexact-float".

(** On doubles, with [S0 = 100], [T = 1], [r = 0], [N = 1], [u = 1.1] and
    [d = 1/u], the upper terminal price is [110] by the repeated
    multiplication of [binomial_tree_slow] and [110.00000000000001] by the
    product of powers of [binomial_tree_fast].  With the strike [K = 110]
    the first pricer returns [0.0] and the second a positive price, so
    they agree within no relative tolerance below 1.  With [d = 0] the
    repeated multiplication is [0*2/0], not a number, and the two return
    [0.0] and [50.0]. *)
Lemma slow_fast_counterexample :
  let u := 1.1 in
  let d := 1 / 1.1 in
  Binary64.binomial_tree_slow 110 1 100 0 1 u d "C" = Some (Ok 0) /\
  Binary64.binomial_tree_fast 110 1 100 0 1 u d "C" =
    Some (Ok 6.7670736739057141e-15) /\
  Binary64.agree_within 1e-9 0 6.7670736739057141e-15 = false /\
  Binary64.binomial_tree_slow 100 1 100 0 1 2 0 "C" = Some (Ok 0) /\
  Binary64.binomial_tree_fast 100 1 100 0 1 2 0 "C" = Some (Ok 50).
Proof. vm_compute; repeat split. Qed.

End RoundedStrategies.

(** C1, amended.  For [N >= 1] the node-wise and the layer-wise pricer of
    a variant return the value of one and the same backward recursion
    ([european_on], [american_on], [barrier_on]), each over the node
    prices it computes itself: the layer-wise pricers over
    [S0 * d**(i-j) * u**j], the node-wise American and barrier pricers
    over [S0 * u**j * d**(i-j)], and [binomial_tree_slow] over the
    terminal prices [S[j] = S[j-1]*u/d] from [S[0] = S0 * d**N].  The two
    pricers of a pair differ by the way they compute these prices, and by
    nothing else. *)
Theorem strategies_share_recursion (K T S0 H r : R) (N : nat) (u d : R)
    (opttype : string) :
  (1 <= N)%nat ->
  let q := risk_neutral r (T / INR N) u d in
  let disc := discount r (T / INR N) in
  (binomial_tree_fast K T S0 r N u d opttype =
     Ok (european_on K q disc (fast_price S0 u d) N N 0) /\
   american_fast_tree K T S0 r N u d opttype =
     Ok (american_on K q disc opttype (fast_price S0 u d) N N 0) /\
   barrier_tree_fast K T S0 H r N u d opttype =
     Ok (barrier_on K q disc opttype H (fast_price S0 u d) N N 0)) /\
  (powers_in_range u d N ->
   binomial_tree_slow K T S0 r N u d opttype =
     Ok (european_on K q disc (iterated_price S0 u d) N N 0) /\
   american_slow_tree K T S0 r N u d opttype =
     Ok (american_on K q disc opttype (node_price S0 u d) N N 0) /\
   barrier_tree_slow K T S0 H r N u d opttype =
     Ok (barrier_on K q disc opttype H (node_price S0 u d) N N 0)).
Proof.
  intros HN q disc; split.
  - split; [|split].
    + now apply binomial_tree_fast_on.
    + now apply american_fast_tree_on.
    + now apply barrier_tree_fast_on.
  - intros _; split; [|split].
    + now apply binomial_tree_slow_on.
    + now apply american_slow_tree_on.
    + now apply barrier_tree_slow_on.
Qed.

Lemma strategies_share_recursion_witness :
  (1 <= 3)%nat /\ powers_in_range (11 / 10) (10 / 11) 3 /\
  let q := risk_neutral (6 / 100) (1 / INR 3) (11 / 10) (10 / 11) in
  let disc := discount (6 / 100) (1 / INR 3) in
  barrier_tree_fast 100 1 100 125 (6 / 100) 3 (11 / 10) (10 / 11) "C" =
    Ok (barrier_on 100 q disc "C" 125 (fast_price 100 (11 / 10) (10 / 11))
          3 3 0) /\
  barrier_tree_slow 100 1 100 125 (6 / 100) 3 (11 / 10) (10 / 11) "C" =
    Ok (barrier_on 100 q disc "C" 125 (node_price 100 (11 / 10) (10 / 11))
          3 3 0) /\
  binomial_tree_slow 100 1 100 (6 / 100) 3 (11 / 10) (10 / 11) "C" =
    Ok (european_on 100 q disc (iterated_price 100 (11 / 10) (10 / 11))
          3 3 0).
Proof.
  assert (H3 : (1 <= 3)%nat) by lia.
  assert (Hr : powers_in_range (11 / 10) (10 / 11) 3)
    by (apply powers_in_range_notebook; lia).
  split; [exact H3|]. split; [exact Hr|].
  pose proof (strategies_share_recursion 100 1 100 125 (6 / 100) 3 (11 / 10)
                (10 / 11) "C" H3) as [Hf Hs].
  split; [exact (proj2 (proj2 Hf))|].
  split; [exact (proj2 (proj2 (Hs Hr)))|].
  exact (proj1 (Hs Hr)).
Defined.

(** ** Calibration is not checked *)

(** With [u = 1/2 <= d = 2] the European pricer returns the number
    [100/3]. *)
Lemma invalid_calibration_counterexample :
  1 / 2 <= 2 /\
  binomial_tree_slow 100 1 100 0 1 (1 / 2) 2 "C" = Ok (100 / 3).
Proof.
  split; [lra|].
  rewrite binomial_tree_slow_lattice by (try lia; lra).
  rewrite risk_neutral_r0, discount_r0.
  unfold binomial_lattice, binomial_node, binomial_term, expectation,
    call_payoff, node_price; simpl.
  f_equal; eval_real.
Qed.

(** C7, amended.  With [u < d], [N >= 1] and powers within the range of a
    double, no pricer raises: none checks the calibration, and each
    returns the value of the backward recursion it computes for any other
    factors, with the probability [q = (exp(r*dt) - d)/(u - d)] as it
    comes. *)
Theorem no_calibration_check (K T S0 H r : R) (N : nat) (u d : R)
    (opttype : string) :
  (1 <= N)%nat -> u < d -> powers_in_range u d N ->
  let q := risk_neutral r (T / INR N) u d in
  let disc := discount r (T / INR N) in
  binomial_tree_slow K T S0 r N u d opttype =
    Ok (european_on K q disc (iterated_price S0 u d) N N 0) /\
  binomial_tree_fast K T S0 r N u d opttype =
    Ok (european_on K q disc (fast_price S0 u d) N N 0) /\
  american_slow_tree K T S0 r N u d opttype =
    Ok (american_on K q disc opttype (node_price S0 u d) N N 0) /\
  american_fast_tree K T S0 r N u d opttype =
    Ok (american_on K q disc opttype (fast_price S0 u d) N N 0) /\
  barrier_tree_slow K T S0 H r N u d opttype =
    Ok (barrier_on K q disc opttype H (node_price S0 u d) N N 0) /\
  barrier_tree_fast K T S0 H r N u d opttype =
    Ok (barrier_on K q disc opttype H (fast_price S0 u d) N N 0).
Proof.
  intros HN _ _ q disc.
  split; [now apply binomial_tree_slow_on|].
  split; [now apply binomial_tree_fast_on|].
  split; [now apply american_slow_tree_on|].
  split; [now apply american_fast_tree_on|].
  split; [now apply barrier_tree_slow_on|].
  now apply barrier_tree_fast_on.
Qed.

Lemma no_calibration_check_witness :
  (1 <= 1)%nat /\ 1 / 2 < 2 /\ powers_in_range (1 / 2) 2 1 /\
  binomial_tree_slow 100 1 100 0 1 (1 / 2) 2 "C" =
    Ok (european_on 100 (risk_neutral 0 (1 / INR 1) (1 / 2) 2)
          (discount 0 (1 / INR 1)) (iterated_price 100 (1 / 2) 2) 1 1 0) /\
  european_on 100 (risk_neutral 0 (1 / INR 1) (1 / 2) 2)
    (discount 0 (1 / INR 1)) (iterated_price 100 (1 / 2) 2) 1 1 0 = 100 / 3.
Proof.
  assert (Hud : 1 / 2 < 2) by lra.
  assert (Hr : powers_in_range (1 / 2) 2 1).
  { apply (powers_in_range_intro (1 / 2) 2 2 1 1); try lra; try lia.
    - rewrite Rabs_pos_eq; lra.
    - rewrite Rabs_pos_eq; lra. }
  split; [exact (le_n 1)|]. split; [exact Hud|]. split; [exact Hr|].
  split.
  - exact (proj1 (no_calibration_check 100 1 100 125 0 1 (1 / 2) 2 "C"
                    (le_n 1) Hud Hr)).
  - rewrite risk_neutral_r0, discount_r0.
    unfold european_on, binomial_node, expectation, call_payoff; simpl.
    eval_real.
Defined.

(** ** Dispatch on the option kind *)

(** C10.  The option kind is compared with a string and never validated.
    For every [opttype] other than ["P"] the American pricers do what they
    do for ["C"], and for [N >= 1] they return the American call price:
    the backward recursion with the payoff [max(0, S - K)] at maturity and
    the comparison with [S - K] at every earlier node.  For every
    [opttype] other than ["C"], [barrier_tree_slow] does what it does for
    ["P"], and for [N >= 1] it returns the up-and-out put price: the
    recursion with the payoff [max(0, K - S)] at maturity, zero at every
    node at or above the barrier.  No value of [opttype] is rejected. *)
Theorem opttype_fallback (K T S0 H r : R) (N : nat) (u d : R)
    (opttype : string) :
  let q := risk_neutral r (T / INR N) u d in
  let disc := discount r (T / INR N) in
  (opttype <> "P"%string ->
   american_slow_tree K T S0 r N u d opttype =
   american_slow_tree K T S0 r N u d "C" /\
   american_fast_tree K T S0 r N u d opttype =
   american_fast_tree K T S0 r N u d "C" /\
   ((1 <= N)%nat ->
    american_fast_tree K T S0 r N u d opttype =
      Ok (american_call_on K q disc (fast_price S0 u d) N N 0) /\
    (powers_in_range u d N ->
     american_slow_tree K T S0 r N u d opttype =
       Ok (american_call_on K q disc (node_price S0 u d) N N 0)))) /\
  (opttype <> "C"%string ->
   barrier_tree_slow K T S0 H r N u d opttype =
   barrier_tree_slow K T S0 H r N u d "P" /\
   ((1 <= N)%nat -> powers_in_range u d N ->
    barrier_tree_slow K T S0 H r N u d opttype =
      Ok (barrier_put_on K q disc H (node_price S0 u d) N N 0))).
Proof.
  intros q disc; split.
  - intros Hne; split; [|split].
    + apply String.eqb_neq in Hne.
      unfold american_slow_tree, american_slow_loop, american_slow_payoff,
        american_slow_layer, american_slow_node.
      rewrite Hne; reflexivity.
    + apply String.eqb_neq in Hne.
      unfold american_fast_tree, american_fast_loop, american_fast_payoff,
        american_fast_layer.
      rewrite Hne; reflexivity.
    + intros HN; split.
      * rewrite american_fast_tree_on by auto.
        f_equal; now apply american_on_call.
      * intros _; rewrite american_slow_tree_on by auto.
        f_equal; now apply american_on_call.
  - intros Hne; split.
    + apply String.eqb_neq in Hne.
      unfold barrier_tree_slow, barrier_slow_loop, barrier_slow_payoff.
      rewrite Hne; reflexivity.
    + intros HN _; rewrite barrier_tree_slow_on by auto.
      f_equal; now apply barrier_on_put.
Qed.

Lemma opttype_fallback_witness :
  ("put" <> "P")%string /\ ("call" <> "C")%string /\ (1 <= 3)%nat /\
  powers_in_range (11 / 10) (10 / 11) 3 /\
  let q := risk_neutral (6 / 100) (1 / INR 3) (11 / 10) (10 / 11) in
  let disc := discount (6 / 100) (1 / INR 3) in
  american_slow_tree 100 1 100 (6 / 100) 3 (11 / 10) (10 / 11) "put" =
    Ok (american_call_on 100 q disc (node_price 100 (11 / 10) (10 / 11))
          3 3 0) /\
  american_fast_tree 100 1 100 (6 / 100) 3 (11 / 10) (10 / 11) "put" =
    Ok (american_call_on 100 q disc (fast_price 100 (11 / 10) (10 / 11))
          3 3 0) /\
  barrier_tree_slow 100 1 100 125 (6 / 100) 3 (11 / 10) (10 / 11) "call" =
    Ok (barrier_put_on 100 q disc 125 (node_price 100 (11 / 10) (10 / 11))
          3 3 0).
Proof.
  assert (Hp : ("put" <> "P")%string) by discriminate.
  assert (Hc : ("call" <> "C")%string) by discriminate.
  assert (H3 : (1 <= 3)%nat) by lia.
  assert (Hr : powers_in_range (11 / 10) (10 / 11) 3)
    by (apply powers_in_range_notebook; lia).
  split; [exact Hp|]. split; [exact Hc|]. split; [exact H3|].
  split; [exact Hr|].
  pose proof (opttype_fallback 100 1 100 125 (6 / 100) 3 (11 / 10) (10 / 11)
                "put") as [Ha _].
  pose proof (opttype_fallback 100 1 100 125 (6 / 100) 3 (11 / 10) (10 / 11)
                "call") as [_ Hb].
  destruct (Ha Hp) as (_ & _ & Hcall).
  destruct (Hcall H3) as [Hfast Hslow].
  split; [exact (Hslow Hr)|]. split; [exact Hfast|].
  exact (proj2 (Hb Hc) H3 Hr).
Defined.

(** * Further properties of the pricers *)

(** ** Lattice geometry *)

Lemma node_price_pos (S0 u d : R) (i j : nat) :
  0 < S0 -> 0 < u -> 0 < d -> 0 < node_price S0 u d i j.
Proof.
  intros HS Hu Hd; unfold node_price.
  repeat apply Rmult_lt_0_compat; auto using pow_lt.
Qed.

Lemma node_price_step (S0 u d : R) (i j : nat) :
  (j < i)%nat ->
  node_price S0 u d i j * u = node_price S0 u d i (j + 1) * d.
Proof.
  intros Hj; unfold node_price.
  replace (i - j)%nat with (S (i - (j + 1))) by lia.
  replace (j + 1)%nat with (S j) by lia.
  simpl; ring.
Qed.

Lemma node_price_increasing (S0 u d : R) (i j : nat) :
  0 < S0 -> 0 < d -> d < u -> (j < i)%nat ->
  node_price S0 u d i j < node_price S0 u d i (j + 1).
Proof.
  intros HS Hd Hu Hj.
  assert (Hu0 : 0 < u) by lra.
  pose proof (node_price_pos S0 u d i j HS Hu0 Hd) as Hp.
  pose proof (node_price_pos S0 u d i (j + 1) HS Hu0 Hd) as Hp'.
  pose proof (node_price_step S0 u d i j Hj) as E.
  apply Rmult_lt_reg_r with d; auto.
  rewrite <- E.
  apply Rmult_lt_compat_l; auto.
Qed.

(** X1.  With a positive spot and [0 < d < u], the terminal price array of
    every pricer is strictly increasing in the node index. *)
Theorem terminal_prices_increasing (S0 u d : R) (N j : nat) :
  0 < S0 -> 0 < d -> d < u -> (j < N)%nat ->
  get (layer_prices S0 u d N) j < get (layer_prices S0 u d N) (j + 1) /\
  get (american_slow_prices S0 u d N) j <
    get (american_slow_prices S0 u d N) (j + 1) /\
  get (barrier_slow_prices S0 u d N) j <
    get (barrier_slow_prices S0 u d N) (j + 1) /\
  get (binomial_slow_prices S0 u d N) j <
    get (binomial_slow_prices S0 u d N) (j + 1).
Proof.
  intros HS Hd Hu Hj.
  pose proof (node_price_increasing S0 u d N j HS Hd Hu Hj) as Hinc.
  assert (Hd0 : d <> 0) by lra.
  change (barrier_slow_prices S0 u d N) with (american_slow_prices S0 u d N).
  rewrite !layer_prices_node by lia.
  rewrite !(proj2 (american_slow_prices_spec S0 u d N)) by lia.
  rewrite !(proj2 (binomial_slow_prices_spec S0 u d N Hd0)) by lia.
  repeat split; exact Hinc.
Qed.

Lemma terminal_prices_increasing_witness :
  0 < 100 /\ 0 < 10 / 11 /\ 10 / 11 < 11 / 10 /\ (1 < 3)%nat /\
  get (layer_prices 100 (11 / 10) (10 / 11) 3) 1 <
  get (layer_prices 100 (11 / 10) (10 / 11) 3) (1 + 1).
Proof.
  assert (H1 : 0 < 100) by lra.
  assert (H2 : 0 < 10 / 11) by lra.
  assert (H3 : 10 / 11 < 11 / 10) by lra.
  assert (H4 : (1 < 3)%nat) by lia.
  split; [exact H1|]. split; [exact H2|]. split; [exact H3|].
  split; [exact H4|].
  exact (proj1 (terminal_prices_increasing 100 (11 / 10) (10 / 11) 3 1
                  H1 H2 H3 H4)).
Defined.

(** ** Barrier pricers: terminal layer, spot and barrier level *)

(** X4.  At maturity both barrier pricers store 0 in every node whose
    price has reached the barrier and the vanilla payoff of the kind in
    every other node: the call payoff for ['C'], the put payoff
    otherwise. *)
Theorem barrier_terminal_layer (K S0 u d q disc : R) (opttype : string)
    (H : R) (N j : nat) :
  (j <= N)%nat ->
  let S := node_price S0 u d N j in
  let payoff := if (opttype =? "C")%string
                then Rmax 0 (S - K) else Rmax 0 (K - S) in
  get (barrier_slow_run K S0 u d q disc opttype H N 0) j =
    (if Rge_dec S H then 0 else payoff) /\
  get (barrier_fast_run K S0 u d q disc opttype H N 0) j =
    (if Rge_dec S H then 0 else payoff).
Proof.
  intros Hj S payoff.
  assert (E : barrier_term K S0 u d opttype H N j =
              if Rge_dec S H then 0 else payoff).
  { unfold barrier_term, payoff, S, call_payoff, put_payoff.
    destruct (Rge_dec _ H); auto. }
  split.
  - unfold barrier_slow_run; simpl.
    now rewrite (proj2 (barrier_slow_init K S0 u d opttype H N)) by auto.
  - unfold barrier_fast_run; simpl.
    now rewrite (proj2 (barrier_fast_init K S0 u d opttype H N)) by auto.
Qed.

Lemma barrier_terminal_layer_witness :
  (1 <= 1)%nat /\
  get (barrier_fast_run 100 100 2 (1 / 2) (1 / 3) 1 "C" 150 1 0) 1 =
  (if Rge_dec (node_price 100 2 (1 / 2) 1 1) 150 then 0
   else Rmax 0 (node_price 100 2 (1 / 2) 1 1 - 100)).
Proof.
  split; [exact (le_n 1)|].
  exact (proj2 (barrier_terminal_layer 100 100 2 (1 / 2) (1 / 3) 1 "C" 150
                  1 1 (le_n 1))).
Defined.

(** X5.  When the spot is already at or above the barrier, both barrier
    pricers return 0, whatever the other parameters. *)
Theorem barrier_spot_knocked_out (K T S0 H r : R) (N : nat) (u d : R)
    (opttype : string) :
  (1 <= N)%nat -> S0 >= H ->
  barrier_tree_slow K T S0 H r N u d opttype = Ok 0 /\
  barrier_tree_fast K T S0 H r N u d opttype = Ok 0.
Proof.
  intros HN HS.
  rewrite barrier_tree_slow_lattice, barrier_tree_fast_lattice by auto.
  assert (E : forall q disc,
             barrier_lattice K S0 u d q disc opttype H N N 0 = 0).
  { intros q disc; unfold barrier_lattice.
    destruct N as [|n]; [lia|]; simpl.
    unfold barrier_node at 1.
    replace (n - 0 - n)%nat with 0%nat by lia.
    unfold node_price; simpl.
    destruct (Rge_dec (S0 * 1 * 1) H) as [_|Hn]; auto.
    exfalso; apply Hn; lra. }
  now rewrite E.
Qed.

Lemma barrier_spot_knocked_out_witness :
  (1 <= 3)%nat /\ 130 >= 125 /\
  barrier_tree_slow 100 1 130 125 (6 / 100) 3 (11 / 10) (10 / 11) "C" = Ok 0.
Proof.
  assert (H3 : (1 <= 3)%nat) by lia.
  assert (HS : 130 >= 125) by lra.
  split; [exact H3|]. split; [exact HS|].
  exact (proj1 (barrier_spot_knocked_out 100 1 130 125 (6 / 100) 3 (11 / 10)
                  (10 / 11) "C" H3 HS)).
Defined.

(** X6.  A barrier above every node price of the tree never knocks out:
    for the call, [barrier_tree_fast] then returns exactly what
    [binomial_tree_fast] returns.  Both build the node prices by the one
    expression [S0 * d**(i-j) * u**j]. *)
Theorem barrier_unreachable_is_vanilla (K T S0 H r : R) (N : nat)
    (u d : R) :
  (1 <= N)%nat ->
  (forall i j, (j <= i)%nat -> (i <= N)%nat -> fast_price S0 u d i j < H) ->
  barrier_tree_fast K T S0 H r N u d "C" =
  binomial_tree_fast K T S0 r N u d "C".
Proof.
  intros HN Hlow.
  rewrite barrier_tree_fast_on, binomial_tree_fast_on by auto.
  f_equal; unfold barrier_on, european_on.
  apply lattice_ext; try lia.
  - intros j Hj.
    destruct (Rge_dec _ H) as [Hge|_]; [|reflexivity].
    pose proof (Hlow N j Hj (le_n N)); lra.
  - intros i j a b Hj Hi; unfold binomial_node.
    destruct (Rge_dec _ H) as [Hge|_]; [|reflexivity].
    assert (Hi' : (i <= N)%nat) by lia.
    pose proof (Hlow i j Hj Hi'); lra.
Qed.

Lemma barrier_unreachable_is_vanilla_witness :
  (1 <= 1)%nat /\
  (forall i j, (j <= i)%nat -> (i <= 1)%nat ->
               fast_price 100 2 (1 / 2) i j < 500) /\
  barrier_tree_fast 100 1 100 500 0 1 2 (1 / 2) "C" =
  binomial_tree_fast 100 1 100 0 1 2 (1 / 2) "C".
Proof.
  assert (Hlow : forall i j, (j <= i)%nat -> (i <= 1)%nat ->
                             fast_price 100 2 (1 / 2) i j < 500).
  { intros i j Hj Hi; unfold fast_price.
    destruct i as [|[|i]]; [| |lia].
    - replace j with 0%nat by lia; simpl; lra.
    - destruct j as [|[|j]]; [| |lia]; simpl; lra. }
  split; [exact (le_n 1)|]. split; [exact Hlow|].
  exact (barrier_unreachable_is_vanilla 100 1 100 500 0 1 2 (1 / 2)
           (le_n 1) Hlow).
Defined.

(** X7.  Under [0 < q < 1], raising the barrier level never lowers the
    price returned by either barrier pricer, for calls and puts alike. *)
Theorem barrier_monotone_in_level (K T S0 H H' r : R) (N : nat) (u d : R)
    (opttype : string) :
  (1 <= N)%nat -> 0 < risk_neutral r (T / INR N) u d < 1 -> H <= H' ->
  result_le (barrier_tree_slow K T S0 H r N u d opttype)
            (barrier_tree_slow K T S0 H' r N u d opttype) /\
  result_le (barrier_tree_fast K T S0 H r N u d opttype)
            (barrier_tree_fast K T S0 H' r N u d opttype).
Proof.
  intros HN [Hq0 Hq1] HH.
  rewrite !barrier_tree_slow_lattice, !barrier_tree_fast_lattice by auto.
  set (q := risk_neutral r (T / INR N) u d) in *.
  set (disc := discount r (T / INR N)).
  assert (Hd : 0 <= disc) by (left; apply discount_pos).
  assert (Hq0' : 0 <= q) by lra.
  assert (Hq1' : q <= 1) by lra.
  assert (E : barrier_lattice K S0 u d q disc opttype H N N 0 <=
              barrier_lattice K S0 u d q disc opttype H' N N 0).
  { unfold barrier_lattice.
    apply (lattice_rel (fun a b => 0 <= a <= b)).
    - intros j; unfold barrier_term.
      assert (Hp : 0 <= (if (opttype =? "C")%string
                         then call_payoff K (node_price S0 u d N j)
                         else put_payoff K (node_price S0 u d N j))).
      { destruct (opttype =? "C")%string; apply Rmax_l. }
      destruct (Rge_dec _ H), (Rge_dec _ H'); lra.
    - intros i j a b a' b' Ha Hb; unfold barrier_node.
      pose proof (expectation_mono q disc Hq0' Hq1' Hd a b a' b'
                    (proj2 Ha) (proj2 Hb)).
      pose proof (expectation_nonneg q disc Hq0' Hq1' Hd a b
                    (proj1 Ha) (proj1 Hb)).
      destruct (Rge_dec _ H), (Rge_dec _ H'); lra. }
  simpl; split; exact E.
Qed.

Lemma barrier_monotone_in_level_witness :
  (1 <= 1)%nat /\ 0 < risk_neutral 0 (1 / INR 1) 2 (1 / 2) < 1 /\
  150 <= 500 /\
  result_le (barrier_tree_slow 100 1 100 150 0 1 2 (1 / 2) "C")
            (barrier_tree_slow 100 1 100 500 0 1 2 (1 / 2) "C").
Proof.
  assert (Hq : 0 < risk_neutral 0 (1 / INR 1) 2 (1 / 2) < 1)
    by (rewrite risk_neutral_r0; lra).
  assert (HH : 150 <= 500) by lra.
  split; [exact (le_n 1)|]. split; [exact Hq|]. split; [exact HH|].
  exact (proj1 (barrier_monotone_in_level 100 1 100 150 500 0 1 2 (1 / 2) "C"
                  (le_n 1) Hq HH)).
Defined.

(** X8.  [barrier_tree_fast] dispatches like [barrier_tree_slow]: for
    every option kind other than ['C'] it does what it does for ['P'], and
    for [N >= 1] it returns the up-and-out put price, the backward
    recursion with the payoff [max(0, K - S)] at maturity and zero at
    every node at or above the barrier. *)
Theorem barrier_fast_fallback (K T S0 H r : R) (N : nat) (u d : R)
    (opttype : string) :
  opttype <> "C"%string ->
  barrier_tree_fast K T S0 H r N u d opttype =
  barrier_tree_fast K T S0 H r N u d "P" /\
  ((1 <= N)%nat ->
   barrier_tree_fast K T S0 H r N u d opttype =
   Ok (barrier_put_on K (risk_neutral r (T / INR N) u d)
         (discount r (T / INR N)) H (fast_price S0 u d) N N 0)).
Proof.
  intros Hne; split.
  - apply String.eqb_neq in Hne.
    unfold barrier_tree_fast, barrier_fast_loop, barrier_fast_payoff.
    rewrite Hne; reflexivity.
  - intros HN; rewrite barrier_tree_fast_on by auto.
    f_equal; now apply barrier_on_put.
Qed.

Lemma barrier_fast_fallback_witness :
  ("c" <> "C")%string /\ (1 <= 3)%nat /\
  barrier_tree_fast 100 1 100 125 (6 / 100) 3 (11 / 10) (10 / 11) "c" =
  Ok (barrier_put_on 100
        (risk_neutral (6 / 100) (1 / INR 3) (11 / 10) (10 / 11))
        (discount (6 / 100) (1 / INR 3)) 125
        (fast_price 100 (11 / 10) (10 / 11)) 3 3 0).
Proof.
  assert (Hc : ("c" <> "C")%string) by discriminate.
  assert (H3 : (1 <= 3)%nat) by lia.
  split; [exact Hc|]. split; [exact H3|].
  exact (proj2 (barrier_fast_fallback 100 1 100 125 (6 / 100) 3 (11 / 10)
                  (10 / 11) "c" Hc) H3).
Defined.

(** ** American and European pricers: exercise value and strike *)

(** X9.  The price an American pricer returns is never below the value
    of exercising at once, [K - S0] for the put ['P'] and [S0 - K]
    otherwise, whatever the calibration with [u <> d]. *)
Theorem american_ge_intrinsic (K T S0 r : R) (N : nat) (u d : R)
    (opttype : string) :
  (1 <= N)%nat -> u <> d ->
  result_le (Ok (intrinsic K opttype S0))
            (american_fast_tree K T S0 r N u d opttype) /\
  (powers_in_range u d N ->
   result_le (Ok (intrinsic K opttype S0))
             (american_slow_tree K T S0 r N u d opttype)).
Proof.
  intros HN _.
  rewrite american_slow_tree_lattice, american_fast_tree_lattice by auto.
  assert (E : intrinsic K opttype S0 <=
              american_lattice K S0 u d (risk_neutral r (T / INR N) u d)
                (discount r (T / INR N)) opttype N N 0).
  { unfold american_lattice.
    destruct N as [|n]; [lia|]; simpl.
    unfold american_node at 1, intrinsic.
    replace (n - 0 - n)%nat with 0%nat by lia.
    unfold node_price; simpl.
    replace (S0 * 1 * 1) with S0 by ring.
    destruct (opttype =? "P")%string; apply Rmax_r. }
  split; [exact E|intros _; exact E].
Qed.

Lemma american_ge_intrinsic_witness :
  (1 <= 3)%nat /\ 11 / 10 <> 10 / 11 /\
  powers_in_range (11 / 10) (10 / 11) 3 /\
  result_le (Ok (intrinsic 100 "P" 90))
    (american_fast_tree 100 1 90 (6 / 100) 3 (11 / 10) (10 / 11) "P") /\
  result_le (Ok (intrinsic 100 "P" 90))
    (american_slow_tree 100 1 90 (6 / 100) 3 (11 / 10) (10 / 11) "P").
Proof.
  assert (H3 : (1 <= 3)%nat) by lia.
  assert (Hr : powers_in_range (11 / 10) (10 / 11) 3)
    by (apply powers_in_range_notebook; lia).
  assert (Hud : 11 / 10 <> 10 / 11) by lra.
  split; [exact H3|]. split; [exact Hud|]. split; [exact Hr|].
  pose proof (american_ge_intrinsic 100 1 90 (6 / 100) 3 (11 / 10) (10 / 11)
                "P" H3 Hud) as [Hf Hs].
  split; [exact Hf|exact (Hs Hr)].
Defined.

Lemma call_payoff_antitone (K K' S : R) :
  K <= K' -> call_payoff K' S <= call_payoff K S.
Proof. intros HK; unfold call_payoff; eval_real. Qed.

Lemma put_payoff_monotone (K K' S : R) :
  K <= K' -> put_payoff K S <= put_payoff K' S.
Proof. intros HK; unfold put_payoff; eval_real. Qed.

(** X10.  Under [0 < q < 1] a higher strike never raises the European
    call price returned by either vanilla pricer. *)
Theorem european_call_antitone_in_strike (K K' T S0 r : R) (N : nat)
    (u d : R) (opttype : string) :
  (1 <= N)%nat -> 0 < risk_neutral r (T / INR N) u d < 1 -> K <= K' ->
  result_le (binomial_tree_fast K' T S0 r N u d opttype)
            (binomial_tree_fast K T S0 r N u d opttype) /\
  (d <> 0 ->
   result_le (binomial_tree_slow K' T S0 r N u d opttype)
             (binomial_tree_slow K T S0 r N u d opttype)).
Proof.
  intros HN [Hq0 Hq1] HK.
  set (q := risk_neutral r (T / INR N) u d) in *.
  set (disc := discount r (T / INR N)).
  assert (Hd : 0 <= disc) by (left; apply discount_pos).
  assert (Hq0' : 0 <= q) by lra.
  assert (Hq1' : q <= 1) by lra.
  assert (E : binomial_lattice K' S0 u d q disc N N 0 <=
              binomial_lattice K S0 u d q disc N N 0).
  { unfold binomial_lattice; apply (lattice_rel Rle).
    - intros j; unfold binomial_term; now apply call_payoff_antitone.
    - intros i j a b a' b' Ha Hb; unfold binomial_node.
      now apply expectation_mono. }
  split.
  - rewrite !binomial_tree_fast_lattice by auto; exact E.
  - intros Hd0; rewrite !binomial_tree_slow_lattice by auto; exact E.
Qed.

Lemma european_call_antitone_in_strike_witness :
  (1 <= 1)%nat /\ 0 < risk_neutral 0 (1 / INR 1) 2 (1 / 2) < 1 /\
  100 <= 150 /\
  result_le (binomial_tree_fast 150 1 100 0 1 2 (1 / 2) "C")
            (binomial_tree_fast 100 1 100 0 1 2 (1 / 2) "C").
Proof.
  assert (Hq : 0 < risk_neutral 0 (1 / INR 1) 2 (1 / 2) < 1)
    by (rewrite risk_neutral_r0; lra).
  assert (HK : 100 <= 150) by lra.
  split; [exact (le_n 1)|]. split; [exact Hq|]. split; [exact HK|].
  exact (proj1 (european_call_antitone_in_strike 100 150 1 100 0 1 2 (1 / 2)
                  "C" (le_n 1) Hq HK)).
Defined.

(** X11.  Under [0 < q < 1] a higher strike never lowers the American put
    price and never raises the American call price, in either pricer. *)
Theorem american_monotone_in_strike (K K' T S0 r : R) (N : nat) (u d : R)
    (opttype : string) :
  (1 <= N)%nat -> 0 < risk_neutral r (T / INR N) u d < 1 -> K <= K' ->
  (opttype = "P"%string ->
   result_le (american_slow_tree K T S0 r N u d opttype)
             (american_slow_tree K' T S0 r N u d opttype) /\
   result_le (american_fast_tree K T S0 r N u d opttype)
             (american_fast_tree K' T S0 r N u d opttype)) /\
  (opttype <> "P"%string ->
   result_le (american_slow_tree K' T S0 r N u d opttype)
             (american_slow_tree K T S0 r N u d opttype) /\
   result_le (american_fast_tree K' T S0 r N u d opttype)
             (american_fast_tree K T S0 r N u d opttype)).
Proof.
  intros HN [Hq0 Hq1] HK.
  rewrite !american_slow_tree_lattice, !american_fast_tree_lattice by auto.
  set (q := risk_neutral r (T / INR N) u d) in *.
  set (disc := discount r (T / INR N)).
  assert (Hd : 0 <= disc) by (left; apply discount_pos).
  assert (Hq0' : 0 <= q) by lra.
  assert (Hq1' : q <= 1) by lra.
  split.
  - intros ->.
    assert (E : american_lattice K S0 u d q disc "P" N N 0 <=
                american_lattice K' S0 u d q disc "P" N N 0).
    { unfold american_lattice; apply (lattice_rel Rle).
      - intros j; unfold american_term; simpl.
        now apply put_payoff_monotone.
      - intros i j a b a' b' Ha Hb; unfold american_node; simpl.
        pose proof (expectation_mono q disc Hq0' Hq1' Hd a b a' b' Ha Hb).
        eval_real. }
    simpl; split; exact E.
  - intros Hne; apply String.eqb_neq in Hne.
    assert (E : american_lattice K' S0 u d q disc opttype N N 0 <=
                american_lattice K S0 u d q disc opttype N N 0).
    { unfold american_lattice; apply (lattice_rel Rle).
      - intros j; unfold american_term; rewrite Hne.
        now apply call_payoff_antitone.
      - intros i j a b a' b' Ha Hb; unfold american_node; rewrite Hne.
        pose proof (expectation_mono q disc Hq0' Hq1' Hd a b a' b' Ha Hb).
        eval_real. }
    simpl; split; exact E.
Qed.

Lemma american_monotone_in_strike_witness :
  (1 <= 1)%nat /\ 0 < risk_neutral 0 (1 / INR 1) 2 (1 / 2) < 1 /\
  100 <= 150 /\ "P"%string = "P"%string /\ ("C" <> "P")%string /\
  result_le (american_slow_tree 100 1 100 0 1 2 (1 / 2) "P")
            (american_slow_tree 150 1 100 0 1 2 (1 / 2) "P") /\
  result_le (american_fast_tree 150 1 100 0 1 2 (1 / 2) "C")
            (american_fast_tree 100 1 100 0 1 2 (1 / 2) "C").
Proof.
  assert (Hq : 0 < risk_neutral 0 (1 / INR 1) 2 (1 / 2) < 1)
    by (rewrite risk_neutral_r0; lra).
  assert (HK : 100 <= 150) by lra.
  assert (Hc : ("C" <> "P")%string) by discriminate.
  split; [exact (le_n 1)|]. split; [exact Hq|]. split; [exact HK|].
  split; [exact eq_refl|]. split; [exact Hc|].
  split.
  - exact (proj1 (proj1 (american_monotone_in_strike 100 150 1 100 0 1 2
                           (1 / 2) "P" (le_n 1) Hq HK) eq_refl)).
  - exact (proj2 (proj2 (american_monotone_in_strike 100 150 1 100 0 1 2
                           (1 / 2) "C" (le_n 1) Hq HK) Hc)).
Defined.

(** ** The timing wrapper and the benchmark loops *)

Lemma timing_ok {A B} (name : string) (f : A -> result B) (args : A)
    (w : world A) (v : B) :
  f args = Ok v ->
  timing name f args w =
  (Ok v,
   World (now w) (reads w + 2)
     (printed w ++
      [Line name args (now w (reads w + 1)%nat - now w (reads w))])).
Proof.
  intros E; unfold timing, read_clock, print_line; rewrite E; simpl.
  now replace (S (S (reads w))) with (reads w + 2)%nat by lia;
    replace (S (reads w)) with (reads w + 1)%nat by lia.
Qed.

Lemma timing_raise {A B} (name : string) (f : A -> result B) (args : A)
    (w : world A) (e : exn) :
  f args = Raise e ->
  timing name f args w =
  (Raise e, World (now w) (reads w + 1) (printed w)).
Proof.
  intros E; unfold timing, read_clock; rewrite E; simpl.
  now replace (S (reads w)) with (reads w + 1)%nat by lia.
Qed.

(** The wrapper is transparent: the wrapped call returns or raises
    exactly what the function does, whatever the clock.  When the function
    returns, the clock has been read twice and exactly one line has been
    printed, carrying the function's name, its arguments and the
    difference of the two readings; when it raises, the clock has been
    read once and nothing has been printed. *)
Theorem timing_wrapper {A B} (name : string) (f : A -> result B) (args : A)
    (w : world A) :
  fst (timing name f args w) = f args /\
  now (snd (timing name f args w)) = now w /\
  (forall v, f args = Ok v ->
     reads (snd (timing name f args w)) = (reads w + 2)%nat /\
     printed (snd (timing name f args w)) =
       printed w ++
       [Line name args (now w (reads w + 1)%nat - now w (reads w))]) /\
  (forall e, f args = Raise e ->
     reads (snd (timing name f args w)) = (reads w + 1)%nat /\
     printed (snd (timing name f args w)) = printed w).
Proof.
  destruct (f args) as [v|e] eqn:E.
  - rewrite (timing_ok name f args w v E); simpl.
    repeat split; try discriminate; intros v' Hv; now inversion Hv.
  - rewrite (timing_raise name f args w e E); simpl.
    repeat split; try discriminate; intros e' He; now inversion He.
Qed.

Lemma timing_wrapper_witness :
  let w := World (fun n => INR n) 0 [] in
  let call := timed_american_slow_tree
                ((100, 1, 100, 0, 1%nat, 2, 1 / 2), "P"%string) w in
  american_slow_tree 100 1 100 0 1 2 (1 / 2) "P" = Ok (100 / 3) /\
  reads (snd call) = (0 + 2)%nat /\
  printed (snd call) =
    [] ++ [Line "american_slow_tree"
             ((100, 1, 100, 0, 1%nat, 2, 1 / 2), "P"%string)
             (INR (0 + 1) - INR 0)].
Proof.
  cbv zeta.
  assert (E : american_slow_tree 100 1 100 0 1 2 (1 / 2) "P" = Ok (100 / 3)).
  { run_pricer; eval_real. }
  split; [exact E|].
  exact (proj1 (proj2 (proj2 (timing_wrapper "american_slow_tree"
    (fun a : vanilla_args =>
       let '((K, T, S0, r, N, u, d), opttype) := a in
       american_slow_tree K T S0 r N u d opttype)
    ((100, 1, 100, 0, 1%nat, 2, 1 / 2), "P"%string)
    (World (fun n => INR n) 0 [])))) (100 / 3) E).
Defined.

(** A loop of two timed calls per step count, when every call returns. *)
Lemma sweep_timed_ok {A} (name1 name2 : string) (f1 f2 : A -> result R)
    (args : nat -> A) (Ns : list nat) (w : world A) :
  (forall N, In N Ns ->
             returns (f1 (args N)) /\ returns (f2 (args N))) ->
  sweep (fun N => call_both (timing name1 f1 (args N))
                            (timing name2 f2 (args N))) Ns w =
  (Ok tt,
   World (now w) (reads w + 4 * length Ns)
     (printed w ++ sweep_lines name1 name2 args (now w) (reads w) Ns)).
Proof.
  revert w; induction Ns as [|N rest IH]; intros w Hret.
  - simpl; rewrite Nat.add_0_r, app_nil_r; now destruct w.
  - destruct (Hret N (or_introl eq_refl)) as [[v1 E1] [v2 E2]].
    cbn [sweep]; unfold call_both.
    rewrite (timing_ok name1 f1 (args N) w v1 E1).
    rewrite (timing_ok name2 f2 (args N) _ v2 E2).
    rewrite IH by (intros N' HN'; apply Hret; now right).
    cbn [now reads printed sweep_lines length].
    replace (reads w + 2 + 1)%nat with (reads w + 3)%nat by lia.
    replace (reads w + 2 + 2)%nat with (reads w + 4)%nat by lia.
    rewrite <- !app_assoc; cbn [app].
    f_equal; f_equal; lia.
Qed.

(** The same loop, when the first call of some step count raises. *)
Lemma sweep_timed_raise {A} (name1 name2 : string) (f1 f2 : A -> result R)
    (args : nat -> A) (pre post : list nat) (N0 : nat) (e : exn)
    (w : world A) :
  (forall N, In N pre ->
             returns (f1 (args N)) /\ returns (f2 (args N))) ->
  f1 (args N0) = Raise e ->
  sweep (fun N => call_both (timing name1 f1 (args N))
                            (timing name2 f2 (args N)))
        (pre ++ N0 :: post) w =
  (Raise e,
   World (now w) (reads w + 4 * length pre + 1)
     (printed w ++ sweep_lines name1 name2 args (now w) (reads w) pre)).
Proof.
  revert w; induction pre as [|N rest IH]; intros w Hret E0.
  - cbn [app sweep]; unfold call_both.
    rewrite (timing_raise name1 f1 (args N0) w e E0).
    cbn [sweep_lines length]; rewrite app_nil_r.
    f_equal; f_equal; lia.
  - destruct (Hret N (or_introl eq_refl)) as [[v1 E1] [v2 E2]].
    cbn [app sweep]; unfold call_both.
    rewrite (timing_ok name1 f1 (args N) w v1 E1).
    rewrite (timing_ok name2 f2 (args N) _ v2 E2).
    rewrite IH by (auto; intros N' HN'; apply Hret; now right).
    cbn [now reads printed sweep_lines length].
    replace (reads w + 2 + 1)%nat with (reads w + 3)%nat by lia.
    replace (reads w + 2 + 2)%nat with (reads w + 4)%nat by lia.
    rewrite <- !app_assoc; cbn [app].
    f_equal; f_equal; lia.
Qed.

(** With [N >= 1] and powers within the range of a double, every pricer
    gets past [dt = T/N] and returns the root cell of its array. *)
Lemma pricers_return (K T S0 H r : R) (N : nat) (u d : R)
    (opttype : string) :
  (1 <= N)%nat -> powers_in_range u d N ->
  returns (binomial_tree_slow K T S0 r N u d opttype) /\
  returns (binomial_tree_fast K T S0 r N u d opttype) /\
  returns (american_slow_tree K T S0 r N u d opttype) /\
  returns (american_fast_tree K T S0 r N u d opttype) /\
  returns (barrier_tree_slow K T S0 H r N u d opttype) /\
  returns (barrier_tree_fast K T S0 H r N u d opttype).
Proof.
  intros HN _; unfold returns.
  rewrite binomial_tree_slow_on, binomial_tree_fast_on,
    american_slow_tree_on, american_fast_tree_on,
    (barrier_tree_slow_on K T S0 H), (barrier_tree_fast_on K T S0 H)
    by auto.
  repeat split; eexists; reflexivity.
Qed.

(** X14.  Over any list of step counts that are all at least 1, with
    powers within the range of a double, each comparison loop runs to its
    end and prints exactly two lines per step count, in the order of its
    two calls (slow then fast in the European and barrier notebooks, fast
    then slow in the American one), each with the arguments of the call
    and the time between two consecutive clock readings; the clock is
    read four times per step count. *)
Theorem benchmark_sweeps_complete (K T S0 H r u d : R) (Ns : list nat)
    (w : world vanilla_args) (wb : world barrier_args) :
  (forall N, In N Ns -> (1 <= N)%nat /\ powers_in_range u d N) ->
  binomial_sweep K T S0 r u d Ns w =
    (Ok tt,
     World (now w) (reads w + 4 * length Ns)
       (printed w ++
        sweep_lines "binomial_tree_slow" "binomial_tree_fast"
          (fun N => ((K, T, S0, r, N, u, d), "C"%string))
          (now w) (reads w) Ns)) /\
  american_sweep K T S0 r u d Ns w =
    (Ok tt,
     World (now w) (reads w + 4 * length Ns)
       (printed w ++
        sweep_lines "american_fast_tree" "american_slow_tree"
          (fun N => ((K, T, S0, r, N, u, d), "P"%string))
          (now w) (reads w) Ns)) /\
  barrier_sweep K T S0 H r u d Ns wb =
    (Ok tt,
     World (now wb) (reads wb + 4 * length Ns)
       (printed wb ++
        sweep_lines "barrier_tree_slow" "barrier_tree_fast"
          (fun N => ((K, T, S0, H, r, N, u, d), "C"%string))
          (now wb) (reads wb) Ns)).
Proof.
  intros Hpos.
  split; [|split].
  - unfold binomial_sweep, timed_binomial_tree_slow, timed_binomial_tree_fast.
    apply (sweep_timed_ok "binomial_tree_slow" "binomial_tree_fast" _ _
             (fun N => ((K, T, S0, r, N, u, d), "C"%string))).
    intros N HN; destruct (Hpos N HN) as [H1N HrN].
    destruct (pricers_return K T S0 H r N u d "C" H1N HrN)
      as (H1 & H2 & _).
    split; assumption.
  - unfold american_sweep, timed_american_slow_tree, timed_american_fast_tree.
    apply (sweep_timed_ok "american_fast_tree" "american_slow_tree" _ _
             (fun N => ((K, T, S0, r, N, u, d), "P"%string))).
    intros N HN; destruct (Hpos N HN) as [H1N HrN].
    destruct (pricers_return K T S0 H r N u d "P" H1N HrN)
      as (_ & _ & H3 & H4 & _).
    split; assumption.
  - unfold barrier_sweep, timed_barrier_tree_slow, timed_barrier_tree_fast.
    apply (sweep_timed_ok "barrier_tree_slow" "barrier_tree_fast" _ _
             (fun N => ((K, T, S0, H, r, N, u, d), "C"%string))).
    intros N HN; destruct (Hpos N HN) as [H1N HrN].
    destruct (pricers_return K T S0 H r N u d "C" H1N HrN)
      as (_ & _ & _ & _ & H5 & H6).
    split; assumption.
Qed.

Lemma notebook_steps_in_range (N : nat) :
  In N notebook_steps ->
  (1 <= N)%nat /\ powers_in_range (11 / 10) (10 / 11) N.
Proof.
  unfold notebook_steps.
  intros [<-|[<-|[<-|[<-|[<-|[]]]]]];
    (split; [apply le_n_S, Nat.le_0_l|apply powers_in_range_notebook; lia]).
Qed.

Lemma benchmark_sweeps_complete_witness :
  (forall N, In N notebook_steps ->
             (1 <= N)%nat /\ powers_in_range (11 / 10) (10 / 11) N) /\
  american_sweep 100 1 100 (6 / 100) (11 / 10) (10 / 11) notebook_steps
    (World (fun n => INR n) 0 []) =
  (Ok tt,
   World (fun n => INR n) (0 + 4 * length notebook_steps)
     ([] ++
      sweep_lines "american_fast_tree" "american_slow_tree"
        (fun N => ((100, 1, 100, 6 / 100, N, 11 / 10, 10 / 11), "P"%string))
        (fun n => INR n) 0 notebook_steps)).
Proof.
  split; [exact notebook_steps_in_range|].
  exact (proj1 (proj2 (benchmark_sweeps_complete 100 1 100 125 (6 / 100)
                         (11 / 10) (10 / 11) notebook_steps
                         (World (fun n => INR n) 0 [])
                         (World (fun n => INR n) 0 [])
                         notebook_steps_in_range))).
Defined.

(** X15.  A step count of 0 stops a comparison loop: the first call of
    that iteration raises [ZeroDivisionError] after one clock reading, the
    loop is left with that exception, and only the lines of the step
    counts before it (at least 1, with powers within the range of a
    double) have been printed. *)
Theorem benchmark_sweeps_stop_at_zero (K T S0 H r u d : R)
    (pre post : list nat) (w : world vanilla_args)
    (wb : world barrier_args) :
  (forall N, In N pre -> (1 <= N)%nat /\ powers_in_range u d N) ->
  binomial_sweep K T S0 r u d (pre ++ 0%nat :: post) w =
    (Raise ZeroDivisionError,
     World (now w) (reads w + 4 * length pre + 1)
       (printed w ++
        sweep_lines "binomial_tree_slow" "binomial_tree_fast"
          (fun N => ((K, T, S0, r, N, u, d), "C"%string))
          (now w) (reads w) pre)) /\
  american_sweep K T S0 r u d (pre ++ 0%nat :: post) w =
    (Raise ZeroDivisionError,
     World (now w) (reads w + 4 * length pre + 1)
       (printed w ++
        sweep_lines "american_fast_tree" "american_slow_tree"
          (fun N => ((K, T, S0, r, N, u, d), "P"%string))
          (now w) (reads w) pre)) /\
  barrier_sweep K T S0 H r u d (pre ++ 0%nat :: post) wb =
    (Raise ZeroDivisionError,
     World (now wb) (reads wb + 4 * length pre + 1)
       (printed wb ++
        sweep_lines "barrier_tree_slow" "barrier_tree_fast"
          (fun N => ((K, T, S0, H, r, N, u, d), "C"%string))
          (now wb) (reads wb) pre)).
Proof.
  intros Hpos.
  split; [|split].
  - unfold binomial_sweep, timed_binomial_tree_slow, timed_binomial_tree_fast.
    apply (sweep_timed_raise "binomial_tree_slow" "binomial_tree_fast" _ _
             (fun N => ((K, T, S0, r, N, u, d), "C"%string)));
      [|reflexivity].
    intros N HN; destruct (Hpos N HN) as [H1N HrN].
    destruct (pricers_return K T S0 H r N u d "C" H1N HrN)
      as (H1 & H2 & _).
    split; assumption.
  - unfold american_sweep, timed_american_slow_tree, timed_american_fast_tree.
    apply (sweep_timed_raise "american_fast_tree" "american_slow_tree" _ _
             (fun N => ((K, T, S0, r, N, u, d), "P"%string)));
      [|reflexivity].
    intros N HN; destruct (Hpos N HN) as [H1N HrN].
    destruct (pricers_return K T S0 H r N u d "P" H1N HrN)
      as (_ & _ & H3 & H4 & _).
    split; assumption.
  - unfold barrier_sweep, timed_barrier_tree_slow, timed_barrier_tree_fast.
    apply (sweep_timed_raise "barrier_tree_slow" "barrier_tree_fast" _ _
             (fun N => ((K, T, S0, H, r, N, u, d), "C"%string)));
      [|reflexivity].
    intros N HN; destruct (Hpos N HN) as [H1N HrN].
    destruct (pricers_return K T S0 H r N u d "C" H1N HrN)
      as (_ & _ & _ & _ & H5 & H6).
    split; assumption.
Qed.

Lemma benchmark_sweeps_stop_at_zero_witness :
  (forall N, In N [3%nat; 50%nat] ->
             (1 <= N)%nat /\ powers_in_range (11 / 10) (10 / 11) N) /\
  barrier_sweep 100 1 100 125 (6 / 100) (11 / 10) (10 / 11)
    ([3%nat; 50%nat] ++ 0%nat :: [100%nat])
    (World (fun n => INR n) 0 []) =
  (Raise ZeroDivisionError,
   World (fun n => INR n) (0 + 4 * length [3%nat; 50%nat] + 1)
     ([] ++
      sweep_lines "barrier_tree_slow" "barrier_tree_fast"
        (fun N => ((100, 1, 100, 125, 6 / 100, N, 11 / 10, 10 / 11),
                   "C"%string))
        (fun n => INR n) 0 [3%nat; 50%nat])).
Proof.
  assert (Hpos : forall N, In N [3%nat; 50%nat] ->
                           (1 <= N)%nat /\
                           powers_in_range (11 / 10) (10 / 11) N).
  { intros N [<-|[<-|[]]];
      (split; [apply le_n_S, Nat.le_0_l|apply powers_in_range_notebook; lia]). }
  split; [exact Hpos|].
  exact (proj2 (proj2 (benchmark_sweeps_stop_at_zero 100 1 100 125 (6 / 100)
                         (11 / 10) (10 / 11) [3%nat; 50%nat] [100%nat]
                         (World (fun n => INR n) 0 [])
                         (World (fun n => INR n) 0 [])
                         Hpos))).
Defined.

(** ** No index leaves its array, no shapes differ *)

Lemma get_chk_some (a : array) (j : nat) :
  (j < length a)%nat -> get_chk a j = Some (get a j).
Proof. intros Hj; unfold get_chk, get; now apply nth_error_nth'. Qed.

Lemma set_chk_some (a : array) (j : nat) (v : R) :
  (j < length a)%nat -> set_chk a j v = Some (set a j v).
Proof.
  intros Hj; unfold set_chk.
  now destruct (Nat.ltb_spec j (length a)); try lia.
Qed.

Lemma zip_chk_some {A B C} (f : A -> B -> C) (a : list A) (b : list B) :
  length a = length b -> zip_chk f a b = Some (zip_with f a b).
Proof.
  intros E; unfold zip_chk, same_shape.
  now rewrite (proj2 (Nat.eqb_eq _ _) E).
Qed.

Lemma for_each_chk_none {A} (l : list nat) (body : nat -> A -> option A) :
  fold_left (fun s i => x <~ s ;; body i x) l None = None.
Proof. induction l as [|i l IH]; simpl; auto. Qed.

Lemma for_each_chk_cons {A} (i : nat) (l : list nat)
    (body : nat -> A -> option A) (s : A) :
  for_each_chk (i :: l) body s = x <~ body i s ;; for_each_chk l body x.
Proof.
  unfold for_each_chk; simpl.
  destruct (body i s); simpl; auto using for_each_chk_none.
Qed.

Lemma for_each_chk_snoc {A} (l : list nat) (i : nat)
    (body : nat -> A -> option A) (s : A) :
  for_each_chk (l ++ [i]) body s = x <~ for_each_chk l body s ;; body i x.
Proof. unfold for_each_chk; now rewrite fold_left_app. Qed.

(** A checked loop whose checks pass under an invariant of the state runs
    like the unchecked loop. *)
Lemma for_each_chk_inv {A} (Inv : A -> Prop) (l : list nat)
    (body_chk : nat -> A -> option A) (body : nat -> A -> A) (s : A) :
  Inv s ->
  (forall i s, In i l -> Inv s ->
               body_chk i s = Some (body i s) /\ Inv (body i s)) ->
  for_each_chk l body_chk s = Some (for_each l body s) /\
  Inv (for_each l body s).
Proof.
  revert s; induction l as [|i l IH]; intros s Hs Hb.
  - split; auto.
  - destruct (Hb i s (or_introl eq_refl) Hs) as [E Hs'].
    rewrite for_each_chk_cons, E; simpl.
    apply IH; auto.
    intros i' s' Hi'; apply Hb; now right.
Qed.

Section CheckedFacts.

Variables (K S0 u d q disc : R).
Variable opttype : string.
Variable H : R.

Lemma layer_prices_chk_some (i : nat) :
  layer_prices_chk S0 u d i = Some (layer_prices S0 u d i).
Proof.
  unfold layer_prices_chk, layer_prices; apply zip_chk_some.
  unfold scale, arange_decr, arange_incr.
  rewrite !length_map, length_rev, !length_seq; lia.
Qed.

Lemma shift_combine_chk_some (C : array) (n : nat) :
  (n + 1 <= length C)%nat ->
  shift_combine_chk q disc C n =
  Some (scale disc (vadd (scale q (slice C 1 (n + 1)))
                         (scale (1 - q) (slice C 0 n)))).
Proof.
  intros Hn; unfold shift_combine_chk.
  rewrite zip_chk_some; [reflexivity|].
  unfold scale; rewrite !length_map, !length_slice; lia.
Qed.

Lemma hold_store_chk_some (C : array) (j : nat) :
  (j + 1 < length C)%nat ->
  hold_store_chk q disc C j = Some (set C j (hold q disc C j)).
Proof.
  intros Hj; unfold hold_store_chk.
  rewrite !get_chk_some by lia; simpl.
  now rewrite set_chk_some by lia.
Qed.

(** *** Node-wise pricers *)

Lemma american_slow_prices_chk_some (N : nat) :
  american_slow_prices_chk S0 u d N = Some (american_slow_prices S0 u d N).
Proof.
  unfold american_slow_prices_chk, american_slow_prices.
  apply (for_each_chk_inv (fun S => length S = (N + 1)%nat)).
  - apply length_zeros.
  - intros j S Hj HS; apply in_range in Hj.
    rewrite set_chk_some, length_set by lia; auto.
Qed.

Lemma binomial_slow_prices_chk_some (N : nat) :
  binomial_slow_prices_chk S0 u d N = Some (binomial_slow_prices S0 u d N).
Proof.
  unfold binomial_slow_prices_chk, binomial_slow_prices.
  rewrite set_chk_some by (rewrite length_zeros; lia); simpl.
  apply (for_each_chk_inv (fun S => length S = (N + 1)%nat)).
  - now rewrite length_set, length_zeros.
  - intros j S Hj HS; apply in_range in Hj.
    rewrite get_chk_some by lia; simpl.
    rewrite set_chk_some, length_set by lia; auto.
Qed.

Lemma binomial_slow_payoff_chk_some (N : nat) (S : array) :
  length S = (N + 1)%nat ->
  binomial_slow_payoff_chk K N S = Some (binomial_slow_payoff K N S).
Proof.
  intros HS; unfold binomial_slow_payoff_chk, binomial_slow_payoff.
  apply (for_each_chk_inv (fun C => length C = (N + 1)%nat)).
  - apply length_zeros.
  - intros j C Hj HC; apply in_range in Hj.
    rewrite get_chk_some by lia; simpl.
    rewrite set_chk_some, length_set by lia; auto.
Qed.

Lemma american_slow_payoff_chk_some (N : nat) (S : array) :
  length S = (N + 1)%nat ->
  american_slow_payoff_chk K opttype N S =
  Some (american_slow_payoff K opttype N S).
Proof.
  intros HS; unfold american_slow_payoff_chk, american_slow_payoff.
  apply (for_each_chk_inv (fun C => length C = (N + 1)%nat)).
  - apply length_zeros.
  - intros j C Hj HC; apply in_range in Hj.
    rewrite get_chk_some by lia; simpl.
    destruct (opttype =? "P")%string;
      rewrite set_chk_some, length_set by lia; auto.
Qed.

Lemma barrier_slow_payoff_chk_some (N : nat) (S : array) :
  length S = (N + 1)%nat ->
  barrier_slow_payoff_chk K opttype N S =
  Some (barrier_slow_payoff K opttype N S).
Proof.
  intros HS; unfold barrier_slow_payoff_chk, barrier_slow_payoff.
  apply (for_each_chk_inv (fun C => length C = (N + 1)%nat)).
  - apply length_zeros.
  - intros j C Hj HC; apply in_range in Hj.
    rewrite get_chk_some by lia; simpl.
    destruct (opttype =? "C")%string;
      rewrite set_chk_some, length_set by lia; auto.
Qed.

Lemma barrier_slow_knock_chk_some (N : nat) (C : array) :
  length C = (N + 1)%nat ->
  barrier_slow_knock_chk S0 u d H N C = Some (barrier_slow_knock S0 u d H N C).
Proof.
  intros HC; unfold barrier_slow_knock_chk, barrier_slow_knock.
  apply (for_each_chk_inv (fun C => length C = (N + 1)%nat)); auto.
  intros j C' Hj HC'; apply in_range in Hj; cbv zeta.
  destruct (Rge_dec _ H); auto.
  rewrite set_chk_some, length_set by lia; auto.
Qed.

Lemma binomial_slow_layer_chk_some (i : nat) (C : array) :
  (i + 1 <= length C)%nat ->
  binomial_slow_layer_chk q disc i C = Some (binomial_slow_layer q disc i C).
Proof.
  intros Hi; unfold binomial_slow_layer_chk, binomial_slow_layer.
  apply (for_each_chk_inv (fun C' => length C' = length C)); auto.
  intros j C' Hj HC'; apply in_range in Hj.
  rewrite hold_store_chk_some, length_set by lia; auto.
Qed.

Lemma american_slow_layer_chk_some (i : nat) (C : array) :
  (i + 2 <= length C)%nat ->
  american_slow_layer_chk K S0 u d q disc opttype i C =
  Some (american_slow_layer K S0 u d q disc opttype i C).
Proof.
  intros Hi; unfold american_slow_layer_chk, american_slow_layer.
  apply (for_each_chk_inv (fun C' => length C' = length C)); auto.
  intros j C' Hj HC'; apply in_range in Hj.
  unfold american_slow_node_chk, american_slow_node; cbv zeta.
  rewrite hold_store_chk_some by lia; simpl.
  rewrite get_chk_some by (rewrite length_set; lia); simpl.
  destruct (opttype =? "P")%string;
    rewrite set_chk_some, !length_set by (rewrite length_set; lia); auto.
Qed.

Lemma barrier_slow_layer_chk_some (i : nat) (C : array) :
  (i + 2 <= length C)%nat ->
  barrier_slow_layer_chk S0 u d q disc H i C =
  Some (barrier_slow_layer S0 u d q disc H i C).
Proof.
  intros Hi; unfold barrier_slow_layer_chk, barrier_slow_layer.
  apply (for_each_chk_inv (fun C' => length C' = length C)); auto.
  intros j C' Hj HC'; apply in_range in Hj.
  unfold barrier_slow_node_chk, barrier_slow_node; cbv zeta.
  destruct (Rge_dec _ H).
  - rewrite set_chk_some, length_set by lia; auto.
  - rewrite hold_store_chk_some, length_set by lia; auto.
Qed.

(** The outer loops, iteration by iteration. *)

Lemma binomial_slow_outer_chk (N k : nat) :
  (k <= N)%nat ->
  for_each_chk (firstn k (arange_decr (N + 1) 1))
    (binomial_slow_layer_chk q disc)
    (binomial_slow_payoff K N (binomial_slow_prices S0 u d N)) =
  Some (binomial_slow_run K S0 u d q disc N k).
Proof.
  induction k as [|k IH]; intros Hk; [reflexivity|].
  rewrite firstn_arange_decr_S, for_each_chk_snoc, IH by lia; simpl.
  replace (N + 1 - 1 - k)%nat with (N - k)%nat by lia.
  destruct (binomial_slow_run_gen K S0 u d q disc N k) as [Rl _]; [lia|].
  rewrite binomial_slow_layer_chk_some by lia.
  now rewrite binomial_slow_run_S by lia.
Qed.

Lemma american_slow_outer_chk (N k : nat) :
  (k <= N)%nat ->
  for_each_chk (firstn k (arange_decr N 0))
    (american_slow_layer_chk K S0 u d q disc opttype)
    (american_slow_payoff K opttype N (american_slow_prices S0 u d N)) =
  Some (american_slow_run K S0 u d q disc opttype N k).
Proof.
  induction k as [|k IH]; intros Hk; [reflexivity|].
  rewrite firstn_arange_decr_S, for_each_chk_snoc, IH by lia; simpl.
  destruct (american_slow_run_spec K S0 u d q disc opttype N k) as [Rl _];
    [lia|].
  rewrite american_slow_layer_chk_some by lia.
  now rewrite american_slow_run_S by lia.
Qed.

Lemma barrier_slow_outer_chk (N k : nat) :
  (k <= N)%nat ->
  for_each_chk (firstn k (arange_decr N 0))
    (barrier_slow_layer_chk S0 u d q disc H)
    (barrier_slow_knock S0 u d H N
       (barrier_slow_payoff K opttype N (barrier_slow_prices S0 u d N))) =
  Some (barrier_slow_run K S0 u d q disc opttype H N k).
Proof.
  induction k as [|k IH]; intros Hk; [reflexivity|].
  rewrite firstn_arange_decr_S, for_each_chk_snoc, IH by lia; simpl.
  destruct (barrier_slow_run_spec K S0 u d q disc opttype H N k) as [Rl _];
    [lia|].
  rewrite barrier_slow_layer_chk_some by lia.
  now rewrite barrier_slow_run_S by lia.
Qed.

(** *** Layer-wise pricers *)

Lemma binomial_fast_payoff_chk_some (N : nat) :
  binomial_fast_payoff_chk K S0 u d N = Some (binomial_fast_payoff K S0 u d N).
Proof.
  unfold binomial_fast_payoff_chk, binomial_fast_payoff.
  rewrite layer_prices_chk_some; simpl.
  apply zip_chk_some.
  unfold subr; now rewrite length_map, length_layer_prices, length_zeros.
Qed.

Lemma american_fast_payoff_chk_some (N : nat) :
  american_fast_payoff_chk K S0 u d opttype N =
  Some (american_fast_payoff K S0 u d opttype N).
Proof.
  unfold american_fast_payoff_chk, american_fast_payoff.
  rewrite layer_prices_chk_some; simpl.
  now destruct (opttype =? "P")%string.
Qed.

Lemma barrier_fast_payoff_chk_some (N : nat) :
  barrier_fast_payoff_chk K S0 u d opttype H N =
  Some (barrier_fast_payoff K S0 u d opttype H N).
Proof.
  unfold barrier_fast_payoff_chk, barrier_fast_payoff.
  rewrite layer_prices_chk_some; simpl.
  unfold mask_zero_chk, same_shape.
  destruct (opttype =? "C")%string;
    unfold maximum_sr, subr, rsub;
    now rewrite !length_map, Nat.eqb_refl.
Qed.

Lemma binomial_fast_layer_chk_some (i : nat) (C : array) :
  (i + 1 <= length C)%nat ->
  binomial_fast_layer_chk q disc i C = Some (binomial_fast_layer q disc i C).
Proof. apply shift_combine_chk_some. Qed.

Lemma assign_prefix_chk_some (C rhs : array) (n : nat) :
  (n <= length C)%nat -> length rhs = n ->
  assign_prefix_chk C n rhs = Some (assign_prefix C n rhs).
Proof.
  intros Hn Hr; unfold assign_prefix_chk, same_shape.
  rewrite length_firstn, Hr.
  now replace (Nat.min n (length C)) with n by lia; rewrite Nat.eqb_refl.
Qed.

Lemma american_fast_layer_chk_some (i : nat) (C : array) :
  length C = (i + 2)%nat ->
  american_fast_layer_chk K S0 u d q disc opttype i C =
  Some (american_fast_layer K S0 u d q disc opttype i C).
Proof.
  intros HC; unfold american_fast_layer_chk, american_fast_layer.
  rewrite layer_prices_chk_some; simpl.
  replace (i + 2)%nat with (i + 1 + 1)%nat in * by lia.
  destruct (shift_combine_spec q disc C (i + 1)) as [Ll _]; [lia|].
  cbv zeta in Ll.
  rewrite shift_combine_chk_some by lia; simpl.
  rewrite assign_prefix_chk_some by (auto; lia); simpl.
  pose proof (length_layer_prices S0 u d i) as LS.
  destruct (opttype =? "P")%string; apply zip_chk_some;
    unfold rsub, subr;
    rewrite length_drop_last, length_assign_prefix, length_map by (auto; lia);
    lia.
Qed.

Lemma barrier_fast_layer_chk_some (i : nat) (C : array) :
  length C = (i + 2)%nat ->
  barrier_fast_layer_chk S0 u d q disc H i C =
  Some (barrier_fast_layer S0 u d q disc H i C).
Proof.
  intros HC; unfold barrier_fast_layer_chk, barrier_fast_layer.
  rewrite layer_prices_chk_some; simpl.
  replace (i + 2)%nat with (i + 1 + 1)%nat in * by lia.
  destruct (shift_combine_spec q disc C (i + 1)) as [Ll _]; [lia|].
  cbv zeta in Ll.
  rewrite shift_combine_chk_some by lia; simpl.
  rewrite assign_prefix_chk_some by (auto; lia); simpl.
  pose proof (length_layer_prices S0 u d i) as LS.
  unfold mask_zero_chk, same_shape.
  match goal with
  | |- context [length (drop_last ?a)] =>
      assert (La : length (drop_last a) = (i + 1)%nat)
        by (rewrite length_drop_last, length_assign_prefix by (auto; lia);
            lia)
  end.
  now rewrite La, LS, Nat.eqb_refl.
Qed.

Lemma binomial_fast_outer_chk (N k : nat) :
  (k <= N)%nat ->
  for_each_chk (firstn k (arange_decr (N + 1) 1))
    (binomial_fast_layer_chk q disc) (binomial_fast_payoff K S0 u d N) =
  Some (binomial_fast_run K S0 u d q disc N k).
Proof.
  induction k as [|k IH]; intros Hk; [reflexivity|].
  rewrite firstn_arange_decr_S, for_each_chk_snoc, IH by lia; simpl.
  replace (N + 1 - 1 - k)%nat with (N - k)%nat by lia.
  destruct (binomial_fast_run_spec K S0 u d q disc N k) as [Rl _]; [lia|].
  rewrite binomial_fast_layer_chk_some by lia.
  now rewrite binomial_fast_run_S by lia.
Qed.

Lemma american_fast_outer_chk (N k : nat) :
  (k <= N)%nat ->
  for_each_chk (firstn k (arange_decr N 0))
    (american_fast_layer_chk K S0 u d q disc opttype)
    (american_fast_payoff K S0 u d opttype N) =
  Some (american_fast_run K S0 u d q disc opttype N k).
Proof.
  induction k as [|k IH]; intros Hk; [reflexivity|].
  rewrite firstn_arange_decr_S, for_each_chk_snoc, IH by lia; simpl.
  destruct (american_fast_run_spec K S0 u d q disc opttype N k) as [Rl _];
    [lia|].
  rewrite american_fast_layer_chk_some by lia.
  now rewrite american_fast_run_S by lia.
Qed.

Lemma barrier_fast_outer_chk (N k : nat) :
  (k <= N)%nat ->
  for_each_chk (firstn k (arange_decr N 0))
    (barrier_fast_layer_chk S0 u d q disc H)
    (barrier_fast_payoff K S0 u d opttype H N) =
  Some (barrier_fast_run K S0 u d q disc opttype H N k).
Proof.
  induction k as [|k IH]; intros Hk; [reflexivity|].
  rewrite firstn_arange_decr_S, for_each_chk_snoc, IH by lia; simpl.
  destruct (barrier_fast_run_spec K S0 u d q disc opttype H N k) as [Rl _];
    [lia|].
  rewrite barrier_fast_layer_chk_some by lia.
  now rewrite barrier_fast_run_S by lia.
Qed.

End CheckedFacts.

Lemma length_binomial_slow_prices (S0 u d : R) (N : nat) :
  length (binomial_slow_prices S0 u d N) = (N + 1)%nat.
Proof.
  unfold binomial_slow_prices, range.
  replace (N + 1 - 1)%nat with N by lia.
  exact (proj1 (binomial_slow_prices_iter S0 u d N N (le_n N))).
Qed.

(** X16.  The node-wise pricers never index outside their arrays: run with
    numpy's bounds checks on every read [S[j]], [S[j-1]], [C[j]],
    [C[j+1]], [C[0]] and every store, their loops pass all checks and
    return the value the pricers return, for every step count and every
    real parameter. *)
Theorem nodewise_indices_in_range (K S0 u d q disc : R) (opttype : string)
    (H : R) (N : nat) :
  binomial_slow_price_chk K S0 u d q disc N =
    Some (get (binomial_slow_loop K S0 u d q disc N) 0) /\
  american_slow_price_chk K S0 u d q disc opttype N =
    Some (get (american_slow_loop K S0 u d q disc opttype N) 0) /\
  barrier_slow_price_chk K S0 u d q disc opttype H N =
    Some (get (barrier_slow_loop K S0 u d q disc opttype H N) 0).
Proof.
  split; [|split].
  - unfold binomial_slow_price_chk.
    rewrite binomial_slow_prices_chk_some; cbn [and_then].
    rewrite binomial_slow_payoff_chk_some
      by apply length_binomial_slow_prices; cbn [and_then].
    rewrite <- (firstn_arange_decr_all (N + 1) 1).
    replace (N + 1 - 1)%nat with N by lia.
    rewrite binomial_slow_outer_chk by lia; cbn [and_then].
    rewrite binomial_slow_loop_run.
    destruct (binomial_slow_run_gen K S0 u d q disc N N (le_n N)) as [Rl _].
    apply get_chk_some; lia.
  - unfold american_slow_price_chk.
    rewrite american_slow_prices_chk_some; cbn [and_then].
    rewrite american_slow_payoff_chk_some
      by apply (proj1 (american_slow_prices_spec S0 u d N)); cbn [and_then].
    rewrite <- (firstn_arange_decr_all N 0), Nat.sub_0_r.
    rewrite american_slow_outer_chk by lia; cbn [and_then].
    rewrite american_slow_loop_run.
    destruct (american_slow_run_spec K S0 u d q disc opttype N N (le_n N))
      as [Rl _].
    apply get_chk_some; lia.
  - unfold barrier_slow_price_chk.
    rewrite american_slow_prices_chk_some; cbn [and_then].
    rewrite barrier_slow_payoff_chk_some
      by apply (proj1 (american_slow_prices_spec S0 u d N)); cbn [and_then].
    rewrite barrier_slow_knock_chk_some; cbn [and_then].
    + rewrite <- (firstn_arange_decr_all N 0), Nat.sub_0_r.
      change (american_slow_prices S0 u d N)
        with (barrier_slow_prices S0 u d N).
      rewrite (barrier_slow_outer_chk K S0 u d q disc opttype H N N (le_n N)).
      cbn [and_then]; rewrite barrier_slow_loop_run.
      destruct (barrier_slow_run_spec K S0 u d q disc opttype H N N (le_n N))
        as [Rl _].
      apply get_chk_some; lia.
    + destruct (sweep_spec
        (fun j C => if (opttype =? "C")%string
                    then set C j (Rmax 0 (get (american_slow_prices S0 u d N) j - K))
                    else set C j (Rmax 0 (K - get (american_slow_prices S0 u d N) j)))
        (fun j _ => if (opttype =? "C")%string
                    then Rmax 0 (get (american_slow_prices S0 u d N) j - K)
                    else Rmax 0 (K - get (american_slow_prices S0 u d N) j))
        (N + 1) (zeros (N + 1))) as [Hl _]; auto.
      * intros; now destruct (opttype =? "C")%string.
      * rewrite length_zeros; lia.
      * rewrite length_zeros in Hl; exact Hl.
Qed.

(** X17.  The layer-wise pricers never combine arrays of different
    shapes: run with a check that the two operands of every element-wise
    operation, the two sides of the slice store [C[:i+1] = ...] and the
    array and its mask in [C[S >= H] = 0] have equal length, and that
    [C[0]] exists, their loops pass all checks and return the value the
    pricers return. *)
Theorem layerwise_shapes_conform (K S0 u d q disc : R) (opttype : string)
    (H : R) (N : nat) :
  binomial_fast_price_chk K S0 u d q disc N =
    Some (get (binomial_fast_loop K S0 u d q disc N) 0) /\
  american_fast_price_chk K S0 u d q disc opttype N =
    Some (get (american_fast_loop K S0 u d q disc opttype N) 0) /\
  barrier_fast_price_chk K S0 u d q disc opttype H N =
    Some (get (barrier_fast_loop K S0 u d q disc opttype H N) 0).
Proof.
  split; [|split].
  - unfold binomial_fast_price_chk.
    rewrite binomial_fast_payoff_chk_some; cbn [and_then].
    rewrite <- (firstn_arange_decr_all (N + 1) 1).
    replace (N + 1 - 1)%nat with N by lia.
    rewrite binomial_fast_outer_chk by lia; cbn [and_then].
    rewrite binomial_fast_loop_run.
    destruct (binomial_fast_run_spec K S0 u d q disc N N (le_n N)) as [Rl _].
    apply get_chk_some; lia.
  - unfold american_fast_price_chk.
    rewrite american_fast_payoff_chk_some; cbn [and_then].
    rewrite <- (firstn_arange_decr_all N 0), Nat.sub_0_r.
    rewrite american_fast_outer_chk by lia; cbn [and_then].
    rewrite american_fast_loop_run.
    destruct (american_fast_run_spec K S0 u d q disc opttype N N (le_n N))
      as [Rl _].
    apply get_chk_some; lia.
  - unfold barrier_fast_price_chk.
    rewrite barrier_fast_payoff_chk_some; cbn [and_then].
    rewrite <- (firstn_arange_decr_all N 0), Nat.sub_0_r.
    rewrite (barrier_fast_outer_chk K S0 u d q disc opttype H N N (le_n N)).
    cbn [and_then]; rewrite barrier_fast_loop_run.
    destruct (barrier_fast_run_spec K S0 u d q disc opttype H N N (le_n N))
      as [Rl _].
    apply get_chk_some; lia.
Qed.
